(** * snipbook: region extraction, autocrop, melding and page layout

    A shallow embedding of the algorithmic core of [snipbook.py]:
    [find_contiguous_rectangles], [hex_to_rgb], [crop], [resize_and_center],
    [combine_two], [combine_multiple], [merge_pillow_options], the loops of
    [snip] and the layout arithmetic of [merge].  Exceptions are
    values of an error monad; images are records of mode, size and rows of
    pixels; the library calls the script relies on (scipy's [label], numpy's
    element-wise operations, Pillow's [crop] and [paste], the builtins
    [sorted], [int] and [max]) are modelled by their documented behaviour. *)

From Stdlib Require Import String Ascii.
From Stdlib Require Import List ZArith QArith Qfield Lqa Bool Arith Lia.
From Stdlib Require Import Sorted Permutation.
From Stdlib Require Import Uint63 PrimFloat.
From Stdlib Require DecimalString DecimalFacts DecimalNat.
Import ListNotations.

Close Scope Q_scope.

(** ** Exceptions *)

Module Py.

Inductive exn : Type :=
| ValueError
| TypeError
| ZeroDivisionError
| KeyError
| IndexError
| AssertionError.

Inductive result (A : Type) : Type :=
| Ok (a : A)
| Raise (e : exn).

Arguments Ok {A} a.
Arguments Raise {A} e.

Definition bind {A B : Type} (m : result A) (k : A -> result B) : result B :=
  match m with
  | Ok a => k a
  | Raise e => Raise e
  end.

(** A list comprehension whose body may raise: elements are evaluated from
    left to right and the first exception ends the evaluation. *)
Fixpoint mapM {A B : Type} (f : A -> result B) (l : list A) : result (list B) :=
  match l with
  | [] => Ok []
  | x :: xs =>
      match f x with
      | Ok y => match mapM f xs with
                | Ok ys => Ok (y :: ys)
                | Raise e => Raise e
                end
      | Raise e => Raise e
      end
  end.

End Py.

Import Py.

Declare Scope py_scope.
Delimit Scope py_scope with py.
Notation "x <- m ;; k" := (bind m (fun x => k))
  (at level 61, m at next level, right associativity) : py_scope.
Open Scope py_scope.

(** ** RegionExtractor *)

Module Region.

Definition grid (A : Type) : Type := list (list A).

Definition get {A : Type} (d : A) (g : grid A) (r c : nat) : A :=
  nth c (nth r g []) d.

Fixpoint set_nth {A : Type} (n : nat) (f : A -> A) (l : list A) : list A :=
  match l, n with
  | [], _ => []
  | x :: xs, O => f x :: xs
  | x :: xs, S n' => x :: set_nth n' f xs
  end.

Definition set {A : Type} (g : grid A) (r c : nat) (v : A) : grid A :=
  set_nth r (set_nth c (fun _ => v)) g.

(** Row-major enumeration of the cells of a grid, the order of [np.where]
    and of the labelling scan. *)
Definition coords {A : Type} (g : grid A) : list (nat * nat) :=
  flat_map (fun r => map (fun c => (r, c)) (seq 0 (length (nth r g []))))
           (seq 0 (length g)).

Definition mask : Type := grid bool.

Definition cell (m : mask) (r c : nat) : bool := get false m r c.

Definition neighbours (r c : nat) : list (nat * nat) :=
  (if (0 <? r)%nat then [(r - 1, c)%nat] else [])
    ++ [(S r, c)]
    ++ (if (0 <? c)%nat then [(r, c - 1)%nat] else [])
    ++ [(r, S c)].

(** [scipy.ndimage.label] with its default structuring element: two true
    cells are joined when they are orthogonal neighbours, and components are
    numbered 1, 2, ... in the order in which the row-major scan meets their
    first cell.  Each component is filled from that first cell with an
    explicit stack; a cell is labelled at most once and pushes at most four
    neighbours, so [4 * cells + 1] pops are enough for one fill. *)
Fixpoint flood (m : mask) (fuel : nat) (stack : list (nat * nat)) (l : nat)
         (lab : grid nat) : grid nat :=
  match fuel with
  | O => lab
  | S fuel' =>
      match stack with
      | [] => lab
      | (r, c) :: rest =>
          if cell m r c && (get 0%nat lab r c =? 0)%nat
          then flood m fuel' (neighbours r c ++ rest) l (set lab r c l)
          else flood m fuel' rest l lab
      end
  end.

Definition fill_fuel (m : mask) : nat := 4 * length (coords m) + 1.

Definition label_step (m : mask) (st : grid nat * nat) (rc : nat * nat)
  : grid nat * nat :=
  let '(lab, n) := st in
  let '(r, c) := rc in
  if cell m r c && (get 0%nat lab r c =? 0)%nat
  then (flood m (fill_fuel m) [(r, c)] (S n) lab, S n)
  else (lab, n).

Definition label (m : mask) : grid nat * nat :=
  fold_left (label_step m) (coords m) (map (map (fun _ => 0%nat)) m, 0%nat).

(** [np.where(labeled_array == i)]: the row indices and the column indices of
    the matching cells, in row-major order. *)
Definition np_where_eq (lab : grid nat) (i : nat) : list Z * list Z :=
  let cs := filter (fun rc => (get 0%nat lab (fst rc) (snd rc) =? i)%nat)
                   (coords lab) in
  (map (fun rc => Z.of_nat (fst rc)) cs, map (fun rc => Z.of_nat (snd rc)) cs).

(** [ndarray.min()] and [ndarray.max()]: a ValueError on an empty array. *)
Definition np_min (l : list Z) : result Z :=
  match l with
  | [] => Raise ValueError
  | x :: xs => Ok (fold_left Z.min xs x)
  end.

Definition np_max (l : list Z) : result Z :=
  match l with
  | [] => Raise ValueError
  | x :: xs => Ok (fold_left Z.max xs x)
  end.

Definition rect : Type := list Z.

(** The sort key [lambda x: 2*x[0] + x[1]]. *)
Definition key (x : rect) : Z := (2 * nth 0 x 0 + nth 1 x 0)%Z.

(** [sorted(l, key=k)]: Python's sort is stable; modelled as a stable
    insertion sort, an element going in front of the later elements whose
    key is not smaller. *)
Fixpoint insert_by {A : Type} (k : A -> Z) (x : A) (l : list A) : list A :=
  match l with
  | [] => [x]
  | y :: ys => if (k x <=? k y)%Z then x :: y :: ys else y :: insert_by k x ys
  end.

Fixpoint sorted {A : Type} (k : A -> Z) (l : list A) : list A :=
  match l with
  | [] => []
  | x :: xs => insert_by k x (sorted k xs)
  end.

(** The body of the loop of [find_contiguous_rectangles] for label [i]. *)
Definition rectangle_of (lab : grid nat) (i : nat) : result rect :=
  let '(rows, cols) := np_where_eq lab i in
  cmin <- np_min cols ;;
  rmin <- np_min rows ;;
  cmax <- np_max cols ;;
  rmax <- np_max rows ;;
  Ok [cmin; rmin; cmax; rmax].

(** The rectangles in the order in which the loop appends them. *)
Definition discovered (nparr : mask) : result (list rect) :=
  let '(labeled_array, num_features) := label nparr in
  mapM (rectangle_of labeled_array) (seq 1 num_features).

Definition find_contiguous_rectangles (nparr : mask) : result (list rect) :=
  rectangles <- discovered nparr ;;
  Ok (sorted key rectangles).

(** The mask of the end-to-end scenario: 7 by 7 with two 2 by 2 true blocks,
    rows and columns 0-1 and 5-6. *)
Definition two_blocks : mask :=
  let t := true in let f := false in
  [ [t; t; f; f; f; f; f];
    [t; t; f; f; f; f; f];
    [f; f; f; f; f; f; f];
    [f; f; f; f; f; f; f];
    [f; f; f; f; f; f; f];
    [f; f; f; f; f; t; t];
    [f; f; f; f; f; t; t] ].

(** A single isolated true cell, row 1 and column 2 of a 3 by 4 mask. *)
Definition one_cell : mask :=
  let t := true in let f := false in
  [ [f; f; f; f];
    [f; f; t; f];
    [f; f; f; f] ].

End Region.

(** ** PixelGrid: Pillow images and numpy arrays *)

Module Pil.

Import Region.

Inductive Mode : Type := RGB | RGBA.

Definition channels (md : Mode) : nat :=
  match md with RGB => 3 | RGBA => 4 end.

Definition Mode_eqb (a b : Mode) : bool :=
  match a, b with
  | RGB, RGB | RGBA, RGBA => true
  | _, _ => false
  end.

(** A pixel is the tuple of its 8-bit samples, 3 for RGB and 4 for RGBA. *)
Definition pixel : Type := list Z.

(** An image: its mode, its size and its rows of pixels, top row first. *)
Record Image : Type := mkImage {
  mode : Mode;
  width : nat;
  height : nat;
  pixels : grid pixel
}.

Definition size (img : Image) : nat * nat := (width img, height img).

Definition sample_ok (v : Z) : bool := (0 <=? v)%Z && (v <=? 255)%Z.

Definition pixel_ok (md : Mode) (px : pixel) : bool :=
  (List.length px =? channels md) && forallb sample_ok px.

(** The representation invariant: [height] rows of [width] pixels, every
    pixel with as many samples as the mode has channels, every sample 8-bit. *)
Definition well_formed (img : Image) : bool :=
  (List.length (pixels img) =? height img)
  && forallb (fun row => (List.length row =? width img)
                         && forallb (pixel_ok (mode img)) row)
             (pixels img).

Definition zero_pixel (md : Mode) : pixel := repeat 0%Z (channels md).

(** The pixel at column [x], row [y], for coordinates that may lie outside
    the image, where Pillow's [crop] reads zeros. *)
Definition pixel_at (img : Image) (x y : Z) : pixel :=
  if (0 <=? x)%Z && (x <? Z.of_nat (width img))%Z
     && (0 <=? y)%Z && (y <? Z.of_nat (height img))%Z
  then get (zero_pixel (mode img)) (pixels img) (Z.to_nat y) (Z.to_nat x)
  else zero_pixel (mode img).

(** [Image.getpixel((x, y))]: an IndexError outside the image. *)
Definition getpixel (img : Image) (x y : nat) : result pixel :=
  if (x <? width img) && (y <? height img)
  then Ok (get (zero_pixel (mode img)) (pixels img) y x)
  else Raise IndexError.

(** [Image.crop(box)] for a box [left, top, right, bottom] of integers: an
    image of [right - left] by [bottom - top] pixels, zero where the box
    leaves the source; a ValueError when right < left or bottom < top.
    Pillow reads [box[2]], [box[0]], [box[3]] and [box[1]] for these two
    tests before it unpacks the box: a box of fewer than three entries is an
    IndexError, one of three entries a ValueError when right < left and an
    IndexError otherwise, and one of more than four a ValueError, from a
    test or from the unpacking. *)
Definition pil_crop (img : Image) (box : list Z) : result Image :=
  match box with
  | [x0; y0; x1; y1] =>
      if (x1 <? x0)%Z || (y1 <? y0)%Z then Raise ValueError
      else
        let w := Z.to_nat (x1 - x0) in
        let h := Z.to_nat (y1 - y0) in
        Ok (mkImage (mode img) w h
              (map (fun y =>
                 map (fun x => pixel_at img (x0 + Z.of_nat x) (y0 + Z.of_nat y))
                     (seq 0 w))
                 (seq 0 h)))
  | [x0; _; x1] => Raise (if (x1 <? x0)%Z then ValueError else IndexError)
  | _ :: _ :: _ :: _ :: _ :: _ => Raise ValueError
  | _ => Raise IndexError
  end.

(** [Image.new(md, size, fill)]. *)
Definition new (md : Mode) (sz : nat * nat) (fill : pixel) : Image :=
  mkImage md (fst sz) (snd sz) (repeat (repeat fill (fst sz)) (snd sz)).

(** [im.convert(md)] between the two modes: an opaque alpha is added, or
    the alpha is dropped. *)
Definition convert_pixel (src dst : Mode) (px : pixel) : pixel :=
  match src, dst with
  | RGB, RGBA => px ++ [255%Z]
  | RGBA, RGB => firstn 3 px
  | _, _ => px
  end.

(** [dest.paste(src, (ox, oy))] without a mask: the pixels of [src],
    converted to the mode of [dest], replace those of [dest] in the box that
    starts at [(ox, oy)]; what falls outside [dest] is clipped. *)
Definition paste (dest src : Image) (ox oy : Z) : Image :=
  mkImage (mode dest) (width dest) (height dest)
    (map (fun y =>
       map (fun x =>
              let sx := (Z.of_nat x - ox)%Z in
              let sy := (Z.of_nat y - oy)%Z in
              if (0 <=? sx)%Z && (sx <? Z.of_nat (width src))%Z
                 && (0 <=? sy)%Z && (sy <? Z.of_nat (height src))%Z
              then convert_pixel (mode src) (mode dest)
                     (get (zero_pixel (mode src)) (pixels src)
                          (Z.to_nat sy) (Z.to_nat sx))
              else get (zero_pixel (mode dest)) (pixels dest) y x)
           (seq 0 (width dest)))
       (seq 0 (height dest))).

(** [np.array(img)]: an array of shape (height, width, channels). *)
Record ndarray : Type := mkArray {
  shape : nat * nat * nat;
  data : grid pixel
}.

Definition np_array (img : Image) : ndarray :=
  mkArray (height img, width img, channels (mode img)) (pixels img).

Fixpoint zip_with {A B C : Type} (f : A -> B -> C) (l1 : list A) (l2 : list B)
  : list C :=
  match l1, l2 with
  | x :: xs, y :: ys => f x y :: zip_with f xs ys
  | _, _ => []
  end.

Definition shape_eqb (s1 s2 : nat * nat * nat) : bool :=
  let '(h1, w1, c1) := s1 in
  let '(h2, w2, c2) := s2 in
  (h1 =? h2) && (w1 =? w2) && (c1 =? c2).

(** [np.minimum] and [np.maximum] on two image arrays.  In [combine_two]
    both arrays have the same height and width and 3 or 4 channels, so no
    axis is stretched by broadcasting: the shapes are equal, or the channel
    counts differ and numpy raises a ValueError. *)
Definition elementwise (f : Z -> Z -> Z) (a b : ndarray) : result ndarray :=
  if shape_eqb (shape a) (shape b)
  then Ok (mkArray (shape a) (zip_with (zip_with (zip_with f)) (data a) (data b)))
  else Raise ValueError.

Definition np_minimum : ndarray -> ndarray -> result ndarray := elementwise Z.min.
Definition np_maximum : ndarray -> ndarray -> result ndarray := elementwise Z.max.

(** [arr.astype(np.uint8)]: every sample reduced modulo 256. *)
Definition astype_uint8 (a : ndarray) : ndarray :=
  mkArray (shape a) (map (map (map (fun v => (v mod 256)%Z))) (data a)).

(** [Image.fromarray(arr)]: RGB for 3 channels, RGBA for 4. *)
Definition fromarray (a : ndarray) : result Image :=
  let '(h, w, c) := shape a in
  match c with
  | 3 => Ok (mkImage RGB w h (data a))
  | 4 => Ok (mkImage RGBA w h (data a))
  | _ => Raise TypeError
  end.

End Pil.

(** ** ToleranceCropper *)

Module Crop.

Import Region Pil.

(** Strings are sequences of code points below 256. *)

Fixpoint lstrip (c : ascii) (s : string) : string :=
  match s with
  | String a rest => if Ascii.eqb a c then lstrip c rest else s
  | EmptyString => s
  end.

Definition upper_char (a : ascii) : ascii :=
  let n := nat_of_ascii a in
  if (97 <=? n) && (n <=? 122) then ascii_of_nat (n - 32) else a.

Fixpoint lower_upper_map (f : ascii -> ascii) (s : string) : string :=
  match s with
  | String a rest => String (f a) (lower_upper_map f rest)
  | EmptyString => EmptyString
  end.

(** [s.upper()], as far as a comparison with an ASCII literal without the
    letter S can tell: only the letters a-z are changed. *)
Definition upper (s : string) : string := lower_upper_map upper_char s.

(** The whitespace that [int] ignores around a number: tab to carriage
    return and the space, and of the code points from 128 on the two that
    Unicode counts as spaces, which [int] first turns into spaces.  The
    separators 28 to 31 are whitespace for [str.isspace] but not here. *)
Definition is_space (a : ascii) : bool :=
  let n := nat_of_ascii a in
  ((9 <=? n) && (n <=? 13)) || (n =? 32) || (n =? 133) || (n =? 160).

Definition hex_digit (a : ascii) : option Z :=
  let n := nat_of_ascii a in
  if (48 <=? n) && (n <=? 57) then Some (Z.of_nat (n - 48))
  else if (97 <=? n) && (n <=? 102) then Some (Z.of_nat (n - 87))
  else if (65 <=? n) && (n <=? 70) then Some (Z.of_nat (n - 55))
  else None.

Fixpoint drop_spaces (l : list ascii) : list ascii :=
  match l with
  | a :: rest => if is_space a then drop_spaces rest else l
  | [] => []
  end.

Definition strip (l : list ascii) : list ascii :=
  rev (drop_spaces (rev (drop_spaces l))).

(** The digits of a literal: hexadecimal digits, single underscores allowed
    between two digits. *)
Fixpoint digits16 (l : list ascii) (after_underscore : bool) (acc : Z)
  : option Z :=
  match l with
  | [] => if after_underscore then None else Some acc
  | a :: rest =>
      if Ascii.eqb a "_"%char
      then if after_underscore then None else digits16 rest true acc
      else match hex_digit a with
           | Some d => digits16 rest false (16 * acc + d)%Z
           | None => None
           end
  end.

Definition unsigned16 (l : list ascii) : option Z :=
  let body :=
    match l with
    | "0"%char :: x :: rest =>
        if Ascii.eqb x "x"%char || Ascii.eqb x "X"%char
        then match rest with
             | u :: rest' => if Ascii.eqb u "_"%char then rest' else rest
             | [] => rest
             end
        else l
    | _ => l
    end in
  match body with
  | [] => None
  | a :: _ => if Ascii.eqb a "_"%char then None else digits16 body false 0%Z
  end.

(** [int(s, 16)]: surrounding whitespace, an optional sign, an optional
    [0x] prefix, then the digits; a ValueError for anything else. *)
Definition int16 (s : string) : result Z :=
  let l := strip (list_ascii_of_string s) in
  let '(sign, l') :=
    match l with
    | a :: rest =>
        if Ascii.eqb a "-"%char then ((-1)%Z, rest)
        else if Ascii.eqb a "+"%char then (1%Z, rest)
        else (1%Z, l)
    | [] => (1%Z, l)
    end in
  match unsigned16 l' with
  | Some v => Ok (sign * v)%Z
  | None => Raise ValueError
  end.

Definition hex_to_rgb (hex : string) : result (list Z) :=
  let hex := lstrip "#"%char hex in
  if negb (String.length hex =? 6) then Raise ValueError
  else mapM (fun i => int16 (substring i 2 hex)) [0; 2; 4].

(** The threshold [(autocrop_tolerance / 100) * 255], and the test
    [np.all(np.abs(px[:3] - color[:3]) <= threshold)] for one pixel.  The
    threshold is kept as an exact rational; for the integer percentages 0 to
    100 and integer differences the comparison gives what the
    double-precision one gives. *)
Definition threshold (autocrop_tolerance : Z) : Q :=
  ((inject_Z autocrop_tolerance / 100) * 255)%Q.

Definition within_tolerance (color : list Z) (tol : Q) (px : pixel) : bool :=
  forallb (fun pc => Qle_bool (inject_Z (Z.abs (fst pc - snd pc))) tol)
          (combine (firstn 3 px) (firstn 3 color)).

(** [np.argwhere(~mask)]: the (row, column) pairs of the false cells. *)
Definition argwhere_not (mask : grid bool) : list (nat * nat) :=
  filter (fun rc => negb (get true mask (fst rc) (snd rc))) (coords mask).

(** The three forms of [autocrop_color]: the top-left pixel of the image,
    no autocrop, or an explicit colour. *)
Definition reference_color (img : Image) (autocrop_color : string)
  : result (option (list Z)) :=
  if String.eqb (upper autocrop_color) "AUTO"%string
  then px <- getpixel img 0 0 ;; Ok (Some px)
  else if String.eqb (upper autocrop_color) "NO"%string
  then Ok None
  else c <- hex_to_rgb autocrop_color ;; Ok (Some c).

Definition crop (img : Image) (region : list Z) (autocrop_color : string)
           (autocrop_tolerance : Z) : result Image :=
  let tol := threshold autocrop_tolerance in
  color <- reference_color img autocrop_color ;;
  img_cropped <- pil_crop img region ;;
  match color with
  | None => Ok img_cropped
  | Some c =>
      let mask := map (map (within_tolerance c tol)) (pixels img_cropped) in
      let coords := argwhere_not mask in
      match coords with
      | [] => Ok img_cropped
      | _ :: _ =>
          top <- np_min (map (fun rc => Z.of_nat (fst rc)) coords) ;;
          left <- np_min (map (fun rc => Z.of_nat (snd rc)) coords) ;;
          bottom <- np_max (map (fun rc => Z.of_nat (fst rc)) coords) ;;
          right <- np_max (map (fun rc => Z.of_nat (snd rc)) coords) ;;
          pil_crop img_cropped [left; top; (right + 1)%Z; (bottom + 1)%Z]
      end
  end.

End Crop.

(** ** Melder *)

Module Meld.

Import Region Pil.

Definition resize_and_center (img : Image) (target_size : nat * nat) : Image :=
  if (fst (size img) =? fst target_size) && (snd (size img) =? snd target_size)
  then img
  else
    let new_img := new RGBA target_size [0; 0; 0; 0]%Z in
    paste new_img img
          ((Z.of_nat (fst target_size) - Z.of_nat (fst (size img))) / 2)%Z
          ((Z.of_nat (snd target_size) - Z.of_nat (snd (size img))) / 2)%Z.

Definition combine_two (img1 img2 : Image) (method : string) : result Image :=
  if negb (String.eqb method "min"%string || String.eqb method "max"%string)
  then Raise AssertionError
  else
    let max_dims := (Nat.max (width img1) (width img2),
                     Nat.max (height img1) (height img2)) in
    let a1 := np_array (resize_and_center img1 max_dims) in
    let a2 := np_array (resize_and_center img2 max_dims) in
    combined <- (if String.eqb method "min"%string then np_minimum a1 a2
                 else np_maximum a1 a2) ;;
    fromarray (astype_uint8 combined).

(** [combine_multiple] on images already opened: a left fold, the first
    image alone when there is only one. *)
Definition combine_multiple (images : list Image) (method : string)
  : result Image :=
  match images with
  | [] => Raise AssertionError
  | first :: rest =>
      fold_left (fun acc img => combined <- acc ;; combine_two combined img method)
                rest (Ok first)
  end.

End Meld.

(** ** LayoutPlanner *)

Module Layout.

(** The arithmetic [merge] uses on its numbers (Python ints and floats),
    as an interface, so that the one definition of [merge] can be read over
    exact rationals and over double-precision floats. *)
Class Number (T : Type) : Type := {
  of_Z : Z -> T;
  add : T -> T -> T;
  sub : T -> T -> T;
  mul : T -> T -> T;
  quot : T -> T -> T;
  is_zero : T -> bool;
  ltb : T -> T -> bool
}.

#[export] Instance Number_Q : Number Q := {
  of_Z := inject_Z;
  add := Qplus;
  sub := Qminus;
  mul := Qmult;
  quot := Qdiv;
  is_zero := fun x => Qeq_bool x 0;
  ltb := fun x y => negb (Qle_bool y x)
}.

Section Merge.

Context {T : Type} {num : Number T}.

(** [a / b]: a ZeroDivisionError when the divisor is zero. *)
Definition true_div (a b : T) : result T :=
  if is_zero b then Raise ZeroDivisionError else Ok (quot a b).

(** [max(l)]: the first of the largest elements, a ValueError when empty. *)
Definition py_max (l : list T) : result T :=
  match l with
  | [] => Raise ValueError
  | x :: xs => Ok (fold_left (fun m y => if ltb m y then y else m) xs x)
  end.

(** [l[i]]: an IndexError past the end. *)
Definition index (l : list T) (i : nat) : result T :=
  match nth_error l i with
  | Some x => Ok x
  | None => Raise IndexError
  end.

Definition decimal (n d : Z) : T := quot (of_Z n) (of_Z d).

(** [PAGE_SIZES], in mm. *)
Definition PAGE_SIZES : list (string * list T) :=
  [ ("A4"%string, [of_Z 210; of_Z 297]);
    ("A5"%string, [of_Z 148; of_Z 210]);
    ("letter"%string, [decimal 2159 10; decimal 2794 10]);
    ("legal"%string, [decimal 2159 10; decimal 3556 10]) ].

(** The [--size] argument once [json.loads] has been tried on it: the list
    it decoded, or the text itself when it is not JSON ('auto', a preset
    name, or anything else). *)
Inductive SizeArg : Type :=
| SizeJson (dims : list T)
| SizeText (s : string).

Definition lower_char (a : ascii) : ascii :=
  let n := nat_of_ascii a in
  if (65 <=? n) && (n <=? 90) then ascii_of_nat (n + 32) else a.

Definition is_auto (s : SizeArg) : bool :=
  match s with
  | SizeText str =>
      String.eqb (Crop.lower_upper_map lower_char str) "auto"%string
  | SizeJson _ => false
  end.

Fixpoint lookup (k : string) (table : list (string * list T))
  : result (list T) :=
  match table with
  | [] => Raise KeyError
  | (k', v) :: rest => if String.eqb k k' then Ok v else lookup k rest
  end.

Definition page_size (s : SizeArg) : result (list T) :=
  match s with
  | SizeJson dims => Ok dims
  | SizeText str => lookup str PAGE_SIZES
  end.

(** The arguments of [merge] that the layout depends on.  [files] holds the
    pixel size (width, height) of the image each file opens to; [margin] is
    a number, as its default is; [expand] is [None] when the option is not
    given on the command line. *)
Record Args : Type := mkArgs {
  files : list (nat * nat);
  margin : T;
  size : SizeArg;
  dpi : Z;
  expand : option (list Z)
}.

(** One call of [pdf.image]: position and drawn size, in mm. *)
Record Placement : Type := mkPlacement {
  x : T;
  y : T;
  w : T;
  h : T
}.

Record Document : Type := mkDocument {
  page_dim : list T;
  scale : T;
  pages : list Placement
}.

(** The first loop of [merge]: the element-wise largest image size. *)
Definition max_img_dim (sizes : list (nat * nat)) : list nat :=
  fold_left
    (fun acc sz => map (fun xy => Nat.max (fst xy) (snd xy))
                       (combine acc [fst sz; snd sz]))
    sizes [0; 0].

Definition of_nat (n : nat) : T := of_Z (Z.of_nat n).

(** The page size and the global scale. *)
Definition page_setup (args : Args) : result (list T * T) :=
  let dims := max_img_dim (files args) in
  if is_auto (size args)
  then
    scale <- true_div (of_Z (dpi args)) (decimal 254 10) ;;
    page_dim <- mapM (fun i => q <- true_div (of_nat i) scale ;;
                               Ok (add (mul (of_Z 2) (margin args)) q)) dims ;;
    Ok (page_dim, scale)
  else
    page_dim <- page_size (size args) ;;
    let page_sans_margin :=
      map (fun d => sub d (mul (of_Z 2) (margin args))) page_dim in
    ratios <- mapM (fun ip => true_div (of_nat (fst ip)) (snd ip))
                   (combine dims page_sans_margin) ;;
    scale <- py_max ratios ;;
    Ok (page_dim, scale).

(** [i+1 in args.expand]: a TypeError when [args.expand] is [None]. *)
Definition in_expand (args : Args) (i : nat) : result bool :=
  match expand args with
  | None => Raise TypeError
  | Some l => Ok (existsb (Z.eqb (Z.of_nat i + 1)) l)
  end.

(** The body of the second loop for the image at 0-based position [i]. *)
Definition place (args : Args) (page_dim : list T) (scale : T)
           (i : nat) (img_size : nat * nat) : result Placement :=
  let sz := [fst img_size; snd img_size] in
  expanded <- in_expand args i ;;
  img_scale <- (if expanded : bool
                then ratios <- mapM (fun ip => true_div (of_nat (fst ip)) (snd ip))
                                    (combine sz page_dim) ;;
                     py_max ratios
                else Ok scale) ;;
  img_dim <- mapM (fun i_s => true_div (of_nat i_s) img_scale) sz ;;
  let img_offset :=
    map (fun ip => quot (sub (snd ip) (fst ip)) (of_Z 2))
        (combine img_dim page_dim) in
  x <- index img_offset 0 ;;
  y <- index img_offset 1 ;;
  w <- index img_dim 0 ;;
  h <- index img_dim 1 ;;
  Ok (mkPlacement x y w h).

Fixpoint place_all (args : Args) (page_dim : list T) (scale : T)
         (i : nat) (sizes : list (nat * nat)) : result (list Placement) :=
  match sizes with
  | [] => Ok []
  | sz :: rest =>
      p <- place args page_dim scale i sz ;;
      ps <- place_all args page_dim scale (S i) rest ;;
      Ok (p :: ps)
  end.

Definition merge (args : Args) : result Document :=
  setup <- page_setup args ;;
  let '(page_dim, scale) := setup in
  pages <- place_all args page_dim scale 0 (files args) ;;
  Ok (mkDocument page_dim scale pages).

End Merge.

End Layout.

(** *** Double-precision numbers

    Python's floats are IEEE 754 binary64 numbers, as the primitive floats
    are; an int becomes a float exactly as long as it is below 2^53 in
    magnitude, which pixel counts, margins and page sizes are. *)

Module Float.

Import Layout.

Definition float_of_Z (z : Z) : float :=
  match z with
  | Z0 => PrimFloat.zero
  | Zpos _ => PrimFloat.of_uint63 (Uint63.of_Z z)
  | Zneg p => PrimFloat.opp (PrimFloat.of_uint63 (Uint63.of_Z (Zpos p)))
  end.

#[export] Instance Number_float : Number float := {
  of_Z := float_of_Z;
  add := PrimFloat.add;
  sub := PrimFloat.sub;
  mul := PrimFloat.mul;
  quot := PrimFloat.div;
  is_zero := fun x => PrimFloat.eqb x PrimFloat.zero;
  ltb := PrimFloat.ltb
}.

End Float.

(** ** Concrete inputs *)

Module Examples.

Import Pil Layout.

Definition white : pixel := [255; 255; 255]%Z.
Definition black : pixel := [0; 0; 0]%Z.

(** A 2 by 2 RGB image, a 1 by 1 RGB image and a 2 by 2 RGBA image. *)
Definition rgb_2x2 : Image := mkImage RGB 2 2 [[white; black]; [black; white]].
Definition rgb_1x1 : Image := mkImage RGB 1 1 [[white]].
Definition rgba_2x2 : Image :=
  mkImage RGBA 2 2 [[[255; 0; 0; 255]; [0; 255; 0; 128]];
                    [[0; 0; 255; 0]; [9; 8; 7; 6]]]%Z.

(** A uniformly white 2 by 2 RGB image. *)
Definition blank_2x2 : Image := mkImage RGB 2 2 [[white; white]; [white; white]].

(** One 100 by 100 image on a fixed page of 30 by 300 mm with the default
    margin of 20 mm: the printable width, 30 - 2 * 20, is negative. *)
Definition narrow_page_args : Args (T := Q) :=
  mkArgs [(100, 100)] 20%Q (SizeJson [30%Q; 300%Q]) 72 (Some []).

(** Two images on A4 with the default margin; the second is expanded, and
    the expand index 7 is past the last image. *)
Definition a4_args : Args (T := Q) :=
  mkArgs [(49, 1); (20, 300)] 20%Q (SizeText "A4") 72 (Some [2; 7]%Z).

(** The same two images with the page size left to "auto" at 72 dpi. *)
Definition auto_args : Args (T := Q) :=
  mkArgs [(49, 1); (20, 300)] 20%Q (SizeText "auto") 72 (Some []).

(** A merge run without [--expand]: argparse leaves [args.expand] at None. *)
Definition no_expand_args : Args (T := Q) :=
  mkArgs [(100, 100)] 20%Q (SizeText "A4") 72 None.

(** One 49 by 1 image on A4 with the default margin, in double precision. *)
Definition a4_float_args : Args (T := float) :=
  mkArgs [(49, 1)] (Float.float_of_Z 20) (SizeText "A4") 72 (Some []).

End Examples.

(** ** Vocabulary of the properties *)

Module Spec.

Import Region Pil Crop Layout.

(** The row lengths of a grid. *)
Definition row_lengths {A : Type} (g : grid A) : list nat :=
  map (@List.length A) g.

Definition key_le {A : Type} (k : A -> Z) (a b : A) : Prop := (k a <= k b)%Z.

(** Only true cells of the mask are ever labelled. *)
Definition sound (m : mask) (lab : grid nat) : Prop :=
  forall r c, get 0 lab r c <> 0 -> cell m r c = true.

(** The invariant of the labelling scan: the label array has the shape of
    the mask, labels sit on true cells, and every label handed out so far is
    carried by a cell. *)
Definition inv (m : mask) (st : grid nat * nat) : Prop :=
  row_lengths (fst st) = row_lengths m
  /\ sound m (fst st)
  /\ forall i, 1 <= i <= snd st -> exists r c, get 0 (fst st) r c = i.

(** The cells that carry label [i], as [np.where] lists them. *)
Definition cells_of (lab : grid nat) (i : nat) : list (nat * nat) :=
  filter (fun rc => get 0 lab (fst rc) (snd rc) =? i) (coords lab).

(** The true cells of the mask that carry no label yet. *)
Definition unlabelled (m : mask) (lab : grid nat) : nat :=
  List.length
    (filter (fun rc => cell m (fst rc) (snd rc)
                       && (get 0 lab (fst rc) (snd rc) =? 0))
            (coords m)).

(** Every pixel of the image passes the tolerance test. *)
Definition uniform (c : list Z) (tol : Q) (img : Image) : Prop :=
  Forall (Forall (fun px => within_tolerance c tol px = true)) (pixels img).

(** The format of an explicit colour in the words of the specification: a
    [#] followed by exactly six hexadecimal digits. *)
Definition is_hex (a : ascii) : bool :=
  match hex_digit a with Some _ => true | None => false end.

Fixpoint all_hex (s : string) : bool :=
  match s with
  | EmptyString => true
  | String a rest => is_hex a && all_hex rest
  end.

Definition is_hash_hex6 (s : string) : bool :=
  match s with
  | String a rest =>
      Ascii.eqb a "#"%char && (String.length rest =? 6) && all_hex rest
  | EmptyString => false
  end.

Definition hex_value (a : ascii) : Z :=
  match hex_digit a with Some d => d | None => 0%Z end.

(** The three channels a string of six hexadecimal digits stands for. *)
Definition decode6 (s : string) : list Z :=
  match list_ascii_of_string s with
  | [a; b; c; d; e; f] =>
      [ (16 * hex_value a + hex_value b)%Z;
        (16 * hex_value c + hex_value d)%Z;
        (16 * hex_value e + hex_value f)%Z ]
  | _ => []
  end.

(** The padded canvas in the words of the specification: the image centred
    on a [W] by [H] canvas at offset floor((canvas - image) / 2) per axis,
    fully transparent elsewhere. *)
Definition canvas_pixel (img : Image) (W H : nat) (x y : nat) : pixel :=
  let ox := (W - width img) / 2 in
  let oy := (H - height img) / 2 in
  if (ox <=? x) && (x <? ox + width img) && (oy <=? y) && (y <? oy + height img)
  then get [] (pixels img) (y - oy) (x - ox)
  else [0; 0; 0; 0]%Z.

(** [H] rows of [W] pixels that all satisfy [P]. *)
Definition grid_of (W H : nat) (P : pixel -> Prop) (g : grid pixel) : Prop :=
  List.length g = H /\ Forall (fun row => List.length row = W /\ Forall P row) g.

Definition rgba_pixel (px : pixel) : Prop :=
  List.length px = 4 /\ Forall (fun v => (0 <= v <= 255)%Z) px.

(** The arguments of [merge] over exact rationals, and a pixel count as a
    rational. *)
Definition QArgs : Type := Args (T := Q).

Definition px (n : nat) : Q := inject_Z (Z.of_nat n).

(** The drawn size of an image fits the printable area on both axes. *)
Definition fits (p : Placement (T := Q)) (pw ph margin : Q) : Prop :=
  (w p <= pw - 2 * margin)%Q /\ (h p <= ph - 2 * margin)%Q.

(** The arguments with another value for [expand]. *)
Definition with_expand {T : Type} (args : Args (T := T)) (e : option (list Z))
  : Args (T := T) :=
  mkArgs (files args) (margin args) (size args) (dpi args) e.

End Spec.

(** ** Encoder options *)

Module Options.

(** A decoded JSON scalar; numbers are integers, and nested arrays and
    objects are left out. *)
Inductive json : Type :=
| JNull
| JBool (b : bool)
| JNum (z : Z)
| JStr (s : string).

(** A Python dict with string keys: the bindings in insertion order, one
    per key. *)
Definition dict : Type := list (string * json).

Fixpoint dict_get (k : string) (d : dict) : option json :=
  match d with
  | [] => None
  | (k', v) :: rest => if String.eqb k k' then Some v else dict_get k rest
  end.

(** [d[k] = v]: the value of an existing key is replaced in place, a new
    key goes to the end. *)
Fixpoint dict_set (k : string) (v : json) (d : dict) : dict :=
  match d with
  | [] => [(k, v)]
  | (k', v') :: rest =>
      if String.eqb k k' then (k', v) :: rest else (k', v') :: dict_set k v rest
  end.

(** [d.update(pairs)]. *)
Definition dict_update (d : dict) (pairs : list (string * json)) : dict :=
  fold_left (fun acc kv => dict_set (fst kv) (snd kv) acc) pairs d.

(** [MERGE_DEFAULT_PILLOW_PARAMS]. *)
Definition MERGE_DEFAULT_PILLOW_PARAMS : list (string * dict) :=
  [ ("png"%string, [("optimize"%string, JBool true)]);
    ("jpeg"%string, [("quality"%string, JNum 50)]) ].

(** [table.get(k, [])]. *)
Fixpoint get_or_empty (k : string) (table : list (string * dict)) : dict :=
  match table with
  | [] => []
  | (k', v) :: rest => if String.eqb k k' then v else get_or_empty k rest
  end.

(** The [--pillow] argument as [json.loads] sees it: the pairs of the
    object it decodes to, in the order of the text, or the text itself when
    it is not JSON.  JSON that is not an object is left out. *)
Inductive PillowArg : Type :=
| PillowJson (kv : list (string * json))
| PillowText (s : string).

(** [merge_pillow_options(str, format)]; text other than "auto" is where
    [json.loads] raises its JSONDecodeError, a ValueError. *)
Definition merge_pillow_options (str : PillowArg) (format : string) : result dict :=
  let vals := [("format"%string, JStr format)] in
  match str with
  | PillowText s =>
      if String.eqb (Crop.lower_upper_map Layout.lower_char s) "auto"
      then Ok (dict_update vals (get_or_empty format MERGE_DEFAULT_PILLOW_PARAMS))
      else Raise ValueError
  | PillowJson kv => Ok (dict_update vals kv)
  end.

(** The last value bound to a key in a list of pairs. *)
Fixpoint last_value (k : string) (pairs : list (string * json)) : option json :=
  match pairs with
  | [] => None
  | (k', v) :: rest =>
      match last_value k rest with
      | Some v' => Some v'
      | None => if String.eqb k k' then Some v else None
      end
  end.

End Options.

(** ** Snipping *)

Module Snip.

Import Region Pil.

(** What ends a run early: an exception of the operations modelled above,
    or an error of the file system, which Python reports as an [OSError]. *)
Inductive error : Type :=
| PyError (e : exn)
| OSError.

Inductive io (A : Type) : Type :=
| Return (a : A)
| Fail (e : error).

Arguments Return {A} a.
Arguments Fail {A} e.

Definition lift {A : Type} (r : result A) : io A :=
  match r with
  | Ok a => Return a
  | Raise e => Fail (PyError e)
  end.

(** The [--roi] argument: the rectangles [json.loads] decodes from it, or,
    when it is not JSON, the path of the mask image. *)
Inductive RoiArg : Type :=
| RoiJson (rectangles : list rect)
| RoiFile (path : string).

(** [roi_img[:, :, 3] == 0]: an IndexError when the array has no fourth
    channel. *)
Definition full_alpha (roi_img : Image) : result mask :=
  match mode roi_img with
  | RGBA => Ok (map (map (fun px => (nth 3 px 0 =? 0)%Z)) (pixels roi_img))
  | RGB => Raise IndexError
  end.

(** [f"{stem}-{ri+1}.{format}"]. *)
Definition outfile (stem : string) (ri : nat) (format : string) : string :=
  (stem ++ "-"
        ++ DecimalString.NilZero.string_of_uint (Nat.to_uint (ri + 1))
        ++ "." ++ format)%string.

Record Args : Type := mkArgs {
  files : list string;
  roi : RoiArg;
  outputdir : string;
  crop : string;
  tolerance : Z;
  format : string
}.

(** The files saved so far: name and image, in the order of the [save]
    calls. *)
Definition saved : Type := list (string * Image).

Section Run.

(** The file system as [snip] meets it: what [Image.open] gives for a
    path, whether [os.makedirs] and [Image.save] go through, and the stem
    [os.path.splitext(os.path.basename(f))[0]] of a path. *)
Variable image_open : string -> io Image.
Variable makedirs : string -> io unit.
Variable image_save : string -> string -> Image -> io unit.
Variable stem : string -> string.

Definition load_roi (roi : RoiArg) : io (list rect) :=
  match roi with
  | RoiJson rectangles => Return rectangles
  | RoiFile path =>
      match image_open path with
      | Return roi_img =>
          lift (full_alpha <- full_alpha roi_img ;;
                find_contiguous_rectangles full_alpha)
      | Fail e => Fail e
      end
  end.

(** The inner loop, from region number [ri] on.  An exception ends the run
    and leaves what was saved before it. *)
Fixpoint snip_regions (args : Args) (f : string) (img : Image)
         (regions : list rect) (ri : nat) (log : saved) : saved * io unit :=
  match regions with
  | [] => (log, Return tt)
  | r :: rest =>
      let outfile := outfile (stem f) ri (format args) in
      match Crop.crop img r (crop args) (tolerance args) with
      | Ok out =>
          match image_save (outputdir args) outfile out with
          | Return _ =>
              snip_regions args f img rest (S ri) (log ++ [(outfile, out)])
          | Fail e => (log, Fail e)
          end
      | Raise e => (log, Fail (PyError e))
      end
  end.

Fixpoint snip_files (args : Args) (regions : list rect)
         (fs : list string) (log : saved) : saved * io unit :=
  match fs with
  | [] => (log, Return tt)
  | f :: rest =>
      match image_open f with
      | Return img =>
          match snip_regions args f img regions 0 log with
          | (log', Return _) => snip_files args regions rest log'
          | (log', Fail e) => (log', Fail e)
          end
      | Fail e => (log, Fail e)
      end
  end.

Definition snip (args : Args) : saved * io unit :=
  match load_roi (roi args) with
  | Return regions =>
      match makedirs (outputdir args) with
      | Return _ => snip_files args regions (files args) []
      | Fail e => ([], Fail e)
      end
  | Fail e => ([], Fail e)
  end.

End Run.

End Snip.

(** ** Further vocabulary *)

Module Notions.

Import Region Pil Crop Layout Spec.

(** No label exceeds the number of components found so far. *)
Definition bounded (st : grid nat * nat) : Prop :=
  forall r c, get 0 (fst st) r c <= snd st.

(** A labelled cell and its true neighbours carry the same label. *)
Definition closed (m : mask) (lab : grid nat) : Prop :=
  forall r c r' c',
    get 0 lab r c <> 0 -> In (r', c') (neighbours r c) -> cell m r' c' = true ->
    get 0 lab r' c' = get 0 lab r c.

(** Two cells are connected when a path of orthogonally adjacent true cells
    leads from one to the other. *)
Inductive connected (m : mask) (a : nat * nat) : nat * nat -> Prop :=
| connected_refl :
    cell m (fst a) (snd a) = true -> connected m a a
| connected_step (b c : nat * nat) :
    connected m a b -> In c (neighbours (fst b) (snd b)) ->
    cell m (fst c) (snd c) = true -> connected m a c.

(** Each label handed out so far has a seed cell to which every cell of
    that label is connected. *)
Definition seeded (m : mask) (st : grid nat * nat) : Prop :=
  forall i, 1 <= i <= snd st ->
    exists s, forall r c, get 0 (fst st) r c = i -> connected m s (r, c).

(** The pixel at row [y], column [x] of the image exists and fails the
    tolerance test. *)
Definition foreground (c : list Z) (tol : Q) (sub : Image) (y x : nat) : Prop :=
  y < List.length (pixels sub)
  /\ x < List.length (nth y (pixels sub) [])
  /\ within_tolerance c tol (get [] (pixels sub) y x) = false.

(** The pixel rows of the image agree with its declared size. *)
Definition shaped (o : Image) : Prop :=
  List.length (pixels o) = height o
  /\ forall y, y < height o -> List.length (nth y (pixels o) []) = width o.

(** All 256 characters. *)
Definition all_ascii : list ascii := map ascii_of_nat (seq 0 256).

(** A channel value that [int(_, 16)] can give for two characters. *)
Definition channel_ok (r : result Z) : bool :=
  match r with
  | Ok v => (-15 <=? v)%Z && (v <=? 255)%Z
  | Raise _ => true
  end.

(** The drawn image lies inside the margins of the page. *)
Definition inside_margins (p : Placement (T := Q)) (pw ph margin : Q) : Prop :=
  (margin <= x p /\ x p + w p <= pw - margin
   /\ margin <= y p /\ y p + h p <= ph - margin)%Q.

End Notions.

(** ** Further inputs *)

Module Inputs.

Import Pil Layout Examples.

(** A white 3 by 3 RGB image with a black pixel in the middle, and the
    1 by 1 image of that pixel. *)
Definition framed_3x3 : Image :=
  mkImage RGB 3 3 [[white; white; white]; [white; black; white];
                   [white; white; white]].
Definition dot_1x1 : Image := mkImage RGB 1 1 [[black]].

(** Two more RGBA images, 1 by 1 and 1 wide by 3 high. *)
Definition rgba_1x1 : Image := mkImage RGBA 1 1 [[[10; 20; 30; 40]]]%Z.
Definition rgba_1x3 : Image :=
  mkImage RGBA 1 3 [[[1; 2; 3; 4]]; [[5; 6; 7; 8]]; [[9; 10; 11; 12]]]%Z.

(** A preset name in the wrong letter case. *)
Definition lowercase_a4_args : Args (T := Q) :=
  mkArgs [(100, 100)] 20%Q (SizeText "a4") 72 (Some []).

(** Automatic page size at 0 dpi. *)
Definition auto_zero_dpi_args : Args (T := Q) :=
  mkArgs [(100, 100)] 20%Q (SizeText "auto") 0 (Some []).

(** A4, 210 mm wide, with a margin of 105 mm. *)
Definition half_margin_args : Args (T := Q) :=
  mkArgs [(100, 100)] 105%Q (SizeText "A4") 72 (Some []).

(** Two images and an expand list that names neither of them. *)
Definition far_expand_args : Args (T := Q) :=
  mkArgs [(49, 1); (20, 300)] 20%Q (SizeText "A4") 72 (Some [0; 7]%Z).

(** The two automatic-size images and one expanded image on a page of 170
    by 300 mm, in double precision. *)
Definition auto_float_args : Args (T := float) :=
  mkArgs [(49, 1); (20, 300)] (Float.float_of_Z 20) (SizeText "auto") 72
         (Some []).
Definition expand_float_args : Args (T := float) :=
  mkArgs [(49, 1)] (Float.float_of_Z 20)
         (SizeJson [Float.float_of_Z 170; Float.float_of_Z 300]) 72
         (Some [1]%Z).

(** Three single cells: the scan meets the one at row 0, column 1 first,
    then the one at row 0, column 3, then the one at row 2, column 0; the
    keys [2*left + top] are 2, 6 and 2. *)
Definition reading_order : Region.mask :=
  let t := true in let f := false in
  [ [f; t; f; t];
    [f; f; f; f];
    [t; f; f; f] ].

(** A file system with one image, "scan.png", and a mask, "mask.png", in
    which every directory can be made and every save goes through. *)
Definition disk_open (path : string) : Snip.io Image :=
  if String.eqb path "scan.png" then Snip.Return framed_3x3
  else if String.eqb path "mask.png" then Snip.Return rgba_2x2
  else Snip.Fail Snip.OSError.
Definition disk_makedirs (path : string) : Snip.io unit := Snip.Return tt.
Definition disk_save (dir name : string) (img : Image) : Snip.io unit :=
  Snip.Return tt.
Definition disk_stem (path : string) : string :=
  if String.eqb path "scan.png" then "scan"%string else path.

(** Two regions cut out of "scan.png" without autocrop. *)
Definition snip_args : Snip.Args :=
  Snip.mkArgs ["scan.png"%string] (Snip.RoiJson [[0; 0; 3; 3]; [1; 1; 2; 2]]%Z)
              "out" "no" 0 "png".

End Inputs.

(** * Properties *)

Import Region Spec.


(** ** Facts about [sorted] *)

Section SortedFacts.

Variable A : Type.
Variable k : A -> Z.

Lemma insert_by_perm (x : A) (l : list A) :
  Permutation (x :: l) (insert_by k x l).
Proof.
  induction l as [| y ys IH]; simpl.
  - apply Permutation_refl.
  - destruct (k x <=? k y)%Z.
    + apply Permutation_refl.
    + eapply perm_trans; [apply perm_swap |].
      apply perm_skip, IH.
Qed.

Lemma sorted_perm (l : list A) : Permutation l (sorted k l).
Proof.
  induction l as [| x xs IH]; simpl.
  - constructor.
  - eapply perm_trans; [apply perm_skip, IH | apply insert_by_perm].
Qed.

Lemma insert_by_sorted (x : A) (l : list A) :
  StronglySorted (key_le k) l -> StronglySorted (key_le k) (insert_by k x l).
Proof.
  induction 1 as [| y ys Hs IH Hall]; simpl.
  - repeat constructor.
  - destruct (k x <=? k y)%Z eqn:E.
    + apply Z.leb_le in E.
      constructor; [constructor; assumption |].
      constructor; [exact E |].
      eapply Forall_impl; [| exact Hall].
      intros a Ha. unfold key_le in *. lia.
    + apply Z.leb_gt in E.
      constructor; [exact IH |].
      apply (Permutation_Forall (insert_by_perm x ys)).
      constructor; [unfold key_le; lia | exact Hall].
Qed.

Lemma sorted_sorted (l : list A) : StronglySorted (key_le k) (sorted k l).
Proof.
  induction l as [| x xs IH]; simpl.
  - constructor.
  - apply insert_by_sorted, IH.
Qed.

(** Stability: the elements of any one key keep their relative order. *)
Lemma insert_by_filter (v : Z) (x : A) (l : list A) :
  StronglySorted (key_le k) l ->
  filter (fun a => (k a =? v)%Z) (insert_by k x l)
  = filter (fun a => (k a =? v)%Z) (x :: l).
Proof.
  induction 1 as [| y ys Hs IH Hall]; [reflexivity |].
  cbn [insert_by].
  destruct (k x <=? k y)%Z eqn:E; [reflexivity |].
  apply Z.leb_gt in E.
  cbn [filter] in *. rewrite IH.
  destruct (k x =? v)%Z eqn:Ex, (k y =? v)%Z eqn:Ey; try reflexivity.
  apply Z.eqb_eq in Ex, Ey. lia.
Qed.

Lemma sorted_stable (v : Z) (l : list A) :
  filter (fun a => (k a =? v)%Z) (sorted k l)
  = filter (fun a => (k a =? v)%Z) l.
Proof.
  induction l as [| x xs IH]; [reflexivity |].
  cbn [sorted]. rewrite insert_by_filter by apply sorted_sorted.
  cbn [filter]. rewrite IH. reflexivity.
Qed.

End SortedFacts.


(** ** Facts about grids *)

Section GridFacts.

Variable A : Type.

Lemma set_nth_length (n : nat) (f : A -> A) (l : list A) :
  List.length (set_nth n f l) = List.length l.
Proof.
  revert n; induction l as [| x xs IH]; intros [| n]; simpl; auto.
Qed.

Lemma nth_set_nth_same (n : nat) (f : A -> A) (l : list A) (d : A) :
  n < List.length l -> nth n (set_nth n f l) d = f (nth n l d).
Proof.
  revert n; induction l as [| x xs IH]; intros [| n] H; simpl in *;
    try lia; auto.
  apply IH; lia.
Qed.

Lemma nth_set_nth_other (n n' : nat) (f : A -> A) (l : list A) (d : A) :
  n <> n' -> nth n' (set_nth n f l) d = nth n' l d.
Proof.
  revert n n'; induction l as [| x xs IH]; intros [| n] [| n'] H; simpl;
    try congruence; auto.
Qed.

End GridFacts.

Section GridFacts2.

Variable A : Type.

Lemma set_nth_rows_length (r : nat) (f : list A -> list A) (g : grid A) :
  (forall row, List.length (f row) = List.length row) ->
  row_lengths (set_nth r f g) = row_lengths g.
Proof.
  intros Hf. unfold row_lengths.
  revert r; induction g as [| x xs IH]; intros [| r]; simpl; auto.
  - now rewrite Hf.
  - now rewrite IH.
Qed.

Lemma shape_set (g : grid A) (r c : nat) (v : A) :
  row_lengths (set g r c v) = row_lengths g.
Proof.
  unfold set. apply set_nth_rows_length. intros row. apply set_nth_length.
Qed.

Lemma shape_length (g : grid A) : List.length (row_lengths g) = List.length g.
Proof. apply length_map. Qed.

Lemma shape_nth (g : grid A) (r : nat) :
  nth r (row_lengths g) 0 = List.length (nth r g []).
Proof.
  unfold row_lengths. revert r; induction g as [| x xs IH]; intros [| r]; simpl; auto.
Qed.

Lemma get_set_same (d : A) (g : grid A) (r c : nat) (v : A) :
  r < List.length g -> c < List.length (nth r g []) ->
  get d (set g r c v) r c = v.
Proof.
  intros Hr Hc. unfold get, set.
  rewrite nth_set_nth_same by exact Hr.
  now rewrite nth_set_nth_same by exact Hc.
Qed.

Lemma get_set_other (d : A) (g : grid A) (r c r' c' : nat) (v : A) :
  (r, c) <> (r', c') -> get d (set g r c v) r' c' = get d g r' c'.
Proof.
  intros H. unfold get, set.
  destruct (Nat.eq_dec r r') as [-> | Hr].
  - destruct (Nat.lt_ge_cases r' (List.length g)) as [Hlt | Hge].
    + rewrite nth_set_nth_same by exact Hlt.
      apply nth_set_nth_other. congruence.
    + rewrite (nth_overflow (set_nth _ _ _)) by (now rewrite set_nth_length).
      now rewrite (nth_overflow g) by assumption.
  - now rewrite nth_set_nth_other.
Qed.

Lemma get_in_bounds (d : A) (g : grid A) (r c : nat) :
  get d g r c <> d -> r < List.length g /\ c < List.length (nth r g []).
Proof.
  unfold get. intros H.
  destruct (Nat.lt_ge_cases c (List.length (nth r g []))) as [Hc | Hc].
  - split; [| exact Hc].
    destruct (Nat.lt_ge_cases r (List.length g)) as [Hr | Hr]; [exact Hr |].
    rewrite (nth_overflow g) in Hc by assumption. simpl in Hc. lia.
  - now rewrite nth_overflow in H.
Qed.

Lemma In_coords (g : grid A) (r c : nat) :
  In (r, c) (coords g) <-> r < List.length g /\ c < List.length (nth r g []).
Proof.
  unfold coords. rewrite in_flat_map. split.
  - intros (r' & Hr' & Hin). apply in_map_iff in Hin.
    destruct Hin as (c' & Heq & Hc'). inversion Heq; subst.
    apply in_seq in Hr', Hc'. lia.
  - intros [Hr Hc]. exists r. split; [apply in_seq; lia |].
    apply in_map_iff. exists c. split; [reflexivity | apply in_seq; lia].
Qed.

End GridFacts2.

Lemma coords_shape (A B : Type) (g1 : grid A) (g2 : grid B) :
  row_lengths g1 = row_lengths g2 -> coords g1 = coords g2.
Proof.
  intros H. unfold coords.
  rewrite <- (shape_length _ g1), <- (shape_length _ g2), H.
  apply flat_map_ext. intros r.
  now rewrite <- (shape_nth _ g1), <- (shape_nth _ g2), H.
Qed.

Lemma nth_const_map (A : Type) (l : list A) (c : nat) :
  nth c (map (fun _ => 0) l) 0 = 0.
Proof. revert c; induction l as [| x xs IH]; intros [| c]; simpl; auto. Qed.

Lemma get_init (A : Type) (g : grid A) (r c : nat) :
  get 0 (map (map (fun _ => 0)) g) r c = 0.
Proof.
  unfold get. revert r; induction g as [| x xs IH]; intros [| r]; simpl;
    try (now destruct c); auto.
  apply nth_const_map.
Qed.

(** ** The labelling keeps what it has labelled *)

Section LabelFacts.

Variable m : mask.

Lemma flood_shape (fuel : nat) (st : list (nat * nat)) (l : nat) (lab : grid nat) :
  row_lengths (flood m fuel st l lab) = row_lengths lab.
Proof.
  revert st lab; induction fuel as [| fuel IH]; intros st lab; [reflexivity |].
  destruct st as [| [r c] rest]; [reflexivity |]. simpl.
  destruct (cell m r c && (get 0 lab r c =? 0)).
  - rewrite IH. apply shape_set.
  - apply IH.
Qed.

Lemma flood_keeps (fuel : nat) (st : list (nat * nat)) (l : nat) (lab : grid nat)
      (r c : nat) :
  get 0 lab r c <> 0 -> get 0 (flood m fuel st l lab) r c = get 0 lab r c.
Proof.
  revert st lab; induction fuel as [| fuel IH]; intros st lab H; [reflexivity |].
  destruct st as [| [r0 c0] rest]; [reflexivity |]. simpl.
  destruct (cell m r0 c0 && (get 0 lab r0 c0 =? 0)) eqn:E.
  - apply andb_prop in E. destruct E as [_ E]. apply Nat.eqb_eq in E.
    assert (Hne : (r0, c0) <> (r, c)) by (intros Heq; inversion Heq; subst; lia).
    rewrite IH; rewrite get_set_other by exact Hne; auto.
  - now apply IH.
Qed.

Lemma flood_sound (fuel : nat) (st : list (nat * nat)) (l : nat) (lab : grid nat) :
  sound m lab -> sound m (flood m fuel st l lab).
Proof.
  revert st lab; induction fuel as [| fuel IH]; intros st lab H; [exact H |].
  destruct st as [| [r0 c0] rest]; [exact H |]. simpl.
  destruct (cell m r0 c0 && (get 0 lab r0 c0 =? 0)) eqn:E.
  - apply andb_prop in E. destruct E as [E _].
    apply IH. intros r c Hrc.
    destruct (Nat.eq_dec r0 r) as [-> | Hr].
    + destruct (Nat.eq_dec c0 c) as [-> | Hc]; [exact E |].
      rewrite get_set_other in Hrc by congruence. now apply H.
    + rewrite get_set_other in Hrc by congruence. now apply H.
  - now apply IH.
Qed.

Lemma cell_in_bounds (lab : grid nat) (r c : nat) :
  row_lengths lab = row_lengths m -> cell m r c = true ->
  r < List.length lab /\ c < List.length (nth r lab []).
Proof.
  intros Hs Hc.
  assert (H : get false m r c <> false) by (unfold cell in Hc; congruence).
  apply get_in_bounds in H.
  rewrite <- (shape_length _ lab), <- (shape_nth _ lab), Hs.
  now rewrite shape_length, shape_nth.
Qed.

(** A fill started on an unlabelled true cell labels that cell. *)
Lemma flood_start (fuel : nat) (rest : list (nat * nat)) (l : nat) (lab : grid nat)
      (r c : nat) :
  row_lengths lab = row_lengths m -> cell m r c = true -> get 0 lab r c = 0 -> l <> 0 ->
  get 0 (flood m (S fuel) ((r, c) :: rest) l lab) r c = l.
Proof.
  intros Hs Hc H0 Hl. simpl. rewrite Hc, H0. simpl.
  destruct (cell_in_bounds lab r c Hs Hc) as [Hr Hcol].
  rewrite flood_keeps; rewrite get_set_same by assumption; auto.
Qed.

Lemma label_step_inv (st : grid nat * nat) (rc : nat * nat) :
  inv m st -> inv m (label_step m st rc).
Proof.
  destruct st as [lab n], rc as [r c]. intros (Hs & Hsound & Hall).
  unfold label_step. simpl in *.
  destruct (cell m r c && (get 0 lab r c =? 0)) eqn:E; [| now repeat split].
  apply andb_prop in E. destruct E as [Hc H0]. apply Nat.eqb_eq in H0.
  repeat split; simpl.
  - now rewrite flood_shape.
  - now apply flood_sound.
  - intros i Hi. destruct (Nat.eq_dec i (S n)) as [-> | Hne].
    + exists r, c. unfold fill_fuel. rewrite Nat.add_1_r.
      now apply flood_start.
    + destruct (Hall i) as (r' & c' & Hrc); [lia |].
      exists r', c'. rewrite flood_keeps; lia.
Qed.

Lemma label_inv : inv m (label m).
Proof.
  unfold label.
  assert (H0 : inv m (map (map (fun _ => 0)) m, 0)).
  { repeat split; simpl.
    - unfold row_lengths. rewrite map_map. apply map_ext. intros row. apply length_map.
    - intros r c H. exfalso. apply H. apply get_init.
    - intros i Hi. lia. }
  revert H0. generalize (map (map (fun _ : bool => 0)) m, 0).
  induction (coords m) as [| rc rest IH]; intros st Hst; simpl; [exact Hst |].
  apply IH, label_step_inv, Hst.
Qed.

End LabelFacts.


(** ** The fill never runs out of fuel *)

Lemma filter_length_lt (A : Type) (f g : A -> bool) (l : list A) (a : A) :
  (forall x, g x = true -> f x = true) ->
  In a l -> f a = true -> g a = false ->
  List.length (filter g l) < List.length (filter f l).
Proof.
  intros Hsub Hin Hfa Hga.
  assert (Hle : forall l', List.length (filter g l') <= List.length (filter f l')).
  { induction l' as [| x l' IH]; simpl; [lia |].
    destruct (g x) eqn:Eg.
    - rewrite (Hsub x Eg). simpl. lia.
    - destruct (f x); simpl; lia. }
  induction l as [| x l IH]; [destruct Hin |]. simpl.
  destruct Hin as [-> | Hin].
  - rewrite Hfa, Hga. simpl. specialize (Hle l). lia.
  - specialize (IH Hin). destruct (g x) eqn:Eg.
    + rewrite (Hsub x Eg). simpl. lia.
    + destruct (f x); simpl; lia.
Qed.

Lemma unlabelled_set (m : mask) (lab : grid nat) (r c l : nat) :
  row_lengths lab = row_lengths m -> l <> 0 ->
  cell m r c = true -> get 0 lab r c = 0 ->
  unlabelled m (set lab r c l) < unlabelled m lab.
Proof.
  intros Hs Hl Hc H0. unfold unlabelled.
  destruct (cell_in_bounds m lab r c Hs Hc) as [Hr Hcol].
  apply filter_length_lt with (a := (r, c)).
  - intros [r' c'] H. simpl in *. apply andb_prop in H. destruct H as [H1 H2].
    rewrite H1. simpl.
    destruct (Nat.eq_dec r r') as [-> | Hne];
      [destruct (Nat.eq_dec c c') as [-> | Hne] |].
    + rewrite get_set_same in H2 by assumption.
      apply Nat.eqb_eq in H2. contradiction.
    + rewrite get_set_other in H2 by congruence. exact H2.
    + rewrite get_set_other in H2 by congruence. exact H2.
  - apply In_coords. assert (H : get false m r c <> false)
      by (unfold cell in Hc; congruence).
    now apply get_in_bounds in H.
  - simpl. now rewrite Hc, H0.
  - simpl. rewrite get_set_same by assumption.
    destruct l; [congruence |]. now rewrite andb_false_r.
Qed.

Lemma flood_nil (m : mask) (fuel l : nat) (lab : grid nat) :
  flood m fuel [] l lab = lab.
Proof. now destruct fuel. Qed.

Lemma neighbours_length (r c : nat) : List.length (neighbours r c) <= 4.
Proof.
  unfold neighbours. destruct (0 <? r), (0 <? c); simpl; lia.
Qed.

(** With [4 * unlabelled + stack] pops available the fill ends on an empty
    stack: more fuel gives the same labelling. *)
Lemma flood_fuel_enough (m : mask) (l : nat) (fuel : nat) :
  l <> 0 ->
  forall (st : list (nat * nat)) (lab : grid nat) (k : nat),
    row_lengths lab = row_lengths m ->
    4 * unlabelled m lab + List.length st <= fuel ->
    flood m (fuel + k) st l lab = flood m fuel st l lab.
Proof.
  intros Hl. induction fuel as [| fuel IH]; intros st lab k Hs Hfuel.
  - destruct st; [| simpl in Hfuel; lia]. now rewrite !flood_nil.
  - destruct st as [| [r c] rest]; [reflexivity |].
    cbn [Nat.add flood].
    destruct (cell m r c && (get 0 lab r c =? 0)) eqn:E.
    + apply andb_prop in E. destruct E as [Hc H0]. apply Nat.eqb_eq in H0.
      apply IH; [now rewrite shape_set |].
      pose proof (unlabelled_set m lab r c l Hs Hl Hc H0).
      pose proof (neighbours_length r c).
      rewrite length_app. simpl in Hfuel. lia.
    + apply IH; [exact Hs |]. simpl in Hfuel. lia.
Qed.

(** The fuel [label] gives each fill is enough. *)
Lemma fill_fuel_enough (m : mask) (lab : grid nat) (r c n k : nat) :
  row_lengths lab = row_lengths m ->
  flood m (fill_fuel m + k) [(r, c)] (S n) lab
  = flood m (fill_fuel m) [(r, c)] (S n) lab.
Proof.
  intros Hs. apply flood_fuel_enough; [discriminate | exact Hs |].
  unfold fill_fuel, unlabelled. simpl.
  pose proof (filter_length_le
                (fun rc => cell m (fst rc) (snd rc)
                           && (get 0 lab (fst rc) (snd rc) =? 0))
                (coords m)).
  lia.
Qed.


Lemma mapM_total (A B : Type) (f : A -> result B) (l : list A) :
  (forall x, In x l -> exists y, f x = Ok y) -> exists ys, mapM f l = Ok ys.
Proof.
  induction l as [| x xs IH]; intros H; simpl.
  - now exists [].
  - destruct (H x (or_introl eq_refl)) as [y ->].
    destruct IH as [ys ->]; [intros z Hz; apply H; now right |].
    now exists (y :: ys).
Qed.

Lemma mapM_In (A B : Type) (f : A -> result B) (l : list A) (ys : list B) (y : B) :
  mapM f l = Ok ys -> In y ys -> exists x, In x l /\ f x = Ok y.
Proof.
  revert ys; induction l as [| x xs IH]; intros ys H Hy; simpl in H.
  - inversion H; subst. destruct Hy.
  - destruct (f x) as [y0 |] eqn:Ex; [| discriminate].
    destruct (mapM f xs) as [ys0 |] eqn:Exs; [| discriminate].
    inversion H; subst. destruct Hy as [-> | Hy].
    + exists x. split; [now left | exact Ex].
    + destruct (IH ys0 eq_refl Hy) as (x' & Hin & Hx').
      exists x'. split; [now right | exact Hx'].
Qed.

Lemma fold_min_In (xs : list Z) (x : Z) : In (fold_left Z.min xs x) (x :: xs).
Proof.
  revert x; induction xs as [| y ys IH]; intros x; simpl; [now left |].
  destruct (IH (Z.min x y)) as [H | H]; [| right; right; exact H].
  rewrite <- H.
  destruct (Z.min_spec x y) as [[_ E] | [_ E]]; rewrite E; auto.
Qed.

Lemma fold_max_In (xs : list Z) (x : Z) : In (fold_left Z.max xs x) (x :: xs).
Proof.
  revert x; induction xs as [| y ys IH]; intros x; simpl; [now left |].
  destruct (IH (Z.max x y)) as [H | H]; [| right; right; exact H].
  rewrite <- H.
  destruct (Z.max_spec x y) as [[_ E] | [_ E]]; rewrite E; auto.
Qed.

Lemma fold_min_le (xs : list Z) :
  forall x y, In y (x :: xs) -> (fold_left Z.min xs x <= y)%Z.
Proof.
  induction xs as [| z zs IH]; intros x y H; simpl.
  - destruct H as [-> | []]. lia.
  - destruct H as [-> | [-> | H]].
    + specialize (IH (Z.min y z) (Z.min y z) (or_introl eq_refl)). lia.
    + specialize (IH (Z.min x y) (Z.min x y) (or_introl eq_refl)). lia.
    + apply IH. now right.
Qed.

Lemma fold_max_ge (xs : list Z) :
  forall x y, In y (x :: xs) -> (y <= fold_left Z.max xs x)%Z.
Proof.
  induction xs as [| z zs IH]; intros x y H; simpl.
  - destruct H as [-> | []]. lia.
  - destruct H as [-> | [-> | H]].
    + specialize (IH (Z.max y z) (Z.max y z) (or_introl eq_refl)). lia.
    + specialize (IH (Z.max x y) (Z.max x y) (or_introl eq_refl)). lia.
    + apply IH. now right.
Qed.

Lemma np_min_spec (l : list Z) :
  l <> [] ->
  exists v, np_min l = Ok v /\ In v l /\ forall y, In y l -> (v <= y)%Z.
Proof.
  destruct l as [| x xs]; [congruence |]. intros _.
  exists (fold_left Z.min xs x). split; [reflexivity |].
  split; [apply fold_min_In | apply fold_min_le].
Qed.

Lemma np_max_spec (l : list Z) :
  l <> [] ->
  exists v, np_max l = Ok v /\ In v l /\ forall y, In y l -> (y <= v)%Z.
Proof.
  destruct l as [| x xs]; [congruence |]. intros _.
  exists (fold_left Z.max xs x). split; [reflexivity |].
  split; [apply fold_max_In | apply fold_max_ge].
Qed.

Lemma In_cells_of (lab : grid nat) (i r c : nat) :
  i <> 0 -> (In (r, c) (cells_of lab i) <-> get 0 lab r c = i).
Proof.
  intros Hi. unfold cells_of. rewrite filter_In. simpl. rewrite Nat.eqb_eq.
  split; [tauto |]. intros H. split; [| exact H].
  apply In_coords. apply (get_in_bounds nat 0). lia.
Qed.

(** What the loop body computes for a label that occurs in the array: the
    smallest and the largest column and row of its cells, each attained by a
    cell of that label. *)
Lemma rectangle_of_spec (lab : grid nat) (i : nat) :
  i <> 0 -> (exists r c, get 0 lab r c = i) ->
  exists cmin rmin cmax rmax,
    rectangle_of lab i = Ok [cmin; rmin; cmax; rmax]
    /\ (exists r, get 0 lab r (Z.to_nat cmin) = i /\ (0 <= cmin)%Z)
    /\ (exists c, get 0 lab (Z.to_nat rmin) c = i /\ (0 <= rmin)%Z)
    /\ (exists r, get 0 lab r (Z.to_nat cmax) = i /\ (0 <= cmax)%Z)
    /\ (exists c, get 0 lab (Z.to_nat rmax) c = i /\ (0 <= rmax)%Z)
    /\ (forall r c, get 0 lab r c = i ->
          (cmin <= Z.of_nat c <= cmax)%Z /\ (rmin <= Z.of_nat r <= rmax)%Z).
Proof.
  intros Hi (r0 & c0 & H0).
  apply (In_cells_of lab i r0 c0 Hi) in H0.
  unfold rectangle_of, np_where_eq. fold (cells_of lab i).
  set (rows := map (fun rc => Z.of_nat (fst rc)) (cells_of lab i)).
  set (cols := map (fun rc => Z.of_nat (snd rc)) (cells_of lab i)).
  assert (Hrows : forall z, In z rows <->
                  exists r c, get 0 lab r c = i /\ z = Z.of_nat r).
  { intros z. unfold rows. rewrite in_map_iff. split.
    - intros ([r c] & <- & Hrc). apply In_cells_of in Hrc; eauto.
    - intros (r & c & Hrc & ->). exists (r, c). split; [reflexivity |].
      now apply In_cells_of. }
  assert (Hcols : forall z, In z cols <->
                  exists r c, get 0 lab r c = i /\ z = Z.of_nat c).
  { intros z. unfold cols. rewrite in_map_iff. split.
    - intros ([r c] & <- & Hrc). apply In_cells_of in Hrc; eauto.
    - intros (r & c & Hrc & ->). exists (r, c). split; [reflexivity |].
      now apply In_cells_of. }
  assert (Hr0 : rows <> []).
  { intros E. apply (in_map (fun rc => Z.of_nat (fst rc))) in H0.
    fold rows in H0. rewrite E in H0. destruct H0. }
  assert (Hc0 : cols <> []).
  { intros E. apply (in_map (fun rc => Z.of_nat (snd rc))) in H0.
    fold cols in H0. rewrite E in H0. destruct H0. }
  destruct (np_min_spec cols Hc0) as (cmin & Ecmin & Icmin & Lcmin).
  destruct (np_min_spec rows Hr0) as (rmin & Ermin & Irmin & Lrmin).
  destruct (np_max_spec cols Hc0) as (cmax & Ecmax & Icmax & Lcmax).
  destruct (np_max_spec rows Hr0) as (rmax & Ermax & Irmax & Lrmax).
  exists cmin, rmin, cmax, rmax.
  rewrite Ecmin, Ermin, Ecmax, Ermax. simpl.
  split; [reflexivity |].
  apply Hcols in Icmin, Icmax. apply Hrows in Irmin, Irmax.
  destruct Icmin as (r1 & c1 & G1 & ->), Irmin as (r2 & c2 & G2 & ->),
           Icmax as (r3 & c3 & G3 & ->), Irmax as (r4 & c4 & G4 & ->).
  rewrite !Nat2Z.id.
  repeat split; eauto using Nat2Z.is_nonneg.
  - apply Lcmin, Hcols; eauto.
  - apply Lcmax, Hcols; eauto.
  - apply Lrmin, Hrows; eauto.
  - apply Lrmax, Hrows; eauto.
Qed.

(** The loop never raises: every label up to [num_features] is carried by a cell. *)
Lemma discovered_total (m : mask) : exists found, discovered m = Ok found.
Proof.
  unfold discovered. pose proof (label_inv m) as Hinv.
  destruct (label m) as [lab n]. destruct Hinv as (_ & _ & Hall). simpl in Hall.
  apply mapM_total. intros i Hi. apply in_seq in Hi.
  destruct (rectangle_of_spec lab i) as (a & b & c & d & H & _);
    [lia | apply Hall; lia |]. eauto.
Qed.


Lemma find_contiguous_rectangles_unfold (m : mask) (out : list rect) :
  find_contiguous_rectangles m = Ok out <->
  exists found, discovered m = Ok found /\ out = sorted key found.
Proof.
  unfold find_contiguous_rectangles. split.
  - destruct (discovered m) as [found |]; simpl; [| discriminate].
    intros H. inversion H. now exists found.
  - intros (found & -> & ->). reflexivity.
Qed.

(** Every rectangle the function returns is [left, top, right, bottom] with
    [right] the column of a true cell and [bottom] the row of a true cell:
    the upper bounds are the largest member column and row themselves. *)
Lemma rectangles_upper_bounds_are_members (m : mask) (out : list rect) (x : rect) :
  find_contiguous_rectangles m = Ok out -> In x out ->
  exists l t r b,
    x = [l; t; r; b]
    /\ (0 <= l <= r)%Z /\ (0 <= t <= b)%Z
    /\ (exists row, cell m row (Z.to_nat r) = true)
    /\ (exists col, cell m (Z.to_nat b) col = true).
Proof.
  intros Hout Hx. apply find_contiguous_rectangles_unfold in Hout.
  destruct Hout as (found & Hfound & ->).
  apply (Permutation_in _ (Permutation_sym (sorted_perm _ key found))) in Hx.
  unfold discovered in Hfound. pose proof (label_inv m) as Hinv.
  destruct (label m) as [lab n]. destruct Hinv as (_ & Hsound & Hall).
  simpl in Hsound, Hall.
  destruct (mapM_In _ _ _ _ _ _ Hfound Hx) as (i & Hi & Hrect).
  apply in_seq in Hi.
  destruct (rectangle_of_spec lab i) as (l & t & r & b & E & Hl & Ht & Hr & Hb & Hbox);
    [lia | apply Hall; lia |].
  rewrite E in Hrect. inversion Hrect; subst x.
  exists l, t, r, b. split; [reflexivity |].
  destruct Hl as (r1 & G1 & P1), Ht as (c2 & G2 & P2),
           Hr as (r3 & G3 & P3), Hb as (c4 & G4 & P4).
  destruct (Hbox _ _ G3) as [B3 _]. destruct (Hbox _ _ G4) as [_ B4].
  rewrite Z2Nat.id in B3, B4 by assumption.
  repeat split; try lia.
  - exists r3. apply Hsound. lia.
  - exists c4. apply Hsound. lia.
Qed.

(** C1 (as the code behaves): on the mask of the end-to-end scenario the
    function returns [[0,0,1,1],[5,5,6,6]], upper bounds inclusive, where the
    specification expects [[0,0,2,2],[5,5,7,7]]; a single true cell at row 1,
    column 2 gives [[2,1,2,1]], so right = left and bottom = top. *)
Theorem find_contiguous_rectangles_inclusive_bounds :
  find_contiguous_rectangles two_blocks
  = Ok [[0; 0; 1; 1]; [5; 5; 6; 6]]%Z
  /\ find_contiguous_rectangles two_blocks
     <> Ok [[0; 0; 2; 2]; [5; 5; 7; 7]]%Z
  /\ find_contiguous_rectangles one_cell = Ok [[2; 1; 2; 1]]%Z.
Proof.
  repeat split; try reflexivity.
  vm_compute. discriminate.
Qed.

(** C2: for every mask the function returns a list of four-entry
    rectangles [left, top, right, bottom] that is sorted by ascending
    [2*left + top], is a rearrangement of the rectangles in discovery order,
    and keeps the rectangles of any one value of [2*left + top] in their
    discovery order. *)
Theorem find_contiguous_rectangles_sorted_stable (m : mask) :
  exists found out,
    discovered m = Ok found
    /\ find_contiguous_rectangles m = Ok out
    /\ Forall (fun x => exists left top right bottom,
                   x = [left; top; right; bottom]) out
    /\ StronglySorted
         (fun a b => (2 * nth 0 a 0 + nth 1 a 0 <= 2 * nth 0 b 0 + nth 1 b 0)%Z)
         out
    /\ Permutation found out
    /\ forall v, filter (fun x => (2 * nth 0 x 0 + nth 1 x 0 =? v)%Z) out
                 = filter (fun x => (2 * nth 0 x 0 + nth 1 x 0 =? v)%Z) found.
Proof.
  destruct (discovered_total m) as [found Hfound].
  assert (Hout : find_contiguous_rectangles m = Ok (sorted key found))
    by (apply find_contiguous_rectangles_unfold; eauto).
  exists found, (sorted key found).
  split; [exact Hfound |]. split; [exact Hout |].
  split.
  { apply Forall_forall. intros x Hx.
    destruct (rectangles_upper_bounds_are_members m _ x Hout Hx)
      as (x0 & y0 & x1 & y1 & E & _).
    now exists x0, y0, x1, y1. }
  split; [exact (sorted_sorted _ key found) |].
  split; [apply sorted_perm |].
  intros v. exact (sorted_stable _ key v found).
Qed.

(** Sorting moves the third rectangle found in front of the second, and
    leaves the first in front of the third, which has the same key. *)
Lemma find_contiguous_rectangles_sorted_stable_witness :
  discovered Inputs.reading_order
  = Ok [[1; 0; 1; 0]; [3; 0; 3; 0]; [0; 2; 0; 2]]%Z
  /\ find_contiguous_rectangles Inputs.reading_order
     = Ok [[1; 0; 1; 0]; [0; 2; 0; 2]; [3; 0; 3; 0]]%Z.
Proof.
  destruct (find_contiguous_rectangles_sorted_stable Inputs.reading_order)
    as (found & out & Hf & Ho & _ & Hs & _ & Hst).
  assert (Ef : found = [[1; 0; 1; 0]; [3; 0; 3; 0]; [0; 2; 0; 2]]%Z).
  { assert (E : discovered Inputs.reading_order
                = Ok [[1; 0; 1; 0]; [3; 0; 3; 0]; [0; 2; 0; 2]]%Z)
      by (vm_compute; reflexivity).
    rewrite E in Hf. now injection Hf. }
  subst found. split; [exact Hf |]. rewrite Ho. f_equal.
  assert (Eo : find_contiguous_rectangles Inputs.reading_order
               = Ok [[1; 0; 1; 0]; [0; 2; 0; 2]; [3; 0; 3; 0]]%Z)
    by (vm_compute; reflexivity).
  rewrite Eo in Ho. now injection Ho.
Defined.



(** ** ToleranceCropper *)

Import Pil Crop.

Lemma get_all_true (g : grid bool) (r c : nat) :
  Forall (Forall (fun b => b = true)) g -> get true g r c = true.
Proof.
  intros H. unfold get.
  destruct (Nat.lt_ge_cases r (List.length g)) as [Hr | Hr].
  - assert (Hrow : Forall (fun b => b = true) (nth r g [])).
    { rewrite Forall_forall in H. apply H. now apply nth_In. }
    destruct (Nat.lt_ge_cases c (List.length (nth r g []))) as [Hc | Hc].
    + rewrite Forall_forall in Hrow. apply Hrow. now apply nth_In.
    + now apply nth_overflow.
  - rewrite (nth_overflow g) by assumption. now destruct c.
Qed.

Lemma argwhere_not_all_true (g : grid bool) :
  Forall (Forall (fun b => b = true)) g -> argwhere_not g = [].
Proof.
  intros H. unfold argwhere_not.
  induction (coords g) as [| rc rest IH]; [reflexivity |].
  simpl. now rewrite get_all_true.
Qed.

Lemma uniform_mask (c : list Z) (tol : Q) (img : Image) :
  uniform c tol img ->
  argwhere_not (map (map (within_tolerance c tol)) (pixels img)) = [].
Proof.
  intros H. apply argwhere_not_all_true.
  unfold uniform in H. rewrite Forall_forall in *.
  intros row' Hrow'. apply in_map_iff in Hrow'. destruct Hrow' as (row & <- & Hrow).
  specialize (H row Hrow). rewrite Forall_forall in *.
  intros b Hb. apply in_map_iff in Hb. destruct Hb as (px & <- & Hpx). auto.
Qed.

(** Autocrop with nothing but background leaves the sub-grid as it is. *)
Lemma crop_all_background
      (img : Image) (region : list Z) (autocrop_color : string)
      (autocrop_tolerance : Z) (c : list Z) (sub : Image) :
  reference_color img autocrop_color = Ok (Some c) ->
  pil_crop img region = Ok sub ->
  uniform c (threshold autocrop_tolerance) sub ->
  crop img region autocrop_color autocrop_tolerance = Ok sub.
Proof.
  intros Hc Hsub Hu. unfold crop. rewrite Hc, Hsub. simpl.
  now rewrite (uniform_mask _ _ _ Hu).
Qed.

(** C3: when autocrop is on (the colour is the top-left pixel or an
    explicit one) and every pixel of the sub-grid cut out by [region] is
    within tolerance of the reference colour, [crop] returns that sub-grid
    itself, not an empty image. *)
Theorem crop_uniform_returns_input
        (img : Image) (region : list Z) (autocrop_color : string)
        (autocrop_tolerance : Z) (c : list Z) (sub : Image) :
  reference_color img autocrop_color = Ok (Some c) ->
  pil_crop img region = Ok sub ->
  uniform c (threshold autocrop_tolerance) sub ->
  crop img region autocrop_color autocrop_tolerance = Ok sub.
Proof. exact (crop_all_background img region autocrop_color autocrop_tolerance c sub). Qed.

Lemma crop_uniform_returns_input_witness :
  crop Examples.blank_2x2 [0; 0; 2; 2]%Z "#fffffe" 1 = Ok Examples.blank_2x2.
Proof.
  apply (crop_uniform_returns_input Examples.blank_2x2 [0; 0; 2; 2]%Z "#fffffe" 1
           [255; 255; 254]%Z Examples.blank_2x2).
  - reflexivity.
  - reflexivity.
  - repeat constructor.
Defined.

(** The sub-grids Pillow cuts out of a well-formed image hold 8-bit samples. *)
Lemma forallb_repeat (A : Type) (f : A -> bool) (a : A) (n : nat) :
  f a = true -> forallb f (repeat a n) = true.
Proof. intros H. induction n; simpl; [reflexivity | now rewrite H]. Qed.

Lemma zero_pixel_samples (md : Mode) : forallb sample_ok (zero_pixel md) = true.
Proof. now apply forallb_repeat. Qed.

Lemma well_formed_get (img : Image) (r c : nat) :
  well_formed img = true ->
  forallb sample_ok (get (zero_pixel (mode img)) (pixels img) r c) = true.
Proof.
  unfold well_formed. intros H. apply andb_prop in H. destruct H as [_ H].
  rewrite forallb_forall in H. unfold get.
  destruct (Nat.lt_ge_cases r (List.length (pixels img))) as [Hr | Hr].
  - specialize (H _ (nth_In _ [] Hr)). apply andb_prop in H. destruct H as [_ H].
    rewrite forallb_forall in H.
    destruct (Nat.lt_ge_cases c (List.length (nth r (pixels img) []))) as [Hc | Hc].
    + specialize (H _ (nth_In _ (zero_pixel (mode img)) Hc)).
      unfold pixel_ok in H. apply andb_prop in H. tauto.
    + rewrite nth_overflow by assumption. apply zero_pixel_samples.
  - rewrite (nth_overflow (pixels img)) by assumption.
    destruct c; apply zero_pixel_samples.
Qed.

Lemma pixel_at_samples (img : Image) (x y : Z) :
  well_formed img = true -> forallb sample_ok (pixel_at img x y) = true.
Proof.
  intros H. unfold pixel_at.
  destruct (_ && _); [now apply well_formed_get | apply zero_pixel_samples].
Qed.

Lemma pil_crop_samples (img : Image) (box : list Z) (sub : Image) :
  well_formed img = true -> pil_crop img box = Ok sub ->
  Forall (Forall (fun px => forallb sample_ok px = true)) (pixels sub).
Proof.
  intros Hwf H. unfold pil_crop in H.
  destruct box as [| x0 [| y0 [| x1 [| y1 [| ? ?]]]]]; try discriminate.
  destruct (_ || _); [discriminate |]. inversion H; subst; clear H. simpl.
  rewrite Forall_forall. intros row Hrow.
  apply in_map_iff in Hrow. destruct Hrow as (y & <- & _).
  rewrite Forall_forall. intros px Hpx.
  apply in_map_iff in Hpx. destruct Hpx as (x & <- & _).
  now apply pixel_at_samples.
Qed.

Lemma In_firstn (A : Type) (n : nat) (l : list A) (a : A) :
  In a (firstn n l) -> In a l.
Proof.
  revert l; induction n as [| n IH]; intros [| b l] H; simpl in *; try tauto.
  destruct H; auto.
Qed.

(** At 100%% the threshold is 255, which no difference of two 8-bit samples
    exceeds. *)
Lemma within_tolerance_100 (c : list Z) (px : pixel) :
  forallb sample_ok c = true -> forallb sample_ok px = true ->
  within_tolerance c (threshold 100) px = true.
Proof.
  intros Hc Hpx. unfold within_tolerance. apply forallb_forall.
  intros [p q] Hin. simpl.
  rewrite forallb_forall in Hc, Hpx.
  pose proof (Hpx p (In_firstn _ _ _ _ (in_combine_l _ _ _ _ Hin))) as Hp.
  pose proof (Hc q (In_firstn _ _ _ _ (in_combine_r _ _ _ _ Hin))) as Hq.
  unfold sample_ok in Hp, Hq.
  apply andb_prop in Hp, Hq. destruct Hp as [Hp1 Hp2], Hq as [Hq1 Hq2].
  apply Z.leb_le in Hp1, Hp2, Hq1, Hq2.
  unfold Qle_bool, threshold. simpl. apply Z.leb_le. lia.
Qed.

(** C4: with a tolerance of 100%% and a reference colour of 8-bit samples,
    [crop] on a well-formed image returns the sub-grid cut out by [region]. *)
Theorem crop_full_tolerance_returns_input
        (img : Image) (region : list Z) (autocrop_color : string)
        (c : list Z) (sub : Image) :
  well_formed img = true ->
  reference_color img autocrop_color = Ok (Some c) ->
  forallb sample_ok c = true ->
  pil_crop img region = Ok sub ->
  crop img region autocrop_color 100 = Ok sub.
Proof.
  intros Hwf Hc Hrange Hsub.
  apply (crop_all_background _ _ _ _ c sub Hc Hsub).
  unfold uniform.
  eapply Forall_impl; [| exact (pil_crop_samples _ _ _ Hwf Hsub)].
  intros row Hrow. eapply Forall_impl; [| exact Hrow].
  intros px Hpx. now apply within_tolerance_100.
Qed.

Lemma crop_full_tolerance_returns_input_witness :
  crop Examples.rgb_2x2 [0; 0; 2; 2]%Z "auto" 100 = Ok Examples.rgb_2x2.
Proof.
  apply (crop_full_tolerance_returns_input Examples.rgb_2x2 [0; 0; 2; 2]%Z "auto"
           [255; 255; 255]%Z Examples.rgb_2x2); reflexivity.
Defined.

(** *** Colour parsing *)



Lemma hex_char_plain (a : ascii) :
  is_hex a = true ->
  is_space a = false
  /\ Ascii.eqb a "-"%char = false /\ Ascii.eqb a "+"%char = false
  /\ Ascii.eqb a "_"%char = false
  /\ Ascii.eqb a "x"%char = false /\ Ascii.eqb a "X"%char = false
  /\ (0 <= hex_value a <= 15)%Z.
Proof.
  intros H.
  destruct a as [[] [] [] [] [] [] [] []]; vm_compute in H; try discriminate H;
    vm_compute; intuition discriminate.
Qed.

Lemma unsigned16_pair (a b : ascii) :
  is_hex a = true -> is_hex b = true ->
  unsigned16 [a; b] = Some (16 * hex_value a + hex_value b)%Z.
Proof.
  intros Ha Hb.
  destruct (hex_char_plain b Hb) as (_ & _ & _ & Hu & Hx & HX & _).
  unfold is_hex, hex_value in *.
  destruct (hex_digit b) as [y |] eqn:Eb; [| discriminate].
  destruct a as [[] [] [] [] [] [] [] []]; vm_compute in Ha; try discriminate Ha;
    unfold unsigned16; cbn -[Z.mul Z.add hex_digit];
    rewrite ?Hx, ?HX, ?Hu, ?Eb; cbn -[Z.mul Z.add hex_digit];
    rewrite ?Hu, ?Eb; reflexivity.
Qed.

Lemma int16_pair (a b : ascii) :
  is_hex a = true -> is_hex b = true ->
  int16 (String a (String b EmptyString))
  = Ok (16 * hex_value a + hex_value b)%Z.
Proof.
  intros Ha Hb.
  destruct (hex_char_plain a Ha) as (Sa & Ma & Pa & _).
  destruct (hex_char_plain b Hb) as (Sb & _).
  unfold int16, strip. cbn [list_ascii_of_string drop_spaces].
  rewrite Sa. cbn [rev app drop_spaces]. rewrite Sb. cbn [rev app].
  rewrite Ma, Pa. rewrite (unsigned16_pair a b Ha Hb).
  f_equal. lia.
Qed.

Lemma length_list_ascii (s : string) :
  List.length (list_ascii_of_string s) = String.length s.
Proof. induction s as [| a s IH]; simpl; auto. Qed.

Lemma all_hex_forall (s : string) :
  all_hex s = true -> Forall (fun a => is_hex a = true) (list_ascii_of_string s).
Proof.
  induction s as [| a s IH]; simpl; intros H; constructor;
    apply andb_prop in H; tauto.
Qed.

(** What [hex_to_rgb] does once the leading [#] characters are gone. *)
Lemma hex_to_rgb_stripped (s : string) :
  (String.length (lstrip "#"%char s) =? 6) = true ->
  all_hex (lstrip "#"%char s) = true ->
  hex_to_rgb s = Ok (decode6 (lstrip "#"%char s))
  /\ List.length (decode6 (lstrip "#"%char s)) = 3
  /\ forallb sample_ok (decode6 (lstrip "#"%char s)) = true.
Proof.
  intros Hlen Hhex. unfold hex_to_rgb. rewrite Hlen. cbn [negb].
  apply Nat.eqb_eq in Hlen. apply all_hex_forall in Hhex.
  unfold decode6.
  destruct (lstrip "#"%char s) as [| a [| b [| c [| d [| e [| f [| g h]]]]]]];
    try discriminate Hlen.
  cbn [list_ascii_of_string] in *.
  repeat match goal with
         | H : Forall _ (_ :: _) |- _ => inversion H; subst; clear H
         end.
  cbn [mapM substring].
  rewrite !int16_pair by assumption.
  split; [reflexivity |]. split; [reflexivity |].
  repeat match goal with
         | H : is_hex ?a = true |- _ =>
             apply hex_char_plain in H;
             destruct H as (_ & _ & _ & _ & _ & _ & H)
         end.
  unfold sample_ok. cbn [forallb].
  repeat (apply andb_true_intro; split); try reflexivity; apply Z.leb_le; lia.
Qed.

Lemma hex_to_rgb_wrong_length (s : string) :
  (String.length (lstrip "#"%char s) =? 6) = false ->
  hex_to_rgb s = Raise ValueError.
Proof. intros H. unfold hex_to_rgb. now rewrite H. Qed.

(** What the code does with any string: [hex_to_rgb] drops every leading
    [#]; when the rest is six hexadecimal digits it returns the three decoded
    channels, each between 0 and 255; when the rest has any other length it
    raises ValueError. *)
Lemma hex_to_rgb_after_prefix (s : string) :
  ((String.length (lstrip "#"%char s) =? 6) = false ->
   hex_to_rgb s = Raise ValueError)
  /\ ((String.length (lstrip "#"%char s) =? 6) = true ->
      all_hex (lstrip "#"%char s) = true ->
      hex_to_rgb s = Ok (decode6 (lstrip "#"%char s))
      /\ List.length (decode6 (lstrip "#"%char s)) = 3
      /\ forallb sample_ok (decode6 (lstrip "#"%char s)) = true).
Proof.
  split; [apply hex_to_rgb_wrong_length | apply hex_to_rgb_stripped].
Qed.

Lemma hex_to_rgb_drops_prefix (s : string) :
  hex_to_rgb (String "#" s) = hex_to_rgb s.
Proof. reflexivity. Qed.

(** C5: the code does not hold to the format [#] and six hexadecimal
    digits.  [lstrip] drops every leading [#], none included, so the bare
    "ff0000" and the doubled "##ff0000" are accepted as red; in general a
    [#] in front never changes the result; and [int] lets a sign through, so
    "#-f00ff" is accepted with a negative channel. *)
Theorem hex_to_rgb_prefix_not_required :
  is_hash_hex6 "ff0000" = false
  /\ hex_to_rgb "ff0000" = Ok [255; 0; 0]%Z
  /\ is_hash_hex6 "##ff0000" = false
  /\ hex_to_rgb "##ff0000" = Ok [255; 0; 0]%Z
  /\ is_hash_hex6 "#-f00ff" = false
  /\ hex_to_rgb "#-f00ff" = Ok [-15; 0; 255]%Z
  /\ forall s, hex_to_rgb (String "#" s) = hex_to_rgb s.
Proof.
  repeat (split; [reflexivity |]). exact hex_to_rgb_drops_prefix.
Qed.

(** ** Melder *)

Import Meld.

Lemma zip_with_diag (A B : Type) (f : A -> A -> B) (l : list A) :
  zip_with f l l = map (fun a => f a a) l.
Proof. induction l as [| a l IH]; simpl; [reflexivity | now rewrite IH]. Qed.

Lemma map_fixed (A : Type) (f : A -> A) (l : list A) :
  Forall (fun a => f a = a) l -> map f l = l.
Proof. induction 1 as [| a l Ha _ IH]; simpl; [reflexivity | now rewrite Ha, IH]. Qed.

Lemma shape_eqb_refl (s : nat * nat * nat) : shape_eqb s s = true.
Proof. destruct s as [[h w] c]. simpl. now rewrite !Nat.eqb_refl. Qed.

Lemma resize_and_center_same (img : Image) :
  resize_and_center img (width img, height img) = img.
Proof. unfold resize_and_center. simpl. now rewrite !Nat.eqb_refl. Qed.

(** The samples of a well-formed image are 8-bit, pixel by pixel. *)
Lemma well_formed_samples (img : Image) :
  well_formed img = true ->
  Forall (Forall (Forall (fun v => (0 <= v <= 255)%Z))) (pixels img).
Proof.
  unfold well_formed. intros H. apply andb_prop in H. destruct H as [_ H].
  rewrite forallb_forall in H. rewrite Forall_forall. intros row Hrow.
  specialize (H row Hrow). apply andb_prop in H. destruct H as [_ H].
  rewrite forallb_forall in H. rewrite Forall_forall. intros px Hpx.
  specialize (H px Hpx). unfold pixel_ok in H. apply andb_prop in H.
  destruct H as [_ H]. rewrite forallb_forall in H. rewrite Forall_forall.
  intros v Hv. specialize (H v Hv). unfold sample_ok in H.
  apply andb_prop in H. destruct H as [H1 H2]. apply Z.leb_le in H1, H2. lia.
Qed.

Lemma fromarray_np_array (img : Image) :
  fromarray (np_array img) = Ok img.
Proof. destruct img as [[] w h px]; reflexivity. Qed.

(** Combining an array with itself and casting back leaves 8-bit data as it is. *)
Lemma elementwise_self (f : Z -> Z -> Z) (img : Image) :
  (forall v, f v v = v) ->
  well_formed img = true ->
  bind (elementwise f (np_array img) (np_array img))
       (fun combined => fromarray (astype_uint8 combined)) = Ok img.
Proof.
  intros Hf Hwf. unfold elementwise. rewrite shape_eqb_refl. cbn [bind].
  match goal with
  | |- fromarray ?a = _ => assert (E : a = np_array img)
  end; [| rewrite E; apply fromarray_np_array].
  unfold astype_uint8, np_array. cbn [shape data]. f_equal.
  rewrite zip_with_diag, map_map.
  apply map_fixed. eapply Forall_impl; [| exact (well_formed_samples img Hwf)].
  intros row Hrow. rewrite zip_with_diag, map_map.
  apply map_fixed. eapply Forall_impl; [| exact Hrow].
  intros px Hpx. rewrite zip_with_diag, map_map.
  apply map_fixed. eapply Forall_impl; [| exact Hpx].
  intros v Hv. cbv beta in Hv |- *. rewrite Hf. apply Z.mod_small. lia.
Qed.

(** C7: melding a well-formed image with itself, with [min] or with [max],
    returns that image: same mode, same size, same pixels. *)
Theorem combine_two_idempotent (g : Image) (method : string) :
  well_formed g = true ->
  method = "min"%string \/ method = "max"%string ->
  combine_two g g method = Ok g.
Proof.
  intros Hwf Hm. unfold combine_two.
  rewrite !Nat.max_id, resize_and_center_same.
  destruct Hm as [-> | ->]; cbn [String.eqb Ascii.eqb Bool.eqb orb negb];
    simpl (String.eqb _ _).
  - apply elementwise_self; [apply Z.min_id | exact Hwf].
  - apply elementwise_self; [apply Z.max_id | exact Hwf].
Qed.

Lemma combine_two_idempotent_witness :
  combine_two Examples.rgba_2x2 Examples.rgba_2x2 "max" = Ok Examples.rgba_2x2.
Proof.
  apply (combine_two_idempotent Examples.rgba_2x2 "max").
  - reflexivity.
  - right. reflexivity.
Defined.


Lemma well_formed_grid_of (img : Image) :
  well_formed img = true -> mode img = RGBA ->
  grid_of (width img) (height img) rgba_pixel (pixels img).
Proof.
  unfold well_formed. intros H Hm. rewrite Hm in H.
  apply andb_prop in H. destruct H as [Hh H]. apply Nat.eqb_eq in Hh.
  split; [exact Hh |]. rewrite forallb_forall in H. rewrite Forall_forall.
  intros row Hrow. specialize (H row Hrow). apply andb_prop in H.
  destruct H as [Hw H]. apply Nat.eqb_eq in Hw. split; [exact Hw |].
  rewrite forallb_forall in H. rewrite Forall_forall. intros px Hpx.
  specialize (H px Hpx). unfold pixel_ok in H. apply andb_prop in H.
  destruct H as [Hl H]. apply Nat.eqb_eq in Hl. split; [exact Hl |].
  rewrite forallb_forall in H. rewrite Forall_forall. intros v Hv.
  specialize (H v Hv). unfold sample_ok in H. apply andb_prop in H.
  destruct H as [H1 H2]. apply Z.leb_le in H1, H2. lia.
Qed.

Lemma grid_of_get (W H : nat) (P : pixel -> Prop) (g : grid pixel) (d : pixel)
      (x y : nat) :
  grid_of W H P g -> x < W -> y < H ->
  P (get d g y x) /\ forall d', get d' g y x = get d g y x.
Proof.
  intros [Hlen Hrows] Hx Hy. rewrite Forall_forall in Hrows. unfold get.
  assert (Hrow : In (nth y g []) g) by (apply nth_In; lia).
  destruct (Hrows _ Hrow) as [Hw Hpx]. rewrite Forall_forall in Hpx.
  split.
  - apply Hpx. apply nth_In. lia.
  - intros d'. apply nth_indep. lia.
Qed.

Lemma nth_map_seq (A : Type) (f : nat -> A) (n i : nat) (d : A) :
  i < n -> nth i (map f (seq 0 n)) d = f i.
Proof.
  intros Hi. rewrite (nth_indep _ d (f 0)) by (now rewrite length_map, length_seq).
  rewrite map_nth. now rewrite seq_nth.
Qed.

Lemma get_tabulate (A : Type) (f : nat -> nat -> A) (W H x y : nat) (d : A) :
  x < W -> y < H ->
  get d (map (fun y => map (fun x => f y x) (seq 0 W)) (seq 0 H)) y x = f y x.
Proof.
  intros Hx Hy. unfold get.
  rewrite (nth_indep _ [] (map (fun x => f 0 x) (seq 0 W)))
    by (now rewrite length_map, length_seq).
  rewrite (map_nth (fun y => map (fun x => f y x) (seq 0 W))).
  rewrite seq_nth by assumption. now apply nth_map_seq.
Qed.

Lemma grid_of_tabulate (f : nat -> nat -> pixel) (W H : nat) (P : pixel -> Prop) :
  (forall x y, x < W -> y < H -> P (f y x)) ->
  grid_of W H P (map (fun y => map (fun x => f y x) (seq 0 W)) (seq 0 H)).
Proof.
  intros Hf. split; [now rewrite length_map, length_seq |].
  rewrite Forall_forall. intros row Hrow.
  apply in_map_iff in Hrow. destruct Hrow as (y & <- & Hy). apply in_seq in Hy.
  split; [now rewrite length_map, length_seq |].
  rewrite Forall_forall. intros px Hpx.
  apply in_map_iff in Hpx. destruct Hpx as (x & <- & Hx). apply in_seq in Hx.
  apply Hf; lia.
Qed.

Lemma get_repeat (A : Type) (a d : A) (W H x y : nat) :
  x < W -> y < H -> get d (repeat (repeat a W) H) y x = a.
Proof.
  intros Hx Hy. unfold get.
  rewrite (nth_indep _ [] (repeat a W)) by (now rewrite repeat_length).
  rewrite nth_repeat. rewrite (nth_indep _ d a) by (now rewrite repeat_length).
  apply nth_repeat.
Qed.

Lemma rgba_zero : rgba_pixel [0; 0; 0; 0]%Z.
Proof. split; [reflexivity |]. repeat constructor; lia. Qed.

(** [resize_and_center] on an RGBA image no larger than the target gives the
    padded canvas of the specification. *)
Lemma resize_and_center_canvas (img : Image) (W H : nat) :
  well_formed img = true -> mode img = RGBA ->
  width img <= W -> height img <= H ->
  let c := resize_and_center img (W, H) in
  mode c = RGBA /\ width c = W /\ height c = H
  /\ grid_of W H rgba_pixel (pixels c)
  /\ forall x y d, x < W -> y < H ->
       get d (pixels c) y x = canvas_pixel img W H x y.
Proof.
  intros Hwf Hm Hw Hh. pose proof (well_formed_grid_of img Hwf Hm) as Hg.
  unfold resize_and_center. cbn [size fst snd].
  destruct ((width img =? W) && (height img =? H)) eqn:E; cbv zeta.
  - apply andb_prop in E. destruct E as [Ew Eh].
    apply Nat.eqb_eq in Ew, Eh. subst W H.
    repeat split; try tauto; try apply Hg.
    intros x y d Hx Hy. unfold canvas_pixel.
    rewrite !Nat.sub_diag. cbn [Nat.div Nat.divmod fst Nat.add Nat.leb].
    rewrite !Nat.sub_0_r.
    destruct (Nat.ltb_spec x (width img)); [| lia].
    destruct (Nat.ltb_spec y (height img)); [| lia].
    cbn [andb]. now apply (grid_of_get _ _ _ _ [] x y Hg).
  - unfold paste, new. cbn [mode width height pixels fst snd]. cbv zeta.
    assert (Hpix : forall x y, x < W -> y < H ->
      (if (0 <=? Z.of_nat x - (Z.of_nat W - Z.of_nat (width img)) / 2)%Z
          && (Z.of_nat x - (Z.of_nat W - Z.of_nat (width img)) / 2
              <? Z.of_nat (width img))%Z
          && (0 <=? Z.of_nat y - (Z.of_nat H - Z.of_nat (height img)) / 2)%Z
          && (Z.of_nat y - (Z.of_nat H - Z.of_nat (height img)) / 2
              <? Z.of_nat (height img))%Z
       then convert_pixel (mode img) RGBA
              (get (zero_pixel (mode img)) (pixels img)
                 (Z.to_nat (Z.of_nat y - (Z.of_nat H - Z.of_nat (height img)) / 2))
                 (Z.to_nat (Z.of_nat x - (Z.of_nat W - Z.of_nat (width img)) / 2)))
       else get (zero_pixel RGBA) (repeat (repeat [0; 0; 0; 0]%Z W) H) y x)
      = canvas_pixel img W H x y
      /\ rgba_pixel (canvas_pixel img W H x y)).
    { intros x y Hx Hy. unfold canvas_pixel.
      assert (Eox : ((Z.of_nat W - Z.of_nat (width img)) / 2
                     = Z.of_nat ((W - width img) / 2))%Z).
      { rewrite <- Nat2Z.inj_sub by assumption.
        now rewrite (Nat2Z.inj_div _ 2). }
      assert (Eoy : ((Z.of_nat H - Z.of_nat (height img)) / 2
                     = Z.of_nat ((H - height img) / 2))%Z).
      { rewrite <- Nat2Z.inj_sub by assumption.
        now rewrite (Nat2Z.inj_div _ 2). }
      rewrite Eox, Eoy.
      set (ox := (W - width img) / 2). set (oy := (H - height img) / 2).
      destruct (Nat.leb_spec ox x) as [L1 | L1];
        destruct (Nat.ltb_spec x (ox + width img)) as [L2 | L2];
        destruct (Nat.leb_spec oy y) as [L3 | L3];
        destruct (Nat.ltb_spec y (oy + height img)) as [L4 | L4];
        cbn [andb];
        repeat match goal with
          | |- context [(?a <=? ?b)%Z] => destruct (Z.leb_spec a b); try lia
          | |- context [(?a <? ?b)%Z] => destruct (Z.ltb_spec a b); try lia
          end;
        cbn [andb];
        try (rewrite get_repeat by assumption; split; [reflexivity | apply rgba_zero]).
      rewrite Hm. cbn [convert_pixel].
      rewrite <- !Nat2Z.inj_sub by assumption. rewrite !Nat2Z.id.
      destruct (grid_of_get _ _ _ _ [] (x - ox) (y - oy) Hg) as [HP Hd]; try lia.
      rewrite Hd. split; [reflexivity | exact HP]. }
    repeat split.
    + now rewrite length_map, length_seq.
    + apply (grid_of_tabulate _ W H rgba_pixel).
      intros x y Hx Hy. cbv beta. destruct (Hpix x y Hx Hy) as [E' HP].
      exact (eq_ind_r rgba_pixel HP E').
    + intros x y d Hx Hy.
      rewrite (get_tabulate _ _ W H x y d Hx Hy). cbv beta.
      exact (proj1 (Hpix x y Hx Hy)).
Qed.


Lemma length_zip_with (A B C : Type) (f : A -> B -> C) (l1 : list A) (l2 : list B) :
  List.length l1 = List.length l2 ->
  List.length (zip_with f l1 l2) = List.length l1.
Proof.
  revert l2; induction l1 as [| a l1 IH]; intros [| b l2] H; simpl in *;
    try discriminate; auto.
Qed.

Lemma nth_zip_with (A B C : Type) (f : A -> B -> C) (l1 : list A) (l2 : list B)
      (n : nat) (d1 : A) (d2 : B) (d : C) :
  n < List.length l1 -> n < List.length l2 ->
  nth n (zip_with f l1 l2) d = f (nth n l1 d1) (nth n l2 d2).
Proof.
  revert l1 l2; induction n as [| n IH]; intros [| a l1] [| b l2] H1 H2;
    simpl in *; try lia; auto.
  apply IH; lia.
Qed.

Lemma zip_with_samples (f : Z -> Z -> Z) (p q : pixel) :
  (forall a b, (0 <= a <= 255)%Z -> (0 <= b <= 255)%Z -> (0 <= f a b <= 255)%Z) ->
  rgba_pixel p -> rgba_pixel q ->
  map (fun v => (v mod 256)%Z) (zip_with f p q) = zip_with f p q.
Proof.
  intros Hf [_ Hp] [_ Hq]. apply map_fixed.
  revert q Hq; induction Hp as [| a p Ha _ IH]; intros q Hq; simpl; [constructor |].
  destruct Hq as [| b q Hb Hq]; constructor.
  - apply Z.mod_small. specialize (Hf a b Ha Hb). lia.
  - now apply IH.
Qed.

(** The pixels [combine_two] computes from two canvases of one size. *)
Lemma melded_pixels (f : Z -> Z -> Z) (g1 g2 : grid pixel) (W H : nat) :
  (forall a b, (0 <= a <= 255)%Z -> (0 <= b <= 255)%Z -> (0 <= f a b <= 255)%Z) ->
  grid_of W H rgba_pixel g1 -> grid_of W H rgba_pixel g2 ->
  forall x y d, x < W -> y < H ->
    get d (map (map (map (fun v => (v mod 256)%Z)))
               (zip_with (zip_with (zip_with f)) g1 g2)) y x
    = zip_with f (get [] g1 y x) (get [] g2 y x).
Proof.
  intros Hf G1 G2 x y d Hx Hy.
  destruct (grid_of_get _ _ _ _ [] x y G1 Hx Hy) as [P1 _].
  destruct (grid_of_get _ _ _ _ [] x y G2 Hx Hy) as [P2 _].
  destruct G1 as [L1 R1], G2 as [L2 R2]. rewrite Forall_forall in R1, R2.
  unfold grid, pixel in *.
  assert (W1 : List.length (nth y g1 []) = W).
  { apply (R1 (nth y g1 [])), nth_In. now rewrite L1. }
  assert (W2 : List.length (nth y g2 []) = W).
  { apply (R2 (nth y g2 [])), nth_In. now rewrite L2. }
  unfold get in *.
  rewrite (nth_indep _ [] (map (map (fun v => (v mod 256)%Z)) []))
    by (rewrite length_map, length_zip_with; lia).
  rewrite map_nth.
  rewrite (nth_zip_with _ _ _ _ g1 g2 y [] [] []) by lia.
  rewrite (nth_indep _ d (map (fun v => (v mod 256)%Z) []))
    by (rewrite length_map, length_zip_with; lia).
  rewrite map_nth.
  rewrite (nth_zip_with _ _ _ _ _ _ x [] [] []) by lia.
  now apply zip_with_samples.
Qed.

(** What one meld step does on two well-formed RGBA images: the result has
    the element-wise largest width and height, and each of its pixels is the
    per-channel [min] (or [max]) of the two padded canvases. *)
Lemma combine_two_rgba (img1 img2 : Image) (method : string) (f : Z -> Z -> Z) :
  well_formed img1 = true -> well_formed img2 = true ->
  mode img1 = RGBA -> mode img2 = RGBA ->
  (method = "min"%string /\ f = Z.min) \/ (method = "max"%string /\ f = Z.max) ->
  let W := Nat.max (width img1) (width img2) in
  let H := Nat.max (height img1) (height img2) in
  exists out,
    combine_two img1 img2 method = Ok out
    /\ mode out = RGBA /\ width out = W /\ height out = H
    /\ forall x y d, x < W -> y < H ->
         get d (pixels out) y x
         = zip_with f (canvas_pixel img1 W H x y) (canvas_pixel img2 W H x y).
Proof.
  intros Hwf1 Hwf2 Hm1 Hm2 Hmeth W H.
  destruct (resize_and_center_canvas img1 W H Hwf1 Hm1) as (M1 & Wd1 & Ht1 & G1 & C1);
    [apply Nat.le_max_l | apply Nat.le_max_l |].
  destruct (resize_and_center_canvas img2 W H Hwf2 Hm2) as (M2 & Wd2 & Ht2 & G2 & C2);
    [apply Nat.le_max_r | apply Nat.le_max_r |].
  assert (Hf : forall a b, (0 <= a <= 255)%Z -> (0 <= b <= 255)%Z ->
                           (0 <= f a b <= 255)%Z).
  { intros a b Ha Hb. destruct Hmeth as [[_ ->] | [_ ->]]; lia. }
  exists (mkImage RGBA W H
            (map (map (map (fun v => (v mod 256)%Z)))
                 (zip_with (zip_with (zip_with f))
                    (pixels (resize_and_center img1 (W, H)))
                    (pixels (resize_and_center img2 (W, H)))))).
  split.
  - unfold combine_two. fold W H.
    assert (E : forall g, elementwise g (np_array (resize_and_center img1 (W, H)))
                                        (np_array (resize_and_center img2 (W, H)))
                = Ok (mkArray (H, W, 4)
                        (zip_with (zip_with (zip_with g))
                           (pixels (resize_and_center img1 (W, H)))
                           (pixels (resize_and_center img2 (W, H)))))).
    { intros g. unfold elementwise, np_array. cbn [shape data].
      rewrite M1, M2, Wd1, Wd2, Ht1, Ht2. cbn [channels].
      now rewrite shape_eqb_refl. }
    destruct Hmeth as [[-> ->] | [-> ->]]; simpl (String.eqb _ _);
      cbn [orb negb]; unfold np_minimum, np_maximum; rewrite E; reflexivity.
  - cbn [mode width height pixels]. repeat split.
    intros x y d Hx Hy.
    transitivity (zip_with f
                    (get [] (pixels (resize_and_center img1 (W, H))) y x)
                    (get [] (pixels (resize_and_center img2 (W, H))) y x)).
    + exact (melded_pixels f _ _ W H Hf G1 G2 x y d Hx Hy).
    + f_equal; [apply C1 | apply C2]; assumption.
Qed.

(** An RGB image that already has the target size stays a 3-channel array,
    while a smaller one is pasted on an RGBA canvas: numpy cannot combine the
    two shapes. *)
Lemma combine_two_rgb_larger_first (img1 img2 : Image) (method : string) :
  mode img1 = RGB ->
  width img2 <= width img1 -> height img2 <= height img1 ->
  (width img2 =? width img1) && (height img2 =? height img1) = false ->
  method = "min"%string \/ method = "max"%string ->
  combine_two img1 img2 method = Raise ValueError.
Proof.
  intros Hm Hw Hh Hne Hmeth. unfold combine_two.
  rewrite (Nat.max_l _ _ Hw), (Nat.max_l _ _ Hh), resize_and_center_same.
  set (c2 := resize_and_center img2 (width img1, height img1)).
  assert (Hc2 : shape (np_array c2) = (height img1, width img1, 4)).
  { unfold c2, resize_and_center. cbn [size fst snd]. rewrite Hne. reflexivity. }
  clearbody c2.
  assert (E : forall f, elementwise f (np_array img1) (np_array c2)
                        = Raise ValueError).
  { intros f. unfold elementwise. rewrite Hc2. unfold np_array at 1.
    cbn [shape]. rewrite Hm. cbn [channels shape_eqb].
    now rewrite !Nat.eqb_refl. }
  unfold np_minimum, np_maximum. rewrite !E.
  destruct Hmeth as [-> | ->]; reflexivity.
Qed.

(** C6 (as the code behaves): melding a 2 by 2 RGB image with a 1 by 1 RGB
    image raises a ValueError for both modes, where the specification
    expects a 2 by 2 result; both inputs are well-formed images. *)
Theorem combine_two_rgb_smaller_raises :
  well_formed Examples.rgb_2x2 = true
  /\ well_formed Examples.rgb_1x1 = true
  /\ combine_two Examples.rgb_2x2 Examples.rgb_1x1 "min" = Raise ValueError
  /\ combine_two Examples.rgb_2x2 Examples.rgb_1x1 "max" = Raise ValueError.
Proof.
  split; [reflexivity |]. split; [reflexivity |].
  split; apply combine_two_rgb_larger_first; simpl; auto.
Qed.



(** ** LayoutPlanner *)

Import Layout.

(** *** The expand option, over any numbers *)

Section Expand.

Context {T : Type} {num : Number T}.

Lemma page_setup_with_expand (args : Args (T := T)) (e : option (list Z)) :
  page_setup (with_expand args e) = page_setup args.
Proof. reflexivity. Qed.

(** Without [--expand] the first image already raises a TypeError. *)
Lemma merge_without_expand (args : Args (T := T)) (setup : list T * T) :
  expand args = None -> files args <> [] -> page_setup args = Ok setup ->
  merge args = Raise TypeError.
Proof.
  intros He Hf Hs. unfold merge. rewrite Hs. cbn [bind].
  destruct setup as [pd sc]. destruct (files args) as [| sz rest]; [congruence |].
  cbn [place_all]. unfold place at 1, in_expand. rewrite He. reflexivity.
Qed.

Lemma place_all_expand_irrelevant (args : Args (T := T)) (l : list Z)
      (pd : list T) (sc : T) (sizes : list (nat * nat)) (k : nat) :
  expand args = Some l ->
  (forall i, k <= i < k + List.length sizes ->
             existsb (Z.eqb (Z.of_nat i + 1)) l = false) ->
  place_all args pd sc k sizes
  = place_all (with_expand args (Some [])) pd sc k sizes.
Proof.
  intros He. revert k; induction sizes as [| sz rest IH]; intros k Hout;
    [reflexivity |].
  cbn [place_all]. rewrite IH by (intros i Hi; apply Hout; simpl; lia).
  f_equal. unfold place, in_expand. rewrite He. cbn [with_expand expand].
  rewrite Hout by (simpl; lia). reflexivity.
Qed.

(** X20: a supplied expand list whose indices all lie outside 1..n changes
    nothing: the document is the one an empty list gives. *)
Lemma expand_out_of_range_inert (args : Args (T := T)) (l : list Z) :
  expand args = Some l ->
  Forall (fun k => (k < 1)%Z \/ (Z.of_nat (List.length (files args)) < k)%Z) l ->
  merge args = merge (with_expand args (Some [])).
Proof.
  intros He Hout. unfold merge. rewrite page_setup_with_expand.
  destruct (page_setup args) as [[pd sc] |]; [| reflexivity]. cbn [bind].
  cbn [with_expand files].
  rewrite (place_all_expand_irrelevant args l pd sc (files args) 0 He);
    [reflexivity |].
  intros i Hi. apply not_true_is_false. intros E.
  apply existsb_exists in E. destruct E as (k & Hk & Ek).
  apply Z.eqb_eq in Ek. rewrite Forall_forall in Hout.
  specialize (Hout k Hk). lia.
Qed.

End Expand.


(** *** Page size and scale, over exact rationals *)


Lemma max_img_dim_from (sizes : list (nat * nat)) (a b : nat) :
  fold_left
    (fun acc sz => map (fun xy => Nat.max (fst xy) (snd xy))
                       (combine acc [fst sz; snd sz]))
    sizes [a; b]
  = [Nat.max a (list_max (map fst sizes)); Nat.max b (list_max (map snd sizes))].
Proof.
  revert a b; induction sizes as [| [w h] rest IH]; intros a b; simpl.
  - now rewrite !Nat.max_0_r.
  - rewrite IH. now rewrite !Nat.max_assoc.
Qed.

(** The first loop computes the largest width and the largest height. *)
Lemma max_img_dim_list_max (sizes : list (nat * nat)) :
  max_img_dim sizes = [list_max (map fst sizes); list_max (map snd sizes)].
Proof. unfold max_img_dim. now rewrite max_img_dim_from. Qed.

Lemma list_max_attained (l : list nat) :
  l <> [] -> In (list_max l) l.
Proof.
  induction l as [| a l IH]; [congruence |]. intros _. simpl.
  destruct l as [| b l].
  - left. simpl. now rewrite Nat.max_0_r.
  - destruct (Nat.max_spec a (list_max (b :: l))) as [[_ E] | [_ E]]; rewrite E.
    + right. apply IH. discriminate.
    + now left.
Qed.

Lemma list_max_ge (l : list nat) (a : nat) : In a l -> a <= list_max l.
Proof.
  intros H. pose proof (list_max_le l (list_max l)) as [Hle _].
  specialize (Hle (Nat.le_refl _)). rewrite Forall_forall in Hle. now apply Hle.
Qed.

Local Open Scope Q_scope.

Lemma true_div_ok (a b : Q) : ~ b == 0 -> true_div a b = Ok (a / b).
Proof.
  intros H. unfold true_div. cbn [is_zero Number_Q quot].
  destruct (Qeq_bool b 0) eqn:E; [| reflexivity].
  apply Qeq_bool_eq in E. contradiction.
Qed.

Lemma true_div_zero (a b : Q) : b == 0 -> true_div a b = Raise ZeroDivisionError.
Proof.
  intros H. unfold true_div. cbn [is_zero Number_Q].
  now rewrite (Qeq_eq_bool _ _ H).
Qed.

(** [max] of two rationals is an upper bound and one of the two. *)
Lemma py_max_pair (a b : Q) :
  exists m, py_max [a; b] = Ok m /\ a <= m /\ b <= m /\ (m = a \/ m = b).
Proof.
  unfold py_max. cbn [fold_left ltb Number_Q].
  destruct (Qle_bool b a) eqn:E; cbn [negb].
  - exists a. apply Qle_bool_iff in E. repeat split; auto; lra.
  - exists b. repeat split; auto; try lra.
    destruct (Qlt_le_dec a b) as [Hlt | Hle]; [lra |].
    apply Qle_bool_iff in Hle. congruence.
Qed.

Lemma px_le (a b : nat) : (a <= b)%nat -> px a <= px b.
Proof. intros H. unfold px. rewrite <- Zle_Qle. lia. Qed.

Lemma px_pos (a : nat) : (0 < a)%nat -> 0 < px a.
Proof. intros H. unfold px. change 0 with (inject_Z 0). rewrite <- Zlt_Qlt. lia. Qed.

Lemma px_nonneg (a : nat) : 0 <= px a.
Proof. unfold px. change 0 with (inject_Z 0). rewrite <- Zle_Qle. lia. Qed.

Lemma div_le_scale (w p s : Q) : 0 < p -> 0 < s -> w / p <= s -> w / s <= p.
Proof.
  intros Hp Hs H. apply Qle_shift_div_r; [assumption |].
  setoid_replace w with ((w / p) * p) by (field; lra).
  rewrite (Qmult_comm p s). apply Qmult_le_compat_r; lra.
Qed.

Lemma div_le_mono (a b p : Q) : 0 < p -> a <= b -> a / p <= b / p.
Proof.
  intros Hp H. apply Qle_shift_div_r; [assumption |].
  setoid_replace (b / p * p) with b by (field; lra). exact H.
Qed.

Lemma div_pos (a p : Q) : 0 < p -> 0 < a -> 0 < a / p.
Proof. intros Hp Ha. apply Qlt_shift_div_l; lra. Qed.

(** C9: in "auto" mode with a non-zero dpi, the scale is dpi / 25.4, each
    page dimension is 2 * margin plus the largest image dimension divided by
    the scale, and (page dimension - 2 * margin) * scale gives back the
    largest image dimension exactly. *)
Theorem page_setup_auto_round_trip (args : QArgs) :
  is_auto (size args) = true -> dpi args <> 0%Z ->
  let W := px (list_max (map fst (files args))) in
  let H := px (list_max (map snd (files args))) in
  exists scale pw ph,
    page_setup args = Ok ([pw; ph], scale)
    /\ scale == inject_Z (dpi args) / (254 # 10)
    /\ pw == 2 * margin args + W / scale
    /\ ph == 2 * margin args + H / scale
    /\ (pw - 2 * margin args) * scale == W
    /\ (ph - 2 * margin args) * scale == H.
Proof.
  intros Hauto Hdpi W H.
  set (scale := inject_Z (dpi args) / (inject_Z 254 / inject_Z 10)).
  assert (Hs : ~ scale == 0).
  { unfold scale. intros E.
    assert (E' : inject_Z (dpi args) == 0).
    { setoid_replace (inject_Z (dpi args))
        with (inject_Z (dpi args) / (inject_Z 254 / inject_Z 10) * (254 # 10))
        by field.
      rewrite E. reflexivity. }
    apply Hdpi. unfold Qeq in E'. simpl in E'. lia. }
  exists scale, (2 * margin args + W / scale), (2 * margin args + H / scale).
  split.
  - unfold page_setup. rewrite Hauto, max_img_dim_list_max.
    rewrite true_div_ok by discriminate.
    cbn [bind mapM of_Z Number_Q quot decimal]. fold scale.
    unfold of_nat. cbn [of_Z Number_Q]. fold (px (list_max (map fst (files args)))).
    fold (px (list_max (map snd (files args)))). fold W H.
    rewrite !true_div_ok by exact Hs. reflexivity.
  - repeat split; try reflexivity; field; exact Hs.
Qed.

Lemma page_setup_auto_round_trip_witness :
  exists scale pw ph,
    page_setup Examples.auto_args = Ok ([pw; ph], scale)
    /\ scale == 72 / (254 # 10)
    /\ (pw - 2 * 20) * scale == 49
    /\ (ph - 2 * 20) * scale == 300.
Proof.
  destruct (page_setup_auto_round_trip Examples.auto_args)
    as (scale & pw & ph & H1 & H2 & _ & _ & H5 & H6).
  - reflexivity.
  - discriminate.
  - exists scale, pw, ph. repeat split; assumption.
Defined.

(** *** Fixed page size *)



(** The page setup for a fixed page of [pw] by [ph] mm whose printable
    area is not degenerate: the scale is the larger of the two ratios of the
    largest image dimension to the printable length. *)
Lemma page_setup_fixed (args : QArgs) (pw ph : Q) :
  is_auto (size args) = false ->
  page_size (size args) = Ok [pw; ph] ->
  2 * margin args < pw -> 2 * margin args < ph ->
  let r1 := px (list_max (map fst (files args))) / (pw - 2 * margin args) in
  let r2 := px (list_max (map snd (files args))) / (ph - 2 * margin args) in
  exists s, page_setup args = Ok ([pw; ph], s)
            /\ r1 <= s /\ r2 <= s /\ (s = r1 \/ s = r2).
Proof.
  intros Hauto Hsize Hw Hh r1 r2.
  destruct (py_max_pair r1 r2) as (s & Hs & H1 & H2 & H3).
  exists s. split; [| tauto].
  unfold page_setup. rewrite Hauto, Hsize, max_img_dim_list_max.
  cbn [bind map combine mapM fst snd sub mul of_Z Number_Q].
  unfold of_nat. cbn [of_Z Number_Q].
  fold (px (list_max (map fst (files args)))).
  fold (px (list_max (map snd (files args)))).
  change (inject_Z 2) with 2.
  rewrite !true_div_ok by lra. cbn [bind]. fold r1 r2.
  rewrite Hs. reflexivity.
Qed.

(** The placement of one image at a positive global scale. *)
Lemma place_global (args : QArgs) (l : list Z) (pw ph s : Q) (i : nat)
      (sz : nat * nat) :
  expand args = Some l ->
  existsb (Z.eqb (Z.of_nat i + 1)) l = false ->
  0 < s ->
  place args [pw; ph] s i sz
  = Ok (mkPlacement ((pw - px (fst sz) / s) / 2) ((ph - px (snd sz) / s) / 2)
                    (px (fst sz) / s) (px (snd sz) / s)).
Proof.
  intros He Hout Hs. unfold place, in_expand. rewrite He, Hout.
  cbn [bind mapM]. unfold of_nat. cbn [of_Z Number_Q]. fold (px (fst sz)) (px (snd sz)).
  rewrite !true_div_ok by lra. reflexivity.
Qed.

(** An expanded image is placed too, when the page and the image are not
    degenerate. *)
Lemma place_expanded_ok (args : QArgs) (l : list Z) (pw ph s : Q) (i : nat)
      (sz : nat * nat) :
  expand args = Some l ->
  existsb (Z.eqb (Z.of_nat i + 1)) l = true ->
  0 < pw -> 0 < ph -> (0 < fst sz)%nat -> (0 < snd sz)%nat ->
  exists p, place args [pw; ph] s i sz = Ok p.
Proof.
  intros He Hin Hw Hh Hx Hy. unfold place, in_expand. rewrite He, Hin.
  cbn [bind mapM combine fst snd]. unfold of_nat. cbn [of_Z Number_Q].
  fold (px (fst sz)) (px (snd sz)).
  rewrite !true_div_ok by lra. cbn [bind].
  destruct (py_max_pair (px (fst sz) / pw) (px (snd sz) / ph))
    as (m & Hm & H1 & _).
  rewrite Hm. cbn [bind].
  assert (Hpos : 0 < m).
  { apply Qlt_le_trans with (px (fst sz) / pw); [| exact H1].
    apply div_pos; [exact Hw | now apply px_pos]. }
  rewrite !true_div_ok by lra. cbn [bind]. eexists. reflexivity.
Qed.

Lemma place_all_total (args : QArgs) (pd : list Q) (s : Q)
      (sizes : list (nat * nat)) (k : nat) :
  (forall i sz, nth_error sizes i = Some sz ->
                exists p, place args pd s (k + i) sz = Ok p) ->
  exists ps, place_all args pd s k sizes = Ok ps
             /\ forall i sz, nth_error sizes i = Some sz ->
                  exists p, nth_error ps i = Some p
                            /\ place args pd s (k + i) sz = Ok p.
Proof.
  revert k; induction sizes as [| sz rest IH]; intros k Hall.
  - exists []. split; [reflexivity |]. intros [| i] sz' H; discriminate H.
  - destruct (Hall 0%nat sz eq_refl) as [p Hp].
    destruct (IH (S k)) as (ps & Hps & Hnth).
    { intros i sz' Hi. destruct (Hall (S i) sz' Hi) as [p' Hp'].
      exists p'. now rewrite Nat.add_succ_comm. }
    exists (p :: ps). split.
    + cbn [place_all]. rewrite Nat.add_0_r in Hp. rewrite Hp, Hps. reflexivity.
    + intros [| i] sz' Hi.
      * inversion Hi; subst. exists p. split; [reflexivity | exact Hp].
      * destruct (Hnth i sz' Hi) as (p' & Hp1 & Hp2).
        exists p'. split; [exact Hp1 |]. now rewrite <- Nat.add_succ_comm.
Qed.

(** C8 (as the code behaves): on a fixed page of [pw] by [ph] mm, with a
    non-negative margin smaller than half of each page dimension, an expand
    list and images of positive size, [merge] returns a document whose scale
    is at least every ratio of an image dimension to the printable length
    (page dimension - 2 * margin) of its axis and equals one of these ratios
    when there is an image; every image whose 1-based position is not in the
    expand list is drawn with its pixel size divided by that scale, which is
    at most the printable length on both axes.  The arithmetic is exact. *)
Theorem merge_fixed_page_fits (args : QArgs) (pw ph : Q) (l : list Z) :
  is_auto (size args) = false ->
  page_size (size args) = Ok [pw; ph] ->
  expand args = Some l ->
  0 <= margin args ->
  2 * margin args < pw -> 2 * margin args < ph ->
  Forall (fun sz => (0 < fst sz)%nat /\ (0 < snd sz)%nat) (files args) ->
  exists doc,
    merge args = Ok doc
    /\ page_dim doc = [pw; ph]
    /\ (forall sz, In sz (files args) ->
          px (fst sz) / (pw - 2 * margin args) <= scale doc
          /\ px (snd sz) / (ph - 2 * margin args) <= scale doc)
    /\ (files args <> [] ->
        exists sz, In sz (files args)
          /\ (scale doc = px (fst sz) / (pw - 2 * margin args)
              \/ scale doc = px (snd sz) / (ph - 2 * margin args)))
    /\ forall i sz,
         nth_error (files args) i = Some sz ->
         existsb (Z.eqb (Z.of_nat i + 1)) l = false ->
         exists p, nth_error (pages doc) i = Some p
           /\ w p = px (fst sz) / scale doc
           /\ h p = px (snd sz) / scale doc
           /\ fits p pw ph (margin args).
Proof.
  intros Hauto Hsize He Hm Hw Hh Hpos.
  destruct (page_setup_fixed args pw ph Hauto Hsize Hw Hh)
    as (s & Hs & H1 & H2 & H3).
  rewrite Forall_forall in Hpos.
  assert (Hratio : forall sz, In sz (files args) ->
            px (fst sz) / (pw - 2 * margin args) <= s
            /\ px (snd sz) / (ph - 2 * margin args) <= s).
  { intros sz Hsz. split.
    - eapply Qle_trans; [| exact H1]. apply div_le_mono; [lra |].
      apply px_le, list_max_ge. now apply in_map.
    - eapply Qle_trans; [| exact H2]. apply div_le_mono; [lra |].
      apply px_le, list_max_ge. now apply in_map. }
  assert (Hspos : forall sz, In sz (files args) -> 0 < s).
  { intros sz Hsz. destruct (Hratio sz Hsz) as [Hr _].
    eapply Qlt_le_trans; [| exact Hr].
    apply div_pos; [lra | apply px_pos, Hpos, Hsz]. }
  destruct (place_all_total args [pw; ph] s (files args) 0) as (ps & Hps & Hnth).
  { intros i sz Hi. pose proof (nth_error_In _ _ Hi) as Hsz.
    destruct (existsb (Z.eqb (Z.of_nat (0 + i) + 1)) l) eqn:E.
    - destruct (Hpos sz Hsz) as [Hx Hy].
      apply (place_expanded_ok args l pw ph s (0 + i) sz He E); try assumption; lra.
    - eexists. apply (place_global args l pw ph s (0 + i) sz He E).
      now apply (Hspos sz). }
  exists (mkDocument [pw; ph] s ps).
  split; [unfold merge; rewrite Hs; cbn [bind]; rewrite Hps; reflexivity |].
  cbn [page_dim scale pages].
  split; [reflexivity |]. split; [exact Hratio |]. split.
  - intros Hne. destruct H3 as [-> | ->].
    + assert (Hf : map fst (files args) <> [])
        by (intros E; apply map_eq_nil in E; contradiction).
      pose proof (list_max_attained _ Hf) as Hin.
      apply in_map_iff in Hin. destruct Hin as (sz & Esz & Hsz).
      exists sz. split; [exact Hsz |]. left. now rewrite Esz.
    + assert (Hf : map snd (files args) <> [])
        by (intros E; apply map_eq_nil in E; contradiction).
      pose proof (list_max_attained _ Hf) as Hin.
      apply in_map_iff in Hin. destruct Hin as (sz & Esz & Hsz).
      exists sz. split; [exact Hsz |]. right. now rewrite Esz.
  - intros i sz Hi Hout. destruct (Hnth i sz Hi) as (p & Hp1 & Hp2).
    pose proof (nth_error_In _ _ Hi) as Hsz.
    pose proof (Hspos sz Hsz) as Hs0.
    rewrite (place_global args l pw ph s (0 + i) sz He Hout Hs0) in Hp2.
    inversion Hp2; subst p; clear Hp2.
    exists (mkPlacement ((pw - px (fst sz) / s) / 2) ((ph - px (snd sz) / s) / 2)
                        (px (fst sz) / s) (px (snd sz) / s)).
    split; [exact Hp1 |]. cbn [w h]. split; [reflexivity |]. split; [reflexivity |].
    destruct (Hratio sz Hsz) as [R1 R2].
    split; cbn [w h]; apply div_le_scale; auto; lra.
Qed.

Lemma merge_fixed_page_fits_witness :
  exists doc p,
    merge Examples.a4_args = Ok doc
    /\ nth_error (pages doc) 0 = Some p
    /\ w p = px 49 / scale doc
    /\ fits p 210 297 20.
Proof.
  destruct (merge_fixed_page_fits Examples.a4_args 210 297 [2; 7]%Z)
    as (doc & Hdoc & _ & _ & _ & Hplace).
  - reflexivity.
  - reflexivity.
  - reflexivity.
  - discriminate.
  - reflexivity.
  - reflexivity.
  - repeat constructor.
  - destruct (Hplace 0%nat (49, 1)%nat eq_refl eq_refl) as (p & Hp & Hw & _ & Hfit).
    exists doc, p.
    split; [exact Hdoc |]. split; [exact Hp |]. split; [exact Hw | exact Hfit].
Defined.

(** C8 as stated fails: with the default margin of 20 mm on a page 30 mm
    wide the printable width is -10 mm; the 100 by 100 image, placed at the
    global scale, is drawn 260 mm wide. *)
Lemma fixed_page_wide_margin_overflows :
  exists p,
    merge Examples.narrow_page_args
    = Ok (mkDocument [30; 300] (100 # 260) [p])
    /\ in_expand Examples.narrow_page_args 0 = Ok false
    /\ w p == 260
    /\ ~ fits p 30 300 20.
Proof.
  eexists. split; [vm_compute; reflexivity |].
  split; [reflexivity |]. split; [reflexivity |].
  intros [Hw _]. vm_compute in Hw. apply Hw. reflexivity.
Qed.

(** In double precision the bound can be missed by a rounding error even
    on an ordinary page: a 49 by 1 image on A4 with the default margin is
    drawn 170.00000000000003 mm wide on a printable width of 170 mm. *)
Lemma fixed_page_float_rounding :
  exists p,
    option_map pages
      (match merge (num := Float.Number_float) Examples.a4_float_args with
       | Ok d => Some d
       | Raise _ => None
       end)
    = Some [p]
    /\ PrimFloat.ltb (PrimFloat.sub (Float.float_of_Z 210)
                                   (PrimFloat.mul (Float.float_of_Z 2)
                                                  (Float.float_of_Z 20)))
                     (w p) = true.
Proof.
  eexists. split; vm_compute; reflexivity.
Qed.

(** C10 (as the code behaves): a merge run without [--expand] raises a
    TypeError at the first image, where the specification expects every
    image to be placed at the global scale. *)
Theorem merge_without_expand_raises :
  expand Examples.no_expand_args = None
  /\ merge Examples.no_expand_args = Raise TypeError
  /\ exists doc,
       merge (with_expand Examples.no_expand_args (Some [])) = Ok doc
       /\ List.length (pages doc) = 1%nat.
Proof.
  split; [reflexivity |]. split.
  - apply (merge_without_expand Examples.no_expand_args
             ([210; 297], 100 # 170)); [reflexivity | discriminate |].
    vm_compute. reflexivity.
  - eexists. split; [vm_compute; reflexivity | reflexivity].
Qed.

(** * Further properties *)

Close Scope Q_scope.

Import Notions.

(** ** Regions are connected components *)

(** A fill writes nothing but its own label. *)
Lemma flood_values (m : mask) (fuel : nat) (st : list (nat * nat)) (l : nat)
      (lab : grid nat) (r c : nat) :
  get 0 (flood m fuel st l lab) r c = get 0 lab r c
  \/ get 0 (flood m fuel st l lab) r c = l.
Proof.
  revert st lab; induction fuel as [| fuel IH]; intros st lab; [now left |].
  destruct st as [| [r0 c0] rest]; [now left |]. simpl.
  destruct (cell m r0 c0 && (get 0 lab r0 c0 =? 0)) eqn:E; [| apply IH].
  destruct (IH (neighbours r0 c0 ++ rest) (set lab r0 c0 l)) as [H | H];
    [| now right].
  rewrite H.
  destruct (Nat.eq_dec r0 r) as [-> | Hr];
    [destruct (Nat.eq_dec c0 c) as [-> | Hc] |].
  - destruct (Nat.lt_ge_cases r (List.length lab)) as [Hlt | Hge];
      [destruct (Nat.lt_ge_cases c (List.length (nth r lab []))) as [Hlt' | Hge'] |].
    + right. now apply get_set_same.
    + left. unfold get, set. rewrite nth_set_nth_same by assumption.
      rewrite !(nth_overflow _ 0); auto. now rewrite set_nth_length.
    + left. unfold get, set.
      rewrite (nth_overflow (set_nth _ _ _)) by (now rewrite set_nth_length).
      now rewrite (nth_overflow lab).
  - left. apply get_set_other. congruence.
  - left. apply get_set_other. congruence.
Qed.

Lemma label_step_bounded (m : mask) (st : grid nat * nat) (rc : nat * nat) :
  bounded st -> bounded (label_step m st rc).
Proof.
  destruct st as [lab n], rc as [r c]. unfold bounded, label_step. simpl.
  intros H. destruct (cell m r c && (get 0 lab r c =? 0)); simpl; [| exact H].
  intros r' c'.
  destruct (flood_values m (fill_fuel m) [(r, c)] (S n) lab r' c') as [-> | ->];
    [specialize (H r' c'); lia | lia].
Qed.

Lemma label_step_keeps (m : mask) (st : grid nat * nat) (rc : nat * nat) (r c : nat) :
  get 0 (fst st) r c <> 0 ->
  get 0 (fst (label_step m st rc)) r c = get 0 (fst st) r c.
Proof.
  destruct st as [lab n], rc as [r0 c0]. unfold label_step. simpl. intros H.
  destruct (cell m r0 c0 && (get 0 lab r0 c0 =? 0)); simpl; [| reflexivity].
  now apply flood_keeps.
Qed.

(** The step of the scan at a true cell leaves that cell labelled. *)
Lemma label_step_labels (m : mask) (st : grid nat * nat) (r c : nat) :
  inv m st -> cell m r c = true ->
  get 0 (fst (label_step m st (r, c))) r c <> 0.
Proof.
  destruct st as [lab n]. intros Hinv Hc. destruct Hinv as (Hs & _ & _).
  unfold label_step. simpl in *.
  rewrite Hc. simpl. destruct (get 0 lab r c =? 0) eqn:E; simpl.
  - apply Nat.eqb_eq in E. unfold fill_fuel. rewrite Nat.add_1_r.
    rewrite flood_start by (auto; discriminate). discriminate.
  - now apply Nat.eqb_neq in E.
Qed.

Lemma scan_labels (m : mask) (cs : list (nat * nat)) (st : grid nat * nat) :
  inv m st -> bounded st ->
  let st' := fold_left (label_step m) cs st in
  inv m st' /\ bounded st'
  /\ (forall r c, get 0 (fst st) r c <> 0 ->
                  get 0 (fst st') r c = get 0 (fst st) r c)
  /\ (forall r c, In (r, c) cs -> cell m r c = true -> get 0 (fst st') r c <> 0).
Proof.
  revert st; induction cs as [| [r0 c0] cs IH]; intros st Hinv Hb; simpl.
  - split; [exact Hinv |]. split; [exact Hb |]. split; [reflexivity |].
    intros r c [].
  - destruct (IH (label_step m st (r0, c0))) as (I1 & I2 & I3 & I4).
    { now apply label_step_inv. }
    { now apply label_step_bounded. }
    split; [exact I1 |]. split; [exact I2 |]. split.
    + intros r c H. rewrite I3; rewrite label_step_keeps; auto.
    + intros r c [E | Hin] Hc.
      * inversion E; subst. rewrite I3; now apply label_step_labels.
      * now apply I4.
Qed.

Lemma init_inv (m : mask) : inv m (map (map (fun _ => 0)) m, 0).
Proof.
  repeat split; simpl.
  - unfold row_lengths. rewrite map_map. apply map_ext. intros row. apply length_map.
  - intros r c H. exfalso. apply H. apply get_init.
  - intros i Hi. lia.
Qed.

(** After the scan every true cell carries a label between 1 and the number
    of components. *)
Lemma label_complete (m : mask) (r c : nat) :
  cell m r c = true ->
  1 <= get 0 (fst (label m)) r c <= snd (label m).
Proof.
  intros Hc. unfold label.
  destruct (scan_labels m (coords m) (map (map (fun _ => 0)) m, 0))
    as (_ & Hb & _ & Hl).
  - apply init_inv.
  - intros r' c'. simpl. now rewrite get_init.
  - cbv zeta in *. specialize (Hb r c). specialize (Hl r c).
    assert (Hin : In (r, c) (coords m)).
    { apply In_coords. apply (get_in_bounds bool false). unfold cell in Hc. congruence. }
    specialize (Hl Hin Hc). lia.
Qed.

Lemma mapM_In_fwd (A B : Type) (f : A -> result B) (l : list A) (ys : list B)
      (a : A) (b : B) :
  mapM f l = Ok ys -> In a l -> f a = Ok b -> In b ys.
Proof.
  revert ys; induction l as [| x xs IH]; intros ys H Ha Hb; [destruct Ha |].
  simpl in H. destruct (f x) as [y0 |] eqn:Ex; [| discriminate].
  destruct (mapM f xs) as [ys0 |] eqn:Exs; [| discriminate].
  inversion H; subst. destruct Ha as [-> | Ha].
  - left. congruence.
  - right. now apply (IH ys0).
Qed.

(** Every true cell of the mask lies inside one of the returned rectangles,
    bounds included. *)
Lemma true_cells_are_covered (m : mask) (r c : nat) :
  cell m r c = true ->
  exists out x0 y0 x1 y1,
    find_contiguous_rectangles m = Ok out
    /\ In [x0; y0; x1; y1] out
    /\ (x0 <= Z.of_nat c <= x1)%Z /\ (y0 <= Z.of_nat r <= y1)%Z.
Proof.
  intros Hc. destruct (discovered_total m) as [found Hfound].
  pose proof (label_complete m r c Hc) as Hlab.
  exists (sorted key found).
  assert (Hout : find_contiguous_rectangles m = Ok (sorted key found)).
  { apply find_contiguous_rectangles_unfold. now exists found. }
  unfold discovered in Hfound. destruct (label m) as [lab n]. simpl in Hlab.
  destruct (rectangle_of_spec lab (get 0 lab r c))
    as (x0 & y0 & x1 & y1 & E & _ & _ & _ & _ & Hbox); [lia | eauto |].
  exists x0, y0, x1, y1.
  split; [exact Hout |]. split; [| now apply Hbox].
  apply (Permutation_in _ (sorted_perm _ key found)).
  apply (mapM_In_fwd _ _ _ _ _ (get 0 lab r c) _ Hfound); [| exact E].
  apply in_seq. lia.
Qed.

(** Neighbours are the four orthogonally adjacent positions that exist. *)
Lemma In_neighbours (r c r' c' : nat) :
  In (r', c') (neighbours r c) <->
  (S r' = r /\ c' = c) \/ (r' = S r /\ c' = c)
  \/ (r' = r /\ S c' = c) \/ (r' = r /\ c' = S c).
Proof.
  unfold neighbours.
  destruct (Nat.ltb_spec 0 r) as [Hr | Hr], (Nat.ltb_spec 0 c) as [Hc | Hc];
    simpl; rewrite !pair_equal_spec; lia.
Qed.

Lemma neighbours_sym (r c r' c' : nat) :
  In (r', c') (neighbours r c) -> In (r, c) (neighbours r' c').
Proof. rewrite !In_neighbours. lia. Qed.

Lemma flood_closed (m : mask) (l : nat) (fuel : nat) :
  l <> 0 ->
  forall (st : list (nat * nat)) (lab : grid nat),
    row_lengths lab = row_lengths m -> sound m lab ->
    (forall r c r' c', get 0 lab r c <> 0 -> get 0 lab r c <> l ->
       In (r', c') (neighbours r c) -> cell m r' c' = true ->
       get 0 lab r' c' = get 0 lab r c) ->
    (forall r c r' c', get 0 lab r c = l ->
       In (r', c') (neighbours r c) -> cell m r' c' = true ->
       get 0 lab r' c' = l \/ In (r', c') st) ->
    4 * unlabelled m lab + List.length st <= fuel ->
    closed m (flood m fuel st l lab).
Proof.
  intros Hl.
  assert (Hdone : forall lab,
    (forall r c r' c', get 0 lab r c <> 0 -> get 0 lab r c <> l ->
       In (r', c') (neighbours r c) -> cell m r' c' = true ->
       get 0 lab r' c' = get 0 lab r c) ->
    (forall r c r' c', get 0 lab r c = l ->
       In (r', c') (neighbours r c) -> cell m r' c' = true ->
       get 0 lab r' c' = l \/ In (r', c') []) ->
    closed m lab).
  { intros lab J2 J3 r c r' c' H0 Hn Hc.
    destruct (Nat.eq_dec (get 0 lab r c) l) as [E | E].
    - destruct (J3 r c r' c' E Hn Hc) as [H | []]. congruence.
    - now apply J2. }
  induction fuel as [| fuel IH]; intros st lab Hs Hsound J2 J3 Hfuel.
  - destruct st; [| simpl in Hfuel; lia]. simpl. now apply Hdone.
  - destruct st as [| [r0 c0] rest]; [simpl; now apply Hdone |].
    cbn [flood].
    destruct (cell m r0 c0 && (get 0 lab r0 c0 =? 0)) eqn:E.
    + apply andb_prop in E. destruct E as [Hc0 H00]. apply Nat.eqb_eq in H00.
      destruct (cell_in_bounds m lab r0 c0 Hs Hc0) as [Hr Hcol].
      assert (Hsame : get 0 (set lab r0 c0 l) r0 c0 = l)
        by (now apply get_set_same).
      assert (Hother : forall r c, (r0, c0) <> (r, c) ->
                get 0 (set lab r0 c0 l) r c = get 0 lab r c)
        by (intros; now apply get_set_other).
      assert (Hcases : forall r c, (r, c) = (r0, c0) \/ (r0, c0) <> (r, c)).
      { intros r c. destruct (Nat.eq_dec r r0), (Nat.eq_dec c c0); subst; auto;
          right; congruence. }
      apply IH.
      * now rewrite shape_set.
      * intros r c H. destruct (Hcases r c) as [Eq | Ne].
        -- inversion Eq; subst. exact Hc0.
        -- rewrite (Hother r c Ne) in H. now apply Hsound.
      * intros r c r' c' H1 H2 Hn Hc.
        destruct (Hcases r c) as [Eq | Ne]; [inversion Eq; subst; congruence |].
        rewrite (Hother r c Ne) in H1, H2 |- *.
        pose proof (J2 r c r' c' H1 H2 Hn Hc) as Hk.
        destruct (Hcases r' c') as [Eq' | Ne']; [inversion Eq'; subst; congruence |].
        now rewrite (Hother r' c' Ne').
      * intros r c r' c' H1 Hn Hc. destruct (Hcases r c) as [Eq | Ne].
        -- inversion Eq; subst. right. apply in_or_app. now left.
        -- rewrite (Hother r c Ne) in H1.
           destruct (Hcases r' c') as [Eq' | Ne'].
           ++ inversion Eq'; subst. now left.
           ++ rewrite (Hother r' c' Ne').
              destruct (J3 r c r' c' H1 Hn Hc) as [H | [H | H]]; auto.
              ** congruence.
              ** right. apply in_or_app. now right.
      * pose proof (unlabelled_set m lab r0 c0 l Hs Hl Hc0 H00).
        pose proof (neighbours_length r0 c0).
        rewrite length_app. simpl in Hfuel. lia.
    + apply IH; auto; [| simpl in Hfuel; lia].
      intros r c r' c' H1 Hn Hc.
      destruct (J3 r c r' c' H1 Hn Hc) as [H | [H | H]]; auto.
      injection H as E1 E2. subst r0 c0. left.
      rewrite Hc in E. simpl in E. apply Nat.eqb_neq in E.
      destruct (Nat.eq_dec (get 0 lab r' c') l) as [El | El]; [exact El |].
      exfalso. apply neighbours_sym in Hn.
      assert (Hcr : cell m r c = true) by (apply Hsound; lia).
      pose proof (J2 r' c' r c E El Hn Hcr). congruence.
Qed.

Lemma label_step_closed (m : mask) (st : grid nat * nat) (rc : nat * nat) :
  inv m st -> bounded st -> closed m (fst st) ->
  closed m (fst (label_step m st rc)).
Proof.
  destruct st as [lab n], rc as [r c]. intros Hinv Hb Hcl.
  destruct Hinv as (Hs & Hsound & _). unfold label_step. simpl in *.
  destruct (cell m r c && (get 0 lab r c =? 0)) eqn:E; [| exact Hcl]. simpl.
  apply flood_closed; [discriminate | exact Hs | exact Hsound | | |].
  - intros r1 c1 r2 c2 H1 _. now apply Hcl.
  - intros r1 c1 r2 c2 H1. specialize (Hb r1 c1). simpl in Hb. lia.
  - unfold fill_fuel, unlabelled. simpl.
    pose proof (filter_length_le
                  (fun rc => cell m (fst rc) (snd rc)
                             && (get 0 lab (fst rc) (snd rc) =? 0))
                  (coords m)).
    lia.
Qed.

Lemma label_closed (m : mask) : closed m (fst (label m)).
Proof.
  unfold label.
  assert (H : forall cs st, inv m st -> bounded st -> closed m (fst st) ->
                            closed m (fst (fold_left (label_step m) cs st))).
  { induction cs as [| rc cs IH]; intros st H1 H2 H3; [exact H3 |]. simpl.
    apply IH; [now apply label_step_inv | now apply label_step_bounded
               | now apply label_step_closed]. }
  apply H.
  - apply init_inv.
  - intros r c. simpl. now rewrite get_init.
  - intros r c r' c' H0. simpl in H0. now rewrite get_init in H0.
Qed.

Lemma connected_true (m : mask) (a b : nat * nat) :
  connected m a b ->
  cell m (fst a) (snd a) = true /\ cell m (fst b) (snd b) = true.
Proof. induction 1; tauto. Qed.

Lemma connected_trans (m : mask) (a b c : nat * nat) :
  connected m a b -> connected m b c -> connected m a c.
Proof.
  intros Hab Hbc. induction Hbc as [Hb | c d Hbc IH Hn Hd]; [exact Hab |].
  now apply connected_step with c.
Qed.

Lemma connected_sym (m : mask) (a b : nat * nat) :
  connected m a b -> connected m b a.
Proof.
  induction 1 as [Ha | b c Hab IH Hn Hc]; [now constructor |].
  apply connected_trans with b; [| exact IH].
  apply connected_step with c; [now constructor | |].
  - destruct b, c. now apply neighbours_sym.
  - apply (connected_true _ _ _ Hab).
Qed.

(** Every cell a fill labels is connected to the cell the fill started on,
    as long as that holds for the cells on the stack. *)
Lemma flood_connected (m : mask) (l : nat) (s : nat * nat) (fuel : nat) :
  forall (st : list (nat * nat)) (lab : grid nat),
    (forall r c, get 0 lab r c = l -> connected m s (r, c)) ->
    (forall r c, In (r, c) st -> cell m r c = true -> connected m s (r, c)) ->
    forall r c, get 0 (flood m fuel st l lab) r c = l -> connected m s (r, c).
Proof.
  induction fuel as [| fuel IH]; intros st lab K1 K2; [exact K1 |].
  destruct st as [| [r0 c0] rest]; [exact K1 |]. cbn [flood].
  destruct (cell m r0 c0 && (get 0 lab r0 c0 =? 0)) eqn:E.
  - apply andb_prop in E. destruct E as [Hc0 _].
    assert (Hs0 : connected m s (r0, c0)) by (apply K2; [now left | exact Hc0]).
    apply IH.
    + intros r c H.
      destruct (Nat.eq_dec r0 r) as [-> | Hr];
        [destruct (Nat.eq_dec c0 c) as [-> | Hc] |]; [exact Hs0 | |].
      * rewrite get_set_other in H by congruence. now apply K1.
      * rewrite get_set_other in H by congruence. now apply K1.
    + intros r c Hin Hc. apply in_app_or in Hin. destruct Hin as [Hin | Hin].
      * apply connected_step with (r0, c0); auto.
      * apply K2; [now right | exact Hc].
  - apply IH; [exact K1 |]. intros r c Hin Hc. apply K2; [now right | exact Hc].
Qed.

Lemma label_step_seeded (m : mask) (st : grid nat * nat) (rc : nat * nat) :
  bounded st -> seeded m st -> seeded m (label_step m st rc).
Proof.
  destruct st as [lab n], rc as [r c]. intros Hb Hseed.
  unfold label_step, seeded in *. simpl in *.
  destruct (cell m r c && (get 0 lab r c =? 0)) eqn:E; [| exact Hseed]. simpl.
  apply andb_prop in E. destruct E as [Hc _].
  intros i Hi. destruct (Nat.eq_dec i (S n)) as [-> | Hne].
  - exists (r, c). apply flood_connected.
    + intros r1 c1 H. specialize (Hb r1 c1). simpl in Hb. lia.
    + intros r1 c1 [E | []] _. inversion E; subst. now constructor.
  - destruct (Hseed i) as [s Hs]; [lia |]. exists s. intros r1 c1 H.
    apply Hs.
    destruct (flood_values m (fill_fuel m) [(r, c)] (S n) lab r1 c1) as [E | E];
      congruence.
Qed.

Lemma label_seeded (m : mask) : seeded m (label m).
Proof.
  unfold label.
  assert (H : forall cs st, bounded st -> seeded m st ->
                            seeded m (fold_left (label_step m) cs st)).
  { induction cs as [| rc cs IH]; intros st H1 H2; [exact H2 |]. simpl.
    apply IH; [now apply label_step_bounded | now apply label_step_seeded]. }
  apply H.
  - intros r c. simpl. now rewrite get_init.
  - intros i Hi. simpl in Hi. lia.
Qed.

(** The labelling is the partition into connected components: two true
    cells carry the same label exactly when they are connected. *)
Lemma label_components (m : mask) (a b : nat * nat) :
  cell m (fst a) (snd a) = true -> cell m (fst b) (snd b) = true ->
  (get 0 (fst (label m)) (fst a) (snd a) = get 0 (fst (label m)) (fst b) (snd b)
   <-> connected m a b).
Proof.
  intros Ha Hb. split.
  - intros E. pose proof (label_complete m _ _ Ha) as La.
    destruct (label_seeded m (get 0 (fst (label m)) (fst a) (snd a)) La) as [s Hs].
    apply connected_trans with s.
    + apply connected_sym. destruct a. now apply Hs.
    + destruct b. apply Hs. simpl in *. congruence.
  - induction 1 as [Ha' | b c Hab IH Hn Hc]; [reflexivity |].
    pose proof (connected_true _ _ _ Hab) as [_ Hb'].
    rewrite (IH Hb'). symmetry.
    pose proof (label_complete m _ _ Hb') as Lb.
    destruct b as [rb cb], c as [rc cc]. simpl in *.
    apply label_closed; [lia | exact Hn | exact Hc].
Qed.

Lemma label_all_false (m : mask) :
  (forall r c, cell m r c = false) ->
  label m = (map (map (fun _ => 0)) m, 0).
Proof.
  intros H. unfold label. generalize (map (map (fun _ : bool => 0)) m, 0).
  induction (coords m) as [| [r c] cs IH]; intros st; [reflexivity |].
  simpl. rewrite <- (IH st) at 2. f_equal.
  destruct st as [lab n]. unfold label_step. now rewrite H.
Qed.

(** X3: the function returns the empty list exactly for the masks without a
    true cell. *)
Theorem no_rectangle_iff_no_true_cell (m : mask) :
  find_contiguous_rectangles m = Ok [] <-> forall r c, cell m r c = false.
Proof.
  split.
  - intros H r c. destruct (cell m r c) eqn:E; [| reflexivity].
    destruct (true_cells_are_covered m r c E) as (out & x0 & y0 & x1 & y1 & Ho & Hin & _).
    rewrite H in Ho. inversion Ho; subst. destruct Hin.
  - intros H. unfold find_contiguous_rectangles, discovered.
    rewrite (label_all_false m H). reflexivity.
Qed.

(** X1: every returned rectangle is the bounding box, upper bounds included, of
    the connected component of some true cell: all cells of the component lie
    within it and each of its four bounds is met by a cell of the component. *)
Theorem rectangle_is_component_box (m : mask) (out : list rect) (x : rect) :
  find_contiguous_rectangles m = Ok out -> In x out ->
  exists (s : nat * nat) (x0 y0 x1 y1 : Z),
    x = [x0; y0; x1; y1]
    /\ cell m (fst s) (snd s) = true
    /\ (forall b, connected m s b ->
          (x0 <= Z.of_nat (snd b) <= x1)%Z /\ (y0 <= Z.of_nat (fst b) <= y1)%Z)
    /\ (exists b, connected m s b /\ Z.of_nat (snd b) = x0)
    /\ (exists b, connected m s b /\ Z.of_nat (fst b) = y0)
    /\ (exists b, connected m s b /\ Z.of_nat (snd b) = x1)
    /\ (exists b, connected m s b /\ Z.of_nat (fst b) = y1).
Proof.
  intros Hout Hx. apply find_contiguous_rectangles_unfold in Hout.
  destruct Hout as (found & Hfound & ->).
  apply (Permutation_in _ (Permutation_sym (sorted_perm _ key found))) in Hx.
  unfold discovered in Hfound.
  pose proof (label_inv m) as Hinv.
  pose proof (label_components m) as Hcomp.
  destruct (label m) as [lab n]. destruct Hinv as (_ & Hsound & Hall).
  simpl in Hsound, Hall, Hcomp.
  destruct (mapM_In _ _ _ _ _ _ Hfound Hx) as (i & Hi & Hrect).
  apply in_seq in Hi.
  destruct (Hall i) as (rs & cs & Hs); [lia |].
  assert (Hst : cell m rs cs = true) by (apply Hsound; lia).
  destruct (rectangle_of_spec lab i) as (x0 & y0 & x1 & y1 & E & Hl & Ht & Hr & Hb & Hbox);
    [lia | eauto |].
  rewrite E in Hrect. inversion Hrect; subst x.
  assert (Hconn : forall r c, get 0 lab r c = i -> connected m (rs, cs) (r, c)).
  { intros r c H. apply (Hcomp (rs, cs) (r, c)); simpl; auto; [| congruence].
    apply Hsound. lia. }
  exists (rs, cs), x0, y0, x1, y1. split; [reflexivity |]. split; [exact Hst |].
  split.
  { intros [r c] Hb'. apply Hbox.
    pose proof (connected_true _ _ _ Hb') as [_ Hc].
    symmetry. rewrite <- Hs. now apply (Hcomp (rs, cs) (r, c)). }
  destruct Hl as (r1 & G1 & P1), Ht as (c2 & G2 & P2),
           Hr as (r3 & G3 & P3), Hb as (c4 & G4 & P4).
  repeat split.
  - exists (r1, Z.to_nat x0). split; [now apply Hconn | simpl; lia].
  - exists (Z.to_nat y0, c2). split; [now apply Hconn | simpl; lia].
  - exists (r3, Z.to_nat x1). split; [now apply Hconn | simpl; lia].
  - exists (Z.to_nat y1, c4). split; [now apply Hconn | simpl; lia].
Qed.

(** X2: two connected true cells, in particular two orthogonally adjacent ones,
    lie in one and the same returned rectangle. *)
Theorem connected_cells_share_rectangle (m : mask) (a b : nat * nat) :
  connected m a b ->
  exists out x0 y0 x1 y1,
    find_contiguous_rectangles m = Ok out
    /\ In [x0; y0; x1; y1] out
    /\ (x0 <= Z.of_nat (snd a) <= x1)%Z /\ (y0 <= Z.of_nat (fst a) <= y1)%Z
    /\ (x0 <= Z.of_nat (snd b) <= x1)%Z /\ (y0 <= Z.of_nat (fst b) <= y1)%Z.
Proof.
  intros Hab. pose proof (connected_true _ _ _ Hab) as [Ha Hb].
  destruct (discovered_total m) as [found Hfound].
  pose proof (label_complete m _ _ Ha) as Hlab.
  pose proof (proj2 (label_components m a b Ha Hb) Hab) as Hsame.
  exists (sorted key found).
  assert (Hout : find_contiguous_rectangles m = Ok (sorted key found)).
  { apply find_contiguous_rectangles_unfold. now exists found. }
  unfold discovered in Hfound. destruct (label m) as [lab n]. simpl in Hlab, Hsame.
  destruct (rectangle_of_spec lab (get 0 lab (fst a) (snd a)))
    as (x0 & y0 & x1 & y1 & E & _ & _ & _ & _ & Hbox); [lia | eauto |].
  exists x0, y0, x1, y1.
  split; [exact Hout |]. split.
  - apply (Permutation_in _ (sorted_perm _ key found)).
    apply (mapM_In_fwd _ _ _ _ _ (get 0 lab (fst a) (snd a)) _ Hfound); [| exact E].
    apply in_seq. lia.
  - destruct (Hbox _ _ eq_refl). destruct (Hbox (fst b) (snd b)); [congruence |].
    tauto.
Qed.

Lemma rectangle_is_component_box_witness :
  exists s : nat * nat,
    cell two_blocks (fst s) (snd s) = true
    /\ forall b, connected two_blocks s b ->
         (5 <= Z.of_nat (snd b) <= 6)%Z /\ (5 <= Z.of_nat (fst b) <= 6)%Z.
Proof.
  destruct (rectangle_is_component_box two_blocks
              [[0; 0; 1; 1]; [5; 5; 6; 6]]%Z [5; 5; 6; 6]%Z)
    as (s & x0 & y0 & x1 & y1 & E & Hs & Hbox & _).
  - vm_compute. reflexivity.
  - right. left. reflexivity.
  - injection E as <- <- <- <-. exists s. split; [exact Hs | exact Hbox].
Defined.

Lemma connected_cells_share_rectangle_witness :
  exists out x0 y0 x1 y1,
    find_contiguous_rectangles two_blocks = Ok out
    /\ In [x0; y0; x1; y1] out
    /\ (x0 <= 0 <= x1)%Z /\ (y0 <= 0 <= y1)%Z
    /\ (x0 <= 1 <= x1)%Z /\ (y0 <= 1 <= y1)%Z.
Proof.
  apply (connected_cells_share_rectangle two_blocks (0, 0) (1, 1)).
  apply connected_step with (0, 1).
  - apply connected_step with (0, 0).
    + apply connected_refl. reflexivity.
    + simpl. auto.
    + reflexivity.
  - simpl. auto.
  - reflexivity.
Defined.

(** ** Autocrop to the bounding box *)

Lemma get_map_map (A B : Type) (f : A -> B) (g : grid A) (r c : nat) (d : A) (d' : B) :
  r < List.length g -> c < List.length (nth r g []) ->
  get d' (map (map f) g) r c = f (get d g r c).
Proof.
  intros Hr Hc. unfold get.
  rewrite (nth_indep _ [] (map f [])) by (now rewrite length_map).
  rewrite map_nth.
  rewrite (nth_indep _ d' (f d)) by (now rewrite length_map).
  now rewrite map_nth.
Qed.

Lemma row_lengths_map_map (A B : Type) (f : A -> B) (g : grid A) :
  row_lengths (map (map f) g) = row_lengths g.
Proof.
  unfold row_lengths. rewrite map_map. apply map_ext. intros row. apply length_map.
Qed.

Lemma In_argwhere_not (c : list Z) (tol : Q) (sub : Image) (y x : nat) :
  In (y, x) (argwhere_not (map (map (within_tolerance c tol)) (pixels sub)))
  <-> foreground c tol sub y x.
Proof.
  unfold argwhere_not, foreground. rewrite filter_In.
  rewrite (coords_shape _ _ _ (pixels sub)) by apply row_lengths_map_map.
  rewrite In_coords. cbn [fst snd]. split.
  - intros [[Hy Hx] H]. repeat split; auto.
    rewrite (get_map_map _ _ _ _ _ _ [] true Hy Hx) in H.
    now apply negb_true_iff in H.
  - intros (Hy & Hx & H). split; [tauto |].
    rewrite (get_map_map _ _ _ _ _ _ [] true Hy Hx). now rewrite H.
Qed.

Lemma crop_bounding_box
        (img : Image) (region : list Z) (autocrop_color : string)
        (autocrop_tolerance : Z) (c : list Z) (sub : Image) (y0 x0 : nat) :
  reference_color img autocrop_color = Ok (Some c) ->
  pil_crop img region = Ok sub ->
  foreground c (threshold autocrop_tolerance) sub y0 x0 ->
  exists (left top right bottom : nat) (out : Image),
    crop img region autocrop_color autocrop_tolerance = Ok out
    /\ pil_crop sub [Z.of_nat left; Z.of_nat top;
                     Z.of_nat right + 1; Z.of_nat bottom + 1]%Z = Ok out
    /\ width out = right - left + 1 /\ height out = bottom - top + 1
    /\ (forall y x, foreground c (threshold autocrop_tolerance) sub y x ->
          left <= x <= right /\ top <= y <= bottom)
    /\ (exists y, foreground c (threshold autocrop_tolerance) sub y left)
    /\ (exists y, foreground c (threshold autocrop_tolerance) sub y right)
    /\ (exists x, foreground c (threshold autocrop_tolerance) sub top x)
    /\ (exists x, foreground c (threshold autocrop_tolerance) sub bottom x).
Proof.
  intros Hc Hsub Hfg. set (tol := threshold autocrop_tolerance) in *.
  unfold crop. rewrite Hc, Hsub. cbn [bind]. fold tol.
  set (cs := argwhere_not (map (map (within_tolerance c tol)) (pixels sub))).
  assert (Hcs : forall y x, In (y, x) cs <-> foreground c tol sub y x)
    by (intros; apply In_argwhere_not).
  set (rows := map (fun rc : nat * nat => Z.of_nat (fst rc)) cs).
  set (cols := map (fun rc : nat * nat => Z.of_nat (snd rc)) cs).
  assert (Hrows : forall z, In z rows <->
                   exists y x, foreground c tol sub y x /\ z = Z.of_nat y).
  { intros z. unfold rows. rewrite in_map_iff. split.
    - intros ([y x] & <- & H). apply Hcs in H. eauto.
    - intros (y & x & H & ->). exists (y, x). split; [reflexivity | now apply Hcs]. }
  assert (Hcols : forall z, In z cols <->
                   exists y x, foreground c tol sub y x /\ z = Z.of_nat x).
  { intros z. unfold cols. rewrite in_map_iff. split.
    - intros ([y x] & <- & H). apply Hcs in H. eauto.
    - intros (y & x & H & ->). exists (y, x). split; [reflexivity | now apply Hcs]. }
  assert (Hne : cs <> []).
  { intros E. apply Hcs in Hfg. rewrite E in Hfg. destruct Hfg. }
  assert (Hr0 : rows <> []) by (unfold rows; destruct cs; [congruence | discriminate]).
  assert (Hc0 : cols <> []) by (unfold cols; destruct cs; [congruence | discriminate]).
  destruct (np_min_spec rows Hr0) as (top & Etop & Itop & Ltop).
  destruct (np_min_spec cols Hc0) as (left & Eleft & Ileft & Lleft).
  destruct (np_max_spec rows Hr0) as (bottom & Ebot & Ibot & Lbot).
  destruct (np_max_spec cols Hc0) as (right & Eright & Iright & Lright).
  destruct cs as [| p cs'] eqn:Ecs; [congruence |].
  rewrite Etop, Eleft, Ebot, Eright. cbn [bind].
  apply Hrows in Itop, Ibot. apply Hcols in Ileft, Iright.
  destruct Itop as (yt & xt & Ft & ->), Ibot as (yb & xb & Fb & ->),
           Ileft as (yl & xl & Fl & ->), Iright as (yr & xr & Fr & ->).
  assert (Hbox : forall y x, foreground c tol sub y x ->
                             xl <= x <= xr /\ yt <= y <= yb).
  { intros y x F.
    assert (In (Z.of_nat y) rows) by (apply Hrows; eauto).
    assert (In (Z.of_nat x) cols) by (apply Hcols; eauto).
    specialize (Ltop _ H). specialize (Lbot _ H).
    specialize (Lleft _ H0). specialize (Lright _ H0). lia. }
  destruct (Hbox _ _ Fl) as [[_ B1] _]. destruct (Hbox _ _ Ft) as [_ [_ B2]].
  exists xl, yt, xr, yb.
  unfold pil_crop at 1.
  destruct ((Z.of_nat xr + 1 <? Z.of_nat xl)%Z || (Z.of_nat yb + 1 <? Z.of_nat yt)%Z)
    eqn:Eb.
  { apply orb_prop in Eb. destruct Eb as [Eb | Eb]; apply Z.ltb_lt in Eb; lia. }
  eexists. split; [reflexivity |].
  split; [unfold pil_crop; rewrite Eb; reflexivity |].
  cbn [width height].
  split; [lia |]. split; [lia |]. split; [exact Hbox |].
  repeat split; eauto.
Qed.

(** X4: when some pixel of the sub-grid is foreground, [crop] returns the
    sub-grid cut to the bounding box of the foreground pixels: the box
    contains all of them and each of its four sides touches one. *)
Theorem crop_is_bounding_box
        (img : Image) (region : list Z) (autocrop_color : string)
        (autocrop_tolerance : Z) (c : list Z) (sub : Image) (y0 x0 : nat) :
  reference_color img autocrop_color = Ok (Some c) ->
  pil_crop img region = Ok sub ->
  foreground c (threshold autocrop_tolerance) sub y0 x0 ->
  exists (left top right bottom : nat) (out : Image),
    crop img region autocrop_color autocrop_tolerance = Ok out
    /\ pil_crop sub [Z.of_nat left; Z.of_nat top;
                     Z.of_nat right + 1; Z.of_nat bottom + 1]%Z = Ok out
    /\ width out = right - left + 1 /\ height out = bottom - top + 1
    /\ (forall y x, foreground c (threshold autocrop_tolerance) sub y x ->
          left <= x <= right /\ top <= y <= bottom)
    /\ (exists y, foreground c (threshold autocrop_tolerance) sub y left)
    /\ (exists y, foreground c (threshold autocrop_tolerance) sub y right)
    /\ (exists x, foreground c (threshold autocrop_tolerance) sub top x)
    /\ (exists x, foreground c (threshold autocrop_tolerance) sub bottom x).
Proof.
  exact (crop_bounding_box img region autocrop_color autocrop_tolerance
           c sub y0 x0).
Qed.

Lemma crop_is_bounding_box_witness :
  exists out,
    crop Inputs.framed_3x3 [0; 0; 3; 3]%Z "#ffffff" 0 = Ok out
    /\ width out = 1 /\ height out = 1.
Proof.
  destruct (crop_is_bounding_box Inputs.framed_3x3 [0; 0; 3; 3]%Z "#ffffff" 0
              [255; 255; 255]%Z Inputs.framed_3x3 1 1)
    as (left & top & right & bottom & out & Hout & _ & Hw & Hh & Hbox
        & (yl & Fl) & (yr & Fr) & (xt & Ft) & (xb & Fb)).
  - reflexivity.
  - reflexivity.
  - repeat split; simpl; auto.
  - assert (F : foreground [255; 255; 255]%Z (threshold 0) Inputs.framed_3x3 1 1)
      by (repeat split; simpl; auto).
    assert (G : forall y x,
              foreground [255; 255; 255]%Z (threshold 0) Inputs.framed_3x3 y x ->
              y = 1 /\ x = 1).
    { intros y x (Hy & Hx & Hpx). simpl in Hy.
      destruct y as [| [| [| y]]]; simpl in Hx; try lia;
        destruct x as [| [| [| x]]]; try lia; try discriminate Hpx; auto. }
    destruct (Hbox 1 1 F) as [[? ?] [? ?]].
    destruct (G _ _ Fl) as [_ ?]. destruct (G _ _ Ft) as [? _].
    destruct (G _ _ Fr) as [_ ?]. destruct (G _ _ Fb) as [? _].
    exists out. split; [exact Hout |]. lia.
Defined.

Lemma tabulate_self (A : Type) (g : grid A) (W H : nat) (d : A) :
  List.length g = H ->
  (forall y, y < H -> List.length (nth y g []) = W) ->
  map (fun y => map (fun x => get d g y x) (seq 0 W)) (seq 0 H) = g.
Proof.
  intros HL HW. apply (nth_ext _ _ [] []).
  - now rewrite length_map, length_seq.
  - intros y Hy. rewrite length_map, length_seq in Hy.
    rewrite nth_map_seq by assumption.
    apply (nth_ext _ _ d d).
    + rewrite length_map, length_seq. symmetry. now apply HW.
    + intros x Hx. rewrite length_map, length_seq in Hx.
      now rewrite nth_map_seq by assumption.
Qed.

Lemma pixel_at_inside (o : Image) (x y : nat) :
  x < width o -> y < height o ->
  pixel_at o (Z.of_nat x) (Z.of_nat y)
  = get (zero_pixel (mode o)) (pixels o) y x.
Proof.
  intros Hx Hy. unfold pixel_at.
  destruct (_ && _) eqn:E.
  - now rewrite !Nat2Z.id.
  - exfalso. rewrite !andb_false_iff in E.
    rewrite !Z.leb_gt, !Z.ltb_ge in E. lia.
Qed.

(** Cutting an image to its own full box gives the image back. *)
Lemma pil_crop_full (o : Image) :
  shaped o ->
  pil_crop o [0; 0; Z.of_nat (width o); Z.of_nat (height o)]%Z = Ok o.
Proof.
  intros [HL HW]. unfold pil_crop.
  destruct ((Z.of_nat (width o) <? 0)%Z || (Z.of_nat (height o) <? 0)%Z) eqn:E.
  { apply orb_prop in E. destruct E as [E | E]; apply Z.ltb_lt in E; lia. }
  rewrite !Z.sub_0_r, !Nat2Z.id. destruct o as [md w h g]. cbn [mode width height pixels] in *.
  f_equal. f_equal.
  transitivity (map (fun y => map (fun x => get (zero_pixel md) g y x) (seq 0 w))
                    (seq 0 h)); [| now apply tabulate_self].
  apply map_ext_in. intros y Hy. apply map_ext_in. intros x Hx.
  apply in_seq in Hx, Hy. rewrite !Z.add_0_l.
  apply (pixel_at_inside (mkImage md w h g)); cbn [width height]; lia.
Qed.

Lemma pil_crop_inv (img : Image) (box : list Z) (sub : Image) :
  pil_crop img box = Ok sub ->
  exists x0 y0 x1 y1,
    box = [x0; y0; x1; y1] /\ (x0 <= x1)%Z /\ (y0 <= y1)%Z
    /\ sub = mkImage (mode img) (Z.to_nat (x1 - x0)) (Z.to_nat (y1 - y0))
               (map (fun y =>
                  map (fun x => pixel_at img (x0 + Z.of_nat x) (y0 + Z.of_nat y))
                      (seq 0 (Z.to_nat (x1 - x0))))
                  (seq 0 (Z.to_nat (y1 - y0)))).
Proof.
  unfold pil_crop. intros H.
  destruct box as [| x0 [| y0 [| x1 [| y1 [| ? ?]]]]]; try discriminate.
  destruct ((x1 <? x0)%Z || (y1 <? y0)%Z) eqn:E; [discriminate |].
  apply orb_false_iff in E. destruct E as [E1 E2]. apply Z.ltb_ge in E1, E2.
  exists x0, y0, x1, y1. inversion H. auto.
Qed.

Lemma pil_crop_shaped (img : Image) (box : list Z) (sub : Image) :
  pil_crop img box = Ok sub -> shaped sub.
Proof.
  intros H. destruct (pil_crop_inv _ _ _ H) as (x0 & y0 & x1 & y1 & _ & _ & _ & ->).
  split; cbn [pixels height width].
  - now rewrite length_map, length_seq.
  - intros y Hy. rewrite nth_map_seq by assumption.
    now rewrite length_map, length_seq.
Qed.

Lemma reference_color_fixed (img img' : Image) (autocrop_color : string) :
  String.eqb (upper autocrop_color) "AUTO" = false ->
  reference_color img' autocrop_color = reference_color img autocrop_color.
Proof. intros H. unfold reference_color. now rewrite H. Qed.

(** The foreground of a cut inside the image is the foreground of the
    image, shifted. *)
Lemma foreground_cut (c : list Z) (tol : Q) (sub out : Image)
      (left top right bottom : nat) (y x : nat) :
  shaped sub -> right < width sub -> bottom < height sub ->
  left <= right -> top <= bottom ->
  pil_crop sub [Z.of_nat left; Z.of_nat top;
                Z.of_nat right + 1; Z.of_nat bottom + 1]%Z = Ok out ->
  foreground c tol out y x
  <-> x <= right - left /\ y <= bottom - top
      /\ foreground c tol sub (top + y) (left + x).
Proof.
  intros [HL HW] Hr Hb Hlr Htb Hout.
  destruct (pil_crop_inv _ _ _ Hout) as (x0 & y0 & x1 & y1 & E & _ & _ & ->).
  injection E as <- <- <- <-.
  replace (Z.to_nat (Z.of_nat right + 1 - Z.of_nat left)) with (S (right - left)) by lia.
  replace (Z.to_nat (Z.of_nat bottom + 1 - Z.of_nat top)) with (S (bottom - top)) by lia.
  unfold foreground. cbn [pixels].
  rewrite length_map, length_seq.
  destruct (Nat.lt_ge_cases y (S (bottom - top))) as [Hy | Hy]; [| lia].
  rewrite nth_map_seq by assumption. rewrite length_map, length_seq.
  destruct (Nat.lt_ge_cases x (S (right - left))) as [Hx | Hx]; [| lia].
  rewrite (get_tabulate _ (fun y x => pixel_at sub (Z.of_nat left + Z.of_nat x)
                                                (Z.of_nat top + Z.of_nat y)))
    by assumption.
  rewrite <- !Nat2Z.inj_add. rewrite pixel_at_inside by lia.
  assert (Hrow : List.length (nth (top + y) (pixels sub) []) = width sub)
    by (apply HW; lia).
  assert (Hget : get (zero_pixel (mode sub)) (pixels sub) (top + y) (left + x)
                 = get [] (pixels sub) (top + y) (left + x)).
  { unfold get. apply nth_indep. unfold grid, pixel in *. lia. }
  rewrite Hget. unfold grid, pixel in *. intuition lia.
Qed.

(** X5: autocrop with a fixed reference colour (an explicit colour, or "no") is
    idempotent: cropping the result again, over its full box, changes
    nothing. *)
Theorem crop_idempotent (img : Image) (region : list Z) (autocrop_color : string)
        (autocrop_tolerance : Z) (out : Image) :
  String.eqb (upper autocrop_color) "AUTO" = false ->
  crop img region autocrop_color autocrop_tolerance = Ok out ->
  crop out [0; 0; Z.of_nat (width out); Z.of_nat (height out)]%Z
       autocrop_color autocrop_tolerance = Ok out.
Proof.
  intros Hna Hcrop. pose proof Hcrop as H0. unfold crop in H0.
  destruct (reference_color img autocrop_color) as [color |] eqn:Hc;
    cbn [bind] in H0; [| discriminate].
  destruct (pil_crop img region) as [sub |] eqn:Hsub; cbn [bind] in H0;
    [| discriminate].
  pose proof (pil_crop_shaped _ _ _ Hsub) as Hshaped.
  pose proof (reference_color_fixed img out autocrop_color Hna) as Hc'.
  rewrite Hc in Hc'.
  destruct color as [c |].
  2:{ inversion H0; subst out. unfold crop. rewrite Hc'. cbn [bind].
      now rewrite pil_crop_full. }
  set (tol := threshold autocrop_tolerance) in *.
  destruct (argwhere_not (map (map (within_tolerance c tol)) (pixels sub)))
    as [| [y0 x0] cs] eqn:Ecs.
  { inversion H0; subst out. unfold crop. rewrite Hc'. cbn [bind].
    rewrite pil_crop_full by assumption. cbn [bind]. fold tol. now rewrite Ecs. }
  clear H0.
  assert (Hfg : foreground c tol sub y0 x0).
  { apply In_argwhere_not. rewrite Ecs. now left. }
  destruct (crop_bounding_box img region autocrop_color autocrop_tolerance
              c sub y0 x0 Hc Hsub Hfg)
    as (left & top & right & bottom & out' & Hcrop' & Hcut & Hw & Hh & Hbox
        & (yl & Fl) & (yr & Fr) & (xt & Ft) & (xb & Fb)).
  fold tol in Hbox, Fl, Fr, Ft, Fb.
  assert (out' = out) by congruence. subst out'. clear Hcrop'.
  destruct Hshaped as [HL HW].
  assert (Hr : right < width sub).
  { destruct Fr as (A & B & _). rewrite HW in B; unfold grid, pixel in *; lia. }
  assert (Hb : bottom < height sub).
  { destruct Fb as (A & _). unfold grid, pixel in *; lia. }
  destruct (Hbox _ _ Fl) as [[_ Hlr] _]. destruct (Hbox _ _ Ft) as [_ [_ Htb]].
  pose proof (foreground_cut c tol sub out left top right bottom) as Hshift.
  assert (Hsh : forall y x,
            foreground c tol out y x
            <-> x <= right - left /\ y <= bottom - top
                /\ foreground c tol sub (top + y) (left + x)).
  { intros y x. apply Hshift; auto. now split. }
  clear Hshift.
  pose proof (pil_crop_shaped _ _ _ Hcut) as Hshaped'.
  pose proof (pil_crop_full out Hshaped') as Hfull.
  assert (Hfg' : foreground c tol out (yl - top) 0).
  { apply Hsh. destruct (Hbox _ _ Fl) as [_ [? ?]].
    split; [lia |]. split; [lia |].
    replace (top + (yl - top)) with yl by lia. now rewrite Nat.add_0_r. }
  destruct (crop_bounding_box out _ autocrop_color autocrop_tolerance
              c out (yl - top) 0 Hc' Hfull Hfg')
    as (l2 & t2 & r2 & b2 & out2 & Hcrop2 & Hcut2 & _ & _ & Hbox2
        & _ & (yr2 & Fr2) & _ & (xb2 & Fb2)).
  fold tol in Hbox2, Fr2, Fb2.
  rewrite Hcrop2. rewrite <- Hcut2.
  assert (El : l2 = 0) by (destruct (Hbox2 _ _ Hfg') as [[? _] _]; lia).
  assert (Et : t2 = 0).
  { assert (F : foreground c tol out 0 (xt - left)).
    { apply Hsh. destruct (Hbox _ _ Ft) as [[? ?] _].
      split; [lia |]. split; [lia |].
      replace (left + (xt - left)) with xt by lia. now rewrite Nat.add_0_r. }
    destruct (Hbox2 _ _ F) as [_ [? _]]. lia. }
  assert (Er : r2 = right - left).
  { assert (F : foreground c tol out (yr - top) (right - left)).
    { apply Hsh. destruct (Hbox _ _ Fr) as [_ [? ?]].
      split; [lia |]. split; [lia |].
      replace (top + (yr - top)) with yr by lia.
      replace (left + (right - left)) with right by lia. exact Fr. }
    destruct (Hbox2 _ _ F) as [[_ ?] _].
    apply Hsh in Fr2. lia. }
  assert (Eb : b2 = bottom - top).
  { assert (F : foreground c tol out (bottom - top) (xb - left)).
    { apply Hsh. destruct (Hbox _ _ Fb) as [[? ?] _].
      split; [lia |]. split; [lia |].
      replace (left + (xb - left)) with xb by lia.
      replace (top + (bottom - top)) with bottom by lia. exact Fb. }
    destruct (Hbox2 _ _ F) as [_ [_ ?]].
    apply Hsh in Fb2. lia. }
  subst l2 t2 r2 b2. etransitivity; [| exact Hfull]. f_equal.
  change (Z.of_nat 0) with 0%Z. repeat f_equal; lia.
Qed.

Lemma crop_idempotent_witness :
  crop Inputs.dot_1x1 [0; 0; 1; 1]%Z "#ffffff" 0 = Ok Inputs.dot_1x1.
Proof.
  apply (crop_idempotent Inputs.framed_3x3 [0; 0; 3; 3]%Z "#ffffff" 0
           Inputs.dot_1x1); reflexivity.
Defined.

(** ** Colour strings *)

(** X6: an explicit colour of the wrong length is rejected before anything is
    cut: whatever the image and the region, [crop] raises ValueError. *)
Theorem crop_rejects_malformed_colour
        (img : Image) (region : list Z) (autocrop_color : string)
        (autocrop_tolerance : Z) :
  String.eqb (upper autocrop_color) "AUTO" = false ->
  String.eqb (upper autocrop_color) "NO" = false ->
  (String.length (lstrip "#"%char autocrop_color) =? 6) = false ->
  crop img region autocrop_color autocrop_tolerance = Raise ValueError.
Proof.
  intros H1 H2 H3. unfold crop, reference_color. rewrite H1, H2.
  now rewrite (hex_to_rgb_wrong_length _ H3).
Qed.

Lemma In_all_ascii (a : ascii) : In a all_ascii.
Proof.
  unfold all_ascii. apply in_map_iff. exists (nat_of_ascii a).
  split; [apply ascii_nat_embedding |].
  apply in_seq. pose proof (nat_ascii_bounded a). lia.
Qed.

Lemma int16_pair_range_all :
  forallb (fun a => forallb (fun b =>
     channel_ok (int16 (String a (String b EmptyString)))) all_ascii) all_ascii
  = true.
Proof. vm_compute. reflexivity. Qed.

Lemma int16_pair_range (a b : ascii) (v : Z) :
  int16 (String a (String b EmptyString)) = Ok v -> (-15 <= v <= 255)%Z.
Proof.
  intros H. pose proof int16_pair_range_all as Hall.
  rewrite forallb_forall in Hall. specialize (Hall a (In_all_ascii a)).
  rewrite forallb_forall in Hall. specialize (Hall b (In_all_ascii b)).
  rewrite H in Hall. simpl in Hall. apply andb_prop in Hall.
  destruct Hall as [H1 H2]. apply Z.leb_le in H1, H2. lia.
Qed.

(** X7: whenever [hex_to_rgb] returns, it returns exactly three channels, each
    between -15 and 255. *)
Theorem hex_to_rgb_channels (s : string) (v : list Z) :
  hex_to_rgb s = Ok v ->
  exists r g b, v = [r; g; b]
    /\ (-15 <= r <= 255)%Z /\ (-15 <= g <= 255)%Z /\ (-15 <= b <= 255)%Z.
Proof.
  unfold hex_to_rgb.
  destruct (String.length (lstrip "#"%char s) =? 6) eqn:E; [| discriminate].
  apply Nat.eqb_eq in E. cbn [negb].
  destruct (lstrip "#"%char s) as [| a [| b [| c [| d [| e [| f [| g h]]]]]]];
    try discriminate E.
  cbn [mapM substring].
  destruct (int16 (String a (String b EmptyString))) as [v1 |] eqn:E1; [| discriminate].
  destruct (int16 (String c (String d EmptyString))) as [v2 |] eqn:E2; [| discriminate].
  destruct (int16 (String e (String f EmptyString))) as [v3 |] eqn:E3; [| discriminate].
  intros H. inversion H; subst.
  exists v1, v2, v3. split; [reflexivity |].
  repeat split; eauto using int16_pair_range;
    try (apply (int16_pair_range _ _ _ E1));
    try (apply (int16_pair_range _ _ _ E2));
    try (apply (int16_pair_range _ _ _ E3)).
Qed.

Lemma crop_rejects_malformed_colour_witness :
  crop Examples.rgb_2x2 [0; 0; 2; 2]%Z "#fff" 0 = Raise ValueError.
Proof.
  apply (crop_rejects_malformed_colour Examples.rgb_2x2 [0; 0; 2; 2]%Z "#fff" 0);
    reflexivity.
Defined.

Lemma hex_to_rgb_channels_witness :
  exists r g b,
    [-15; 0; 255]%Z = [r; g; b]
    /\ (-15 <= r <= 255)%Z /\ (-15 <= g <= 255)%Z /\ (-15 <= b <= 255)%Z.
Proof.
  apply (hex_to_rgb_channels "#-f00ff" [-15; 0; 255]%Z). reflexivity.
Defined.

(** ** More on the Melder *)

Lemma zip_with_comm (A B : Type) (f : A -> A -> B) (l1 l2 : list A) :
  (forall a b, f a b = f b a) -> zip_with f l1 l2 = zip_with f l2 l1.
Proof.
  intros Hf. revert l2; induction l1 as [| a l1 IH]; intros [| b l2]; simpl; auto.
  now rewrite Hf, IH.
Qed.

Lemma shape_eqb_sym (s1 s2 : nat * nat * nat) : shape_eqb s1 s2 = shape_eqb s2 s1.
Proof.
  destruct s1 as [[h1 w1] c1], s2 as [[h2 w2] c2]. simpl.
  now rewrite (Nat.eqb_sym h1), (Nat.eqb_sym w1), (Nat.eqb_sym c1).
Qed.

Lemma shape_eqb_eq (s1 s2 : nat * nat * nat) : shape_eqb s1 s2 = true -> s1 = s2.
Proof.
  destruct s1 as [[h1 w1] c1], s2 as [[h2 w2] c2]. simpl. intros H.
  apply andb_prop in H. destruct H as [H H3]. apply andb_prop in H.
  destruct H as [H1 H2]. apply Nat.eqb_eq in H1, H2, H3. congruence.
Qed.

Lemma elementwise_comm (f : Z -> Z -> Z) (a b : ndarray) :
  (forall u v, f u v = f v u) -> elementwise f a b = elementwise f b a.
Proof.
  intros Hf. unfold elementwise. rewrite (shape_eqb_sym (Pil.shape b)).
  destruct (shape_eqb (Pil.shape a) (Pil.shape b)) eqn:E; [| reflexivity].
  rewrite (shape_eqb_eq _ _ E). f_equal. f_equal.
  apply zip_with_comm. intros r1 r2. apply zip_with_comm. intros p q.
  now apply zip_with_comm.
Qed.

(** X8: one meld step does not depend on the order of its two images, for any
    images and any method string, errors included. *)
Theorem combine_two_comm (img1 img2 : Image) (method : string) :
  combine_two img1 img2 method = combine_two img2 img1 method.
Proof.
  unfold combine_two.
  rewrite (Nat.max_comm (width img2)), (Nat.max_comm (height img2)).
  destruct (negb _); [reflexivity |].
  unfold np_minimum, np_maximum.
  rewrite (elementwise_comm Z.min _ _ Z.min_comm).
  rewrite (elementwise_comm Z.max _ _ Z.max_comm).
  reflexivity.
Qed.

(** X9: what one meld step does on two well-formed RGBA images: it returns an
    image with the element-wise largest width and height, each of whose
    pixels is the per-channel [min] (or [max]) of the two images centred on
    transparent canvases of that size. *)
Theorem combine_two_rgba_canvas (img1 img2 : Image) (method : string)
        (f : Z -> Z -> Z) :
  well_formed img1 = true -> well_formed img2 = true ->
  mode img1 = RGBA -> mode img2 = RGBA ->
  (method = "min"%string /\ f = Z.min) \/ (method = "max"%string /\ f = Z.max) ->
  let W := Nat.max (width img1) (width img2) in
  let H := Nat.max (height img1) (height img2) in
  exists out,
    combine_two img1 img2 method = Ok out
    /\ mode out = RGBA /\ width out = W /\ height out = H
    /\ forall x y d, x < W -> y < H ->
         get d (pixels out) y x
         = zip_with f (canvas_pixel img1 W H x y) (canvas_pixel img2 W H x y).
Proof. exact (combine_two_rgba img1 img2 method f). Qed.

Lemma zip_with_min_le_max (p q : list Z) :
  Forall2 Z.le (zip_with Z.min p q) (zip_with Z.max p q).
Proof.
  revert q; induction p as [| a p IH]; intros [| b q]; simpl; constructor;
    [lia | apply IH].
Qed.

(** X10: on the same two well-formed RGBA images the [min] meld is below the
    [max] meld, channel by channel, at every pixel. *)
Theorem combine_two_min_le_max (img1 img2 : Image) :
  well_formed img1 = true -> well_formed img2 = true ->
  mode img1 = RGBA -> mode img2 = RGBA ->
  exists lo hi,
    combine_two img1 img2 "min" = Ok lo
    /\ combine_two img1 img2 "max" = Ok hi
    /\ width lo = width hi /\ height lo = height hi
    /\ forall x y, x < width lo -> y < height lo ->
         Forall2 Z.le (get [] (pixels lo) y x) (get [] (pixels hi) y x).
Proof.
  intros Hwf1 Hwf2 Hm1 Hm2.
  destruct (combine_two_rgba img1 img2 "min" Z.min Hwf1 Hwf2 Hm1 Hm2)
    as (lo & Hlo & _ & Wlo & Hhlo & Plo); [now left |].
  destruct (combine_two_rgba img1 img2 "max" Z.max Hwf1 Hwf2 Hm1 Hm2)
    as (hi & Hhi & _ & Whi & Hhhi & Phi); [now right |].
  exists lo, hi. split; [exact Hlo |]. split; [exact Hhi |].
  split; [congruence |]. split; [congruence |].
  intros x y Hx Hy. rewrite Wlo in Hx. rewrite Hhlo in Hy.
  rewrite Plo, Phi by assumption. apply zip_with_min_le_max.
Qed.

Lemma grid_of_intro (W H : nat) (P : pixel -> Prop) (g : grid pixel) :
  List.length g = H ->
  (forall y, y < H -> List.length (nth y g []) = W) ->
  (forall x y, x < W -> y < H -> P (get [] g y x)) ->
  grid_of W H P g.
Proof.
  intros HL HW HP. split; [exact HL |].
  apply Forall_nth. intros y d Hy. rewrite HL in Hy.
  rewrite (nth_indep _ d []) by (now rewrite HL).
  split; [now apply HW |].
  apply Forall_nth. intros x d' Hx. rewrite (HW y Hy) in Hx.
  rewrite (nth_indep _ d' []) by (now rewrite (HW y Hy)).
  now apply HP.
Qed.

Lemma grid_of_row (W H : nat) (P : pixel -> Prop) (g : grid pixel) (y : nat) :
  grid_of W H P g -> y < H -> List.length (nth y g []) = W.
Proof.
  intros [HL HR] Hy. rewrite Forall_forall in HR.
  apply (HR (nth y g [])). apply nth_In. now rewrite HL.
Qed.

Lemma rgba_zip_with (f : Z -> Z -> Z) (p q : pixel) :
  (forall a b, (0 <= a <= 255)%Z -> (0 <= b <= 255)%Z -> (0 <= f a b <= 255)%Z) ->
  rgba_pixel p -> rgba_pixel q -> rgba_pixel (zip_with f p q).
Proof.
  intros Hf [L1 R1] [L2 R2]. split.
  - rewrite length_zip_with; congruence.
  - clear L1 L2. revert q R2; induction R1 as [| a p Ha _ IH]; intros q R2;
      [constructor |].
    destruct R2 as [| b q Hb R2]; simpl; constructor; auto.
Qed.

(** The melded rows form a grid of RGBA pixels again. *)
Lemma melded_grid (f : Z -> Z -> Z) (g1 g2 : grid pixel) (W H : nat) :
  (forall a b, (0 <= a <= 255)%Z -> (0 <= b <= 255)%Z -> (0 <= f a b <= 255)%Z) ->
  grid_of W H rgba_pixel g1 -> grid_of W H rgba_pixel g2 ->
  grid_of W H rgba_pixel
    (map (map (map (fun v => (v mod 256)%Z)))
         (zip_with (zip_with (zip_with f)) g1 g2)).
Proof.
  intros Hf G1 G2.
  pose proof (proj1 G1) as L1. pose proof (proj1 G2) as L2.
  pose proof (fun y => grid_of_row _ _ _ _ y G1) as R1.
  pose proof (fun y => grid_of_row _ _ _ _ y G2) as R2.
  apply grid_of_intro.
  - unfold grid, pixel in *. rewrite length_map, length_zip_with; lia.
  - intros y Hy. specialize (R1 y Hy). specialize (R2 y Hy).
    unfold grid, pixel in *.
    rewrite (nth_indep _ [] (map (map (fun v => (v mod 256)%Z)) []))
      by (rewrite length_map, length_zip_with; lia).
    rewrite map_nth, length_map.
    rewrite (nth_zip_with _ _ _ _ g1 g2 y [] [] []) by lia.
    rewrite length_zip_with; lia.
  - intros x y Hx Hy.
    rewrite (melded_pixels f g1 g2 W H Hf G1 G2 x y [] Hx Hy).
    apply rgba_zip_with; [exact Hf | |].
    + now apply (grid_of_get _ _ _ _ [] x y G1).
    + now apply (grid_of_get _ _ _ _ [] x y G2).
Qed.

Lemma grid_of_well_formed (W H : nat) (g : grid pixel) :
  grid_of W H rgba_pixel g -> well_formed (mkImage RGBA W H g) = true.
Proof.
  intros [HL HR]. unfold well_formed. cbn [pixels height width mode].
  rewrite HL, Nat.eqb_refl. cbn [andb]. apply forallb_forall. intros row Hrow.
  rewrite Forall_forall in HR. destruct (HR row Hrow) as [HW HP].
  rewrite HW, Nat.eqb_refl. cbn [andb]. apply forallb_forall. intros p Hp.
  rewrite Forall_forall in HP. destruct (HP p Hp) as [H4 Hs].
  unfold pixel_ok. cbn [channels]. rewrite H4. cbn [Nat.eqb andb].
  apply forallb_forall. intros v Hv. rewrite Forall_forall in Hs.
  specialize (Hs v Hv). unfold sample_ok.
  apply andb_true_intro. split; apply Z.leb_le; lia.
Qed.

(** One meld step on well-formed RGBA images gives a well-formed RGBA image
    of the element-wise largest size. *)
Lemma combine_two_rgba_wf (img1 img2 : Image) (method : string) :
  well_formed img1 = true -> well_formed img2 = true ->
  mode img1 = RGBA -> mode img2 = RGBA ->
  method = "min"%string \/ method = "max"%string ->
  exists out,
    combine_two img1 img2 method = Ok out
    /\ well_formed out = true /\ mode out = RGBA
    /\ width out = Nat.max (width img1) (width img2)
    /\ height out = Nat.max (height img1) (height img2).
Proof.
  intros Hwf1 Hwf2 Hm1 Hm2 Hmeth.
  set (W := Nat.max (width img1) (width img2)).
  set (H := Nat.max (height img1) (height img2)).
  destruct (resize_and_center_canvas img1 W H Hwf1 Hm1) as (M1 & Wd1 & Ht1 & G1 & _);
    [apply Nat.le_max_l | apply Nat.le_max_l |].
  destruct (resize_and_center_canvas img2 W H Hwf2 Hm2) as (M2 & Wd2 & Ht2 & G2 & _);
    [apply Nat.le_max_r | apply Nat.le_max_r |].
  set (f := if String.eqb method "min" then Z.min else Z.max).
  assert (Hf : forall a b, (0 <= a <= 255)%Z -> (0 <= b <= 255)%Z ->
                           (0 <= f a b <= 255)%Z).
  { intros a b Ha Hb. unfold f. destruct (String.eqb method "min"); lia. }
  exists (mkImage RGBA W H
            (map (map (map (fun v => (v mod 256)%Z)))
                 (zip_with (zip_with (zip_with f))
                    (pixels (resize_and_center img1 (W, H)))
                    (pixels (resize_and_center img2 (W, H)))))).
  split.
  - unfold combine_two. fold W H.
    assert (E : forall g, elementwise g (np_array (resize_and_center img1 (W, H)))
                                        (np_array (resize_and_center img2 (W, H)))
                = Ok (mkArray (H, W, 4)
                        (zip_with (zip_with (zip_with g))
                           (pixels (resize_and_center img1 (W, H)))
                           (pixels (resize_and_center img2 (W, H)))))).
    { intros g. unfold elementwise, np_array. cbn [Pil.shape data].
      rewrite M1, M2, Wd1, Wd2, Ht1, Ht2. cbn [channels].
      now rewrite shape_eqb_refl. }
    unfold f.
    destruct Hmeth as [-> | ->]; simpl (String.eqb _ _);
      cbn [orb negb]; unfold np_minimum, np_maximum; rewrite E; reflexivity.
  - split; [| cbn [mode width height]; auto].
    apply grid_of_well_formed. now apply melded_grid.
Qed.

(** X11: melding a non-empty list of well-formed RGBA images succeeds and gives
    a well-formed RGBA image as wide as the widest and as high as the highest
    of them. *)
Theorem combine_multiple_dims (first : Image) (rest : list Image) (method : string) :
  Forall (fun img => well_formed img = true /\ mode img = RGBA) (first :: rest) ->
  method = "min"%string \/ method = "max"%string ->
  exists out,
    combine_multiple (first :: rest) method = Ok out
    /\ well_formed out = true /\ mode out = RGBA
    /\ width out = list_max (map width (first :: rest))
    /\ height out = list_max (map height (first :: rest)).
Proof.
  intros Hall Hmeth. unfold combine_multiple.
  inversion Hall as [| ? ? [Hwf Hm] Hrest]; subst. clear Hall.
  assert (G : forall acc,
             well_formed acc = true -> mode acc = RGBA ->
             exists out,
               fold_left (fun a img => combined <- a ;; combine_two combined img method)
                         rest (Ok acc) = Ok out
               /\ well_formed out = true /\ mode out = RGBA
               /\ width out = Nat.max (width acc) (list_max (map width rest))
               /\ height out = Nat.max (height acc) (list_max (map height rest))).
  { induction rest as [| img rest IH]; intros acc Hacc Hmacc.
    - exists acc. simpl. rewrite !Nat.max_0_r. auto.
    - inversion Hrest as [| ? ? [Hwi Hmi] Hrest']; subst.
      destruct (combine_two_rgba_wf acc img method Hacc Hwi Hmacc Hmi Hmeth)
        as (o & Ho & Hwo & Hmo & Wo & Hho).
      destruct (IH Hrest' o Hwo Hmo) as (out & Hout & H1 & H2 & H3 & H4).
      exists out. cbn [fold_left bind]. rewrite Ho.
      split; [exact Hout |]. split; [exact H1 |]. split; [exact H2 |].
      cbn [map list_max fold_right]. fold (list_max (map width rest)).
      fold (list_max (map height rest)).
      rewrite H3, H4, Wo, Hho. split; lia. }
  destruct (G first Hwf Hm) as (out & Hout & H1 & H2 & H3 & H4).
  exists out. split; [exact Hout |]. split; [exact H1 |]. split; [exact H2 |].
  cbn [map list_max fold_right]. fold (list_max (map width rest)).
  fold (list_max (map height rest)). auto.
Qed.
Lemma fold_raise (method : string) (rest : list Image) (e : exn) :
  fold_left (fun acc img => combined <- acc ;; combine_two combined img method)
            rest (Raise e) = Raise e.
Proof. induction rest as [| img rest IH]; [reflexivity | exact IH]. Qed.

(** X12: the method is only looked at when two images are combined: with a
    method other than "min" and "max" a single image is still returned as it
    is, and any longer list raises an AssertionError, as the empty list
    does. *)
Theorem combine_multiple_checks_method_late (images : list Image) (method : string) :
  String.eqb method "min" = false -> String.eqb method "max" = false ->
  combine_multiple images method
  = match images with
    | [img] => Ok img
    | _ => Raise AssertionError
    end.
Proof.
  intros H1 H2. destruct images as [| first [| second rest]]; try reflexivity.
  unfold combine_multiple. cbn [fold_left bind]. unfold combine_two at 2.
  rewrite H1, H2. cbn [orb negb]. apply fold_raise.
Qed.

Lemma combine_two_rgba_canvas_witness :
  exists out,
    combine_two Examples.rgba_2x2 Inputs.rgba_1x1 "min" = Ok out
    /\ mode out = RGBA /\ width out = 2 /\ height out = 2
    /\ forall x y d, x < 2 -> y < 2 ->
         get d (pixels out) y x
         = zip_with Z.min (canvas_pixel Examples.rgba_2x2 2 2 x y)
                          (canvas_pixel Inputs.rgba_1x1 2 2 x y).
Proof.
  apply (combine_two_rgba_canvas Examples.rgba_2x2 Inputs.rgba_1x1 "min" Z.min);
    try reflexivity.
  left. split; reflexivity.
Defined.

Lemma combine_two_min_le_max_witness :
  exists lo hi,
    combine_two Examples.rgba_2x2 Inputs.rgba_1x1 "min" = Ok lo
    /\ combine_two Examples.rgba_2x2 Inputs.rgba_1x1 "max" = Ok hi
    /\ width lo = width hi /\ height lo = height hi
    /\ forall x y, x < width lo -> y < height lo ->
         Forall2 Z.le (get [] (pixels lo) y x) (get [] (pixels hi) y x).
Proof.
  apply (combine_two_min_le_max Examples.rgba_2x2 Inputs.rgba_1x1); reflexivity.
Defined.

Lemma combine_multiple_dims_witness :
  exists out,
    combine_multiple [Examples.rgba_2x2; Inputs.rgba_1x1; Inputs.rgba_1x3] "max"
    = Ok out
    /\ well_formed out = true /\ mode out = RGBA
    /\ width out = 2 /\ height out = 3.
Proof.
  apply (combine_multiple_dims Examples.rgba_2x2
           [Inputs.rgba_1x1; Inputs.rgba_1x3] "max").
  - repeat constructor.
  - right. reflexivity.
Defined.

Lemma combine_multiple_checks_method_late_witness :
  combine_multiple [Examples.rgb_2x2] "avg" = Ok Examples.rgb_2x2
  /\ combine_multiple [Examples.rgb_2x2; Examples.rgb_2x2] "avg"
     = Raise AssertionError.
Proof.
  split.
  - exact (combine_multiple_checks_method_late [Examples.rgb_2x2] "avg"
             eq_refl eq_refl).
  - exact (combine_multiple_checks_method_late
             [Examples.rgb_2x2; Examples.rgb_2x2] "avg" eq_refl eq_refl).
Defined.

(** ** More on the LayoutPlanner *)

Section Pages.

Context {T : Type} {num : Number T}.

Lemma place_all_length (args : Args (T := T)) (pd : list T) (sc : T)
      (sizes : list (nat * nat)) (k : nat) (ps : list Placement) :
  place_all args pd sc k sizes = Ok ps -> List.length ps = List.length sizes.
Proof.
  revert k ps; induction sizes as [| sz rest IH]; intros k ps H; simpl in H.
  - now inversion H.
  - destruct (place args pd sc k sz) as [p |]; [| discriminate]. cbn [bind] in H.
    destruct (place_all args pd sc (S k) rest) as [ps' |] eqn:E; [| discriminate].
    cbn [bind] in H. inversion H; subst. simpl. f_equal. now apply (IH (S k)).
Qed.

(** A document that [merge] returns has one page per input image, on the
    page size and at the scale the page setup computed. *)
Lemma merge_one_page_per_file (args : Args (T := T)) (doc : Document) :
  merge args = Ok doc ->
  List.length (pages doc) = List.length (files args)
  /\ page_setup args = Ok (page_dim doc, scale doc).
Proof.
  unfold merge. destruct (page_setup args) as [[pd sc] |]; [| discriminate].
  cbn [bind]. destruct (place_all args pd sc 0 (files args)) as [ps |] eqn:E;
    [| discriminate].
  cbn [bind]. intros H. inversion H; subst. cbn [pages page_dim scale].
  split; [now apply (place_all_length _ _ _ _ _ _ E) | reflexivity].
Qed.

(** X14: a size that is neither "auto" nor JSON nor one of the four preset
    names raises a KeyError, whatever the other arguments are. *)
Theorem merge_unknown_size_name (args : Args (T := T)) (s : string) :
  size args = SizeText s ->
  is_auto (size args) = false ->
  String.eqb s "A4" = false -> String.eqb s "A5" = false ->
  String.eqb s "letter" = false -> String.eqb s "legal" = false ->
  merge args = Raise KeyError.
Proof.
  intros Hs Hauto H1 H2 H3 H4. unfold merge, page_setup. rewrite Hauto, Hs.
  cbn [page_size PAGE_SIZES lookup]. now rewrite H1, H2, H3, H4.
Qed.

End Pages.

Local Open Scope Q_scope.

Lemma page_setup_auto_value (args : QArgs) :
  is_auto (size args) = true -> dpi args <> 0%Z ->
  let s := inject_Z (dpi args) / (inject_Z 254 / inject_Z 10) in
  page_setup args
  = Ok ([2 * margin args + px (list_max (map fst (files args))) / s;
         2 * margin args + px (list_max (map snd (files args))) / s], s)
  /\ ~ s == 0.
Proof.
  intros Hauto Hdpi s.
  assert (Hs : ~ s == 0).
  { unfold s. intros E.
    assert (E' : inject_Z (dpi args) == 0).
    { setoid_replace (inject_Z (dpi args))
        with (inject_Z (dpi args) / (inject_Z 254 / inject_Z 10) * (254 # 10))
        by field.
      rewrite E. reflexivity. }
    apply Hdpi. unfold Qeq in E'. simpl in E'. lia. }
  split; [| exact Hs].
  unfold page_setup. rewrite Hauto, max_img_dim_list_max.
  rewrite true_div_ok by discriminate.
  cbn [bind mapM of_Z Number_Q quot decimal]. fold s.
  unfold of_nat. cbn [of_Z Number_Q]. fold (px (list_max (map fst (files args)))).
  fold (px (list_max (map snd (files args)))).
  rewrite !true_div_ok by exact Hs. reflexivity.
Qed.

(** X15: in "auto" mode a dpi of zero raises a ZeroDivisionError. *)
Theorem merge_auto_zero_dpi (args : QArgs) :
  is_auto (size args) = true -> dpi args = 0%Z ->
  merge args = Raise ZeroDivisionError.
Proof.
  intros Hauto Hdpi. unfold merge, page_setup.
  rewrite Hauto, max_img_dim_list_max, Hdpi.
  rewrite true_div_ok by discriminate. cbn [bind mapM].
  rewrite true_div_zero; [reflexivity |]. reflexivity.
Qed.

(** X16: on a fixed page a margin of exactly half the page width raises a
    ZeroDivisionError. *)
Theorem merge_margin_half_page (args : QArgs) (pw : Q) (rest : list Q) :
  is_auto (size args) = false ->
  page_size (size args) = Ok (pw :: rest) ->
  2 * margin args == pw ->
  merge args = Raise ZeroDivisionError.
Proof.
  intros Hauto Hsize Hm. unfold merge, page_setup.
  rewrite Hauto, Hsize, max_img_dim_list_max.
  cbn [bind map combine mapM fst snd sub mul of_Z Number_Q].
  rewrite true_div_zero; [reflexivity |].
  change (inject_Z 2) with 2. lra.
Qed.

Lemma div_self (a : Q) : 0 < a -> a / a == 1.
Proof. intros H. field. lra. Qed.

(** X17: in exact arithmetic, in "auto" mode with a positive dpi, a
    non-negative margin, an expand list and images of positive size, [merge]
    returns a document in which every image whose position is not in the
    expand list is drawn with its pixel size divided by the scale and lies
    inside the margins.  The statement is about the rational numbers the
    layout formulas denote; in double precision an image can miss a margin
    by a rounding error, see [auto_page_float_rounding]. *)
Theorem merge_auto_fits (args : QArgs) (l : list Z) :
  is_auto (size args) = true ->
  (0 < dpi args)%Z ->
  expand args = Some l ->
  0 <= margin args ->
  Forall (fun sz => (0 < fst sz)%nat /\ (0 < snd sz)%nat) (files args) ->
  exists doc pw ph,
    merge args = Ok doc
    /\ page_dim doc = [pw; ph]
    /\ forall i sz,
         nth_error (files args) i = Some sz ->
         existsb (Z.eqb (Z.of_nat i + 1)) l = false ->
         exists p, nth_error (pages doc) i = Some p
           /\ w p = px (fst sz) / scale doc
           /\ h p = px (snd sz) / scale doc
           /\ fits p pw ph (margin args)
           /\ inside_margins p pw ph (margin args).
Proof.
  intros Hauto Hdpi He Hm Hpos.
  destruct (page_setup_auto_value args Hauto) as [Hsetup _]; [lia |].
  cbv zeta in Hsetup.
  set (s := inject_Z (dpi args) / (inject_Z 254 / inject_Z 10)) in *.
  set (W := px (list_max (map fst (files args)))) in *.
  set (H := px (list_max (map snd (files args)))) in *.
  assert (Hs : 0 < s).
  { unfold s. apply div_pos; [reflexivity |].
    change 0 with (inject_Z 0). rewrite <- Zlt_Qlt. exact Hdpi. }
  rewrite Forall_forall in Hpos.
  assert (Hle : forall sz, In sz (files args) ->
            0 < px (fst sz) / s /\ px (fst sz) / s <= W / s
            /\ 0 < px (snd sz) / s /\ px (snd sz) / s <= H / s).
  { intros sz Hsz. destruct (Hpos sz Hsz) as [Hx Hy]. repeat split.
    - apply div_pos; [exact Hs | now apply px_pos].
    - apply div_le_mono; [exact Hs |]. apply px_le, list_max_ge. now apply in_map.
    - apply div_pos; [exact Hs | now apply px_pos].
    - apply div_le_mono; [exact Hs |]. apply px_le, list_max_ge. now apply in_map. }
  set (pw := 2 * margin args + W / s) in *.
  set (ph := 2 * margin args + H / s) in *.
  destruct (place_all_total args [pw; ph] s (files args) 0) as (ps & Hps & Hnth).
  { intros i sz Hi. pose proof (nth_error_In _ _ Hi) as Hsz.
    destruct (Hle sz Hsz) as (A1 & A2 & A3 & A4).
    destruct (existsb (Z.eqb (Z.of_nat (0 + i) + 1)) l) eqn:E.
    - destruct (Hpos sz Hsz) as [Hx Hy].
      apply (place_expanded_ok args l pw ph s (0 + i) sz He E); try assumption;
        unfold pw, ph; lra.
    - eexists. now apply (place_global args l pw ph s (0 + i) sz He E). }
  exists (mkDocument [pw; ph] s ps), pw, ph.
  split; [unfold merge; rewrite Hsetup; cbn [bind]; rewrite Hps; reflexivity |].
  cbn [page_dim scale pages]. split; [reflexivity |].
  intros i sz Hi Hout. destruct (Hnth i sz Hi) as (p & Hp1 & Hp2).
  pose proof (nth_error_In _ _ Hi) as Hsz.
  rewrite (place_global args l pw ph s (0 + i) sz He Hout Hs) in Hp2.
  inversion Hp2; subst p; clear Hp2.
  eexists. split; [exact Hp1 |]. cbn [w h x y].
  split; [reflexivity |]. split; [reflexivity |].
  destruct (Hle sz Hsz) as (A1 & A2 & A3 & A4).
  unfold fits, inside_margins. cbn [w h x y]. unfold pw, ph.
  clear Hnth Hp1 Hps Hsetup Hle.
  set (a := W / s) in *. set (b := H / s) in *.
  set (u := px (fst sz) / s) in *. set (v := px (snd sz) / s) in *.
  clearbody a b u v. unfold Qdiv. change (/ 2) with (1 # 2). repeat split; lra.
Qed.

(** X18: in exact arithmetic, an image whose position is in the expand list
    is scaled by itself to the full page, whatever the global scale: it is
    drawn no larger than the page on both axes, exactly as large as the page
    on one of them, and at non-negative offsets.  In double precision the
    width can exceed the page by a rounding error and the offset can then be
    negative, see [expanded_float_rounding]. *)
Theorem place_expanded_fills_page (args : QArgs) (l : list Z) (pw ph s : Q)
        (i : nat) (sz : nat * nat) :
  expand args = Some l ->
  existsb (Z.eqb (Z.of_nat i + 1)) l = true ->
  0 < pw -> 0 < ph -> (0 < fst sz)%nat -> (0 < snd sz)%nat ->
  exists p,
    place args [pw; ph] s i sz = Ok p
    /\ w p <= pw /\ h p <= ph
    /\ (w p == pw \/ h p == ph)
    /\ 0 <= x p /\ 0 <= y p.
Proof.
  intros He Hin Hw Hh Hx Hy. unfold place, in_expand. rewrite He, Hin.
  cbn [bind mapM combine fst snd]. unfold of_nat. cbn [of_Z Number_Q].
  fold (px (fst sz)) (px (snd sz)).
  pose proof (px_pos _ Hx) as Px. pose proof (px_pos _ Hy) as Py.
  rewrite !true_div_ok by lra. cbn [bind].
  destruct (py_max_pair (px (fst sz) / pw) (px (snd sz) / ph))
    as (m & Hm & H1 & H2 & H3).
  rewrite Hm. cbn [bind].
  assert (Hpos : 0 < m).
  { apply Qlt_le_trans with (px (fst sz) / pw); [| exact H1]. now apply div_pos. }
  rewrite !true_div_ok by lra. cbn [bind map combine index nth_error fst snd].
  eexists. split; [reflexivity |]. cbn [w h x y].
  assert (Bw : px (fst sz) / m <= pw) by (now apply div_le_scale).
  assert (Bh : px (snd sz) / m <= ph) by (now apply div_le_scale).
  split; [exact Bw |]. split; [exact Bh |]. split.
  - destruct H3 as [-> | ->]; [left | right]; field; lra.
  - cbn [quot sub Number_Q]. change (inject_Z 2) with 2.
    split; apply Qle_shift_div_l; lra.
Qed.

(** X19: in exact arithmetic, on a fixed page the global scale is the
    smallest positive scale at which every image fits the printable area on
    both axes.  In double precision the image that decides the scale can
    exceed the printable area by a rounding error, see
    [fixed_page_float_rounding]. *)
Theorem fixed_scale_is_smallest (args : QArgs) (pw ph : Q) :
  is_auto (size args) = false ->
  page_size (size args) = Ok [pw; ph] ->
  2 * margin args < pw -> 2 * margin args < ph ->
  files args <> [] ->
  Forall (fun sz => (0 < fst sz)%nat /\ (0 < snd sz)%nat) (files args) ->
  exists s,
    page_setup args = Ok ([pw; ph], s)
    /\ 0 < s
    /\ (forall sz, In sz (files args) ->
          px (fst sz) / s <= pw - 2 * margin args
          /\ px (snd sz) / s <= ph - 2 * margin args)
    /\ forall s', 0 < s' ->
         (forall sz, In sz (files args) ->
            px (fst sz) / s' <= pw - 2 * margin args
            /\ px (snd sz) / s' <= ph - 2 * margin args) ->
         s <= s'.
Proof.
  intros Hauto Hsize Hw Hh Hne Hpos.
  destruct (page_setup_fixed args pw ph Hauto Hsize Hw Hh)
    as (s & Hs & H1 & H2 & H3).
  rewrite Forall_forall in Hpos.
  assert (Hratio : forall sz, In sz (files args) ->
            px (fst sz) / (pw - 2 * margin args) <= s
            /\ px (snd sz) / (ph - 2 * margin args) <= s).
  { intros sz Hsz. split.
    - eapply Qle_trans; [| exact H1]. apply div_le_mono; [lra |].
      apply px_le, list_max_ge. now apply in_map.
    - eapply Qle_trans; [| exact H2]. apply div_le_mono; [lra |].
      apply px_le, list_max_ge. now apply in_map. }
  assert (Hspos : 0 < s).
  { destruct (files args) as [| sz0 rest] eqn:E; [congruence |].
    destruct (Hratio sz0 (or_introl eq_refl)) as [Hr _].
    eapply Qlt_le_trans; [| exact Hr].
    apply div_pos; [lra | apply px_pos, (Hpos sz0 (or_introl eq_refl))]. }
  exists s. split; [exact Hs |]. split; [exact Hspos |]. split.
  - intros sz Hsz. destruct (Hratio sz Hsz) as [R1 R2].
    split; apply div_le_scale; auto; lra.
  - intros s' Hs' Hfit.
    assert (Hf : map fst (files args) <> [])
      by (intros E; apply map_eq_nil in E; contradiction).
    assert (Hg : map snd (files args) <> [])
      by (intros E; apply map_eq_nil in E; contradiction).
    destruct H3 as [-> | ->].
    + pose proof (list_max_attained _ Hf) as Hin.
      apply in_map_iff in Hin. destruct Hin as (sz & Esz & Hsz).
      rewrite <- Esz. destruct (Hfit sz Hsz) as [F _].
      apply div_le_scale; auto; lra.
    + pose proof (list_max_attained _ Hg) as Hin.
      apply in_map_iff in Hin. destruct Hin as (sz & Esz & Hsz).
      rewrite <- Esz. destruct (Hfit sz Hsz) as [_ F].
      apply div_le_scale; auto; lra.
Qed.

(** In double precision the bounds of the exact layout can be missed by a
    rounding error.  At 72 dpi with the default margin, the second of the
    two images of the automatic page is drawn above the lower edge of the top
    margin: its offset is 19.999999999999993 mm for a margin of 20 mm. *)
Lemma auto_page_float_rounding :
  exists doc p,
    merge (num := Float.Number_float) Inputs.auto_float_args = Ok doc
    /\ nth_error (pages doc) 1 = Some p
    /\ PrimFloat.ltb (y p) (Float.float_of_Z 20) = true.
Proof.
  eexists. eexists. split; [vm_compute; reflexivity |].
  split; [reflexivity |]. vm_compute. reflexivity.
Qed.

(** An expanded 49 by 1 image on a page of 170 by 300 mm is drawn
    170.00000000000003 mm wide, at a negative horizontal offset. *)
Lemma expanded_float_rounding :
  exists doc p,
    merge (num := Float.Number_float) Inputs.expand_float_args = Ok doc
    /\ pages doc = [p]
    /\ PrimFloat.ltb (Float.float_of_Z 170) (w p) = true
    /\ PrimFloat.ltb (x p) PrimFloat.zero = true.
Proof.
  eexists. eexists. split; [vm_compute; reflexivity |].
  split; [reflexivity |]. split; vm_compute; reflexivity.
Qed.

Lemma merge_unknown_size_name_witness :
  merge Inputs.lowercase_a4_args = Raise KeyError.
Proof.
  apply (merge_unknown_size_name Inputs.lowercase_a4_args "a4"); reflexivity.
Defined.

Lemma merge_auto_zero_dpi_witness :
  merge Inputs.auto_zero_dpi_args = Raise ZeroDivisionError.
Proof. apply (merge_auto_zero_dpi Inputs.auto_zero_dpi_args); reflexivity. Defined.

Lemma merge_margin_half_page_witness :
  merge Inputs.half_margin_args = Raise ZeroDivisionError.
Proof.
  apply (merge_margin_half_page Inputs.half_margin_args 210 [297]); reflexivity.
Defined.

Lemma merge_auto_fits_witness :
  exists doc pw ph,
    merge Examples.auto_args = Ok doc
    /\ page_dim doc = [pw; ph]
    /\ forall i sz,
         nth_error (files Examples.auto_args) i = Some sz ->
         existsb (Z.eqb (Z.of_nat i + 1)) [] = false ->
         exists p, nth_error (pages doc) i = Some p
           /\ w p = px (fst sz) / scale doc
           /\ h p = px (snd sz) / scale doc
           /\ fits p pw ph 20
           /\ inside_margins p pw ph 20.
Proof.
  apply (merge_auto_fits Examples.auto_args []).
  - reflexivity.
  - reflexivity.
  - reflexivity.
  - discriminate.
  - repeat constructor.
Defined.

Lemma place_expanded_fills_page_witness :
  exists p,
    place Examples.a4_args [210; 297] 1 1 (20, 300)%nat = Ok p
    /\ w p <= 210 /\ h p <= 297
    /\ (w p == 210 \/ h p == 297)
    /\ 0 <= x p /\ 0 <= y p.
Proof.
  apply (place_expanded_fills_page Examples.a4_args [2; 7]%Z 210 297 1 1
           (20, 300)%nat); try reflexivity; simpl; lia.
Defined.

Lemma fixed_scale_is_smallest_witness :
  exists s,
    page_setup Examples.a4_args = Ok ([210; 297], s)
    /\ 0 < s
    /\ (forall sz, In sz (files Examples.a4_args) ->
          px (fst sz) / s <= 210 - 2 * 20
          /\ px (snd sz) / s <= 297 - 2 * 20)
    /\ forall s', 0 < s' ->
         (forall sz, In sz (files Examples.a4_args) ->
            px (fst sz) / s' <= 210 - 2 * 20
            /\ px (snd sz) / s' <= 297 - 2 * 20) ->
         s <= s'.
Proof.
  apply (fixed_scale_is_smallest Examples.a4_args 210 297).
  - reflexivity.
  - reflexivity.
  - reflexivity.
  - reflexivity.
  - discriminate.
  - repeat constructor.
Defined.

Lemma expand_out_of_range_inert_witness :
  merge Inputs.far_expand_args
  = merge (with_expand Inputs.far_expand_args (Some [])).
Proof.
  apply (expand_out_of_range_inert Inputs.far_expand_args [0; 7]%Z).
  - reflexivity.
  - constructor; [left; reflexivity |].
    constructor; [right; reflexivity | constructor].
Defined.

Close Scope Q_scope.

Import Options.

Lemma dict_get_set (k k' : string) (v : json) (d : dict) :
  dict_get k (dict_set k' v d)
  = if String.eqb k k' then Some v else dict_get k d.
Proof.
  induction d as [| [k0 v0] d IH]; simpl.
  - reflexivity.
  - destruct (String.eqb k' k0) eqn:E0; simpl.
    + apply String.eqb_eq in E0. subst k0.
      destruct (String.eqb k k'); reflexivity.
    + destruct (String.eqb k k0) eqn:E1.
      * apply String.eqb_eq in E1. subst k0.
        rewrite String.eqb_sym in E0. now rewrite E0.
      * exact IH.
Qed.

Lemma dict_get_update (k : string) (pairs : list (string * json)) (d : dict) :
  dict_get k (dict_update d pairs)
  = match last_value k pairs with
    | Some v => Some v
    | None => dict_get k d
    end.
Proof.
  unfold dict_update. revert d; induction pairs as [| [k0 v0] pairs IH]; intros d.
  - reflexivity.
  - cbn [fold_left fst snd last_value]. rewrite IH.
    destruct (last_value k pairs); [reflexivity |].
    rewrite dict_get_set. now destruct (String.eqb k k0).
Qed.

(** X21: with explicit JSON options the result holds exactly the pairs of the
    JSON object, the last value of a repeated key winning, plus the format
    unless the object binds "format" itself; no default is added. *)
Theorem merge_pillow_options_explicit
        (kv : list (string * json)) (format k : string) :
  exists d,
    merge_pillow_options (PillowJson kv) format = Ok d
    /\ dict_get k d
       = match last_value k kv with
         | Some v => Some v
         | None => if String.eqb k "format" then Some (JStr format) else None
         end.
Proof.
  eexists. split; [reflexivity |]. rewrite dict_get_update. reflexivity.
Qed.

(** X22: with "auto", in any letter case, the format is kept and the defaults of
    that format are added: optimize for png, quality 50 for jpeg, nothing for
    any other format. *)
Theorem merge_pillow_options_auto (s format k : string) :
  String.eqb (Crop.lower_upper_map Layout.lower_char s) "auto" = true ->
  exists d,
    merge_pillow_options (PillowText s) format = Ok d
    /\ dict_get "format" d = Some (JStr format)
    /\ (k <> "format"%string ->
        dict_get k d = dict_get k (get_or_empty format MERGE_DEFAULT_PILLOW_PARAMS)).
Proof.
  intros Hs. unfold merge_pillow_options. rewrite Hs. eexists.
  split; [reflexivity |]. rewrite !dict_get_update.
  unfold MERGE_DEFAULT_PILLOW_PARAMS. cbn [get_or_empty].
  destruct (String.eqb format "png") eqn:E1; [| destruct (String.eqb format "jpeg") eqn:E2].
  - cbn [last_value]. split; [reflexivity |]. intros Hk.
    destruct (String.eqb k "optimize") eqn:E; cbn [dict_get]; rewrite E; [reflexivity |].
    apply String.eqb_neq in Hk. now rewrite Hk.
  - cbn [last_value]. split; [reflexivity |]. intros Hk.
    destruct (String.eqb k "quality") eqn:E; cbn [dict_get]; rewrite E; [reflexivity |].
    apply String.eqb_neq in Hk. now rewrite Hk.
  - cbn [last_value dict_get]. split; [reflexivity |]. intros Hk.
    apply String.eqb_neq in Hk. now rewrite Hk.
Qed.

Lemma merge_pillow_options_auto_witness :
  exists d,
    merge_pillow_options (PillowText "Auto") "jpeg" = Ok d
    /\ dict_get "format" d = Some (JStr "jpeg")
    /\ dict_get "quality" d = Some (JNum 50).
Proof.
  destruct (merge_pillow_options_auto "Auto" "jpeg" "quality" eq_refl)
    as (d & Hd & Hf & Hq).
  exists d. split; [exact Hd |]. split; [exact Hf |].
  rewrite Hq; [reflexivity | discriminate].
Defined.

(** ** Snipping *)

(** X23: a rectangle found in a mask can always be cut out of an image: with
    autocrop off the crop succeeds for every image, and the result is
    [right - left] pixels wide and [bottom - top] pixels high. *)
Theorem mask_regions_can_be_cropped
        (m : mask) (out : list rect) (r : rect) (img : Image) (t : Z) :
  find_contiguous_rectangles m = Ok out -> In r out ->
  exists x0 y0 x1 y1 o,
    r = [x0; y0; x1; y1]
    /\ crop img r "no" t = Ok o
    /\ Z.of_nat (width o) = (x1 - x0)%Z
    /\ Z.of_nat (height o) = (y1 - y0)%Z.
Proof.
  intros Hout Hr.
  destruct (rectangles_upper_bounds_are_members m out r Hout Hr)
    as (x0 & y0 & x1 & y1 & -> & Hx & Hy & _).
  exists x0, y0, x1, y1.
  unfold crop, reference_color. simpl (String.eqb _ _). cbn [bind].
  unfold pil_crop.
  destruct ((x1 <? x0)%Z || (y1 <? y0)%Z) eqn:E.
  { apply orb_prop in E. destruct E as [E | E]; apply Z.ltb_lt in E; lia. }
  eexists. split; [reflexivity |]. split; [reflexivity |].
  cbn [bind width height]. lia.
Qed.

Lemma mask_regions_can_be_cropped_witness :
  exists o,
    crop Examples.rgb_2x2 [5; 5; 6; 6]%Z "no" 0 = Ok o
    /\ Z.of_nat (width o) = 1%Z /\ Z.of_nat (height o) = 1%Z.
Proof.
  destruct (mask_regions_can_be_cropped two_blocks
              [[0; 0; 1; 1]; [5; 5; 6; 6]]%Z [5; 5; 6; 6]%Z Examples.rgb_2x2 0)
    as (x0 & y0 & x1 & y1 & o & E & Ho & Hw & Hh).
  - vm_compute. reflexivity.
  - right. left. reflexivity.
  - injection E as <- <- <- <-. exists o. auto.
Defined.

(** X24: a mask image with an alpha channel: every fully transparent pixel lies
    within one of the regions read from it, bounds included. *)
Theorem load_roi_covers_transparent
        (image_open : string -> Snip.io Image) (path : string)
        (roi_img : Image) (x y : nat) (px : pixel) :
  image_open path = Snip.Return roi_img ->
  well_formed roi_img = true -> mode roi_img = RGBA ->
  getpixel roi_img x y = Ok px -> nth 3 px 0%Z = 0%Z ->
  exists regions x0 y0 x1 y1,
    Snip.load_roi image_open (Snip.RoiFile path) = Snip.Return regions
    /\ In [x0; y0; x1; y1] regions
    /\ (x0 <= Z.of_nat x <= x1)%Z /\ (y0 <= Z.of_nat y <= y1)%Z.
Proof.
  intros Hopen Hwf Hmode Hpx Ha.
  unfold getpixel in Hpx.
  destruct ((x <? width roi_img) && (y <? height roi_img)) eqn:E; [| discriminate].
  apply andb_prop in E. destruct E as [Hx Hy].
  apply Nat.ltb_lt in Hx, Hy. inversion Hpx; subst px; clear Hpx.
  unfold well_formed in Hwf. apply andb_prop in Hwf. destruct Hwf as [HL HR].
  apply Nat.eqb_eq in HL.
  assert (Hrow : List.length (nth y (pixels roi_img) []) = width roi_img).
  { rewrite forallb_forall in HR.
    specialize (HR (nth y (pixels roi_img) [])).
    assert (Hin : In (nth y (pixels roi_img) []) (pixels roi_img))
      by (apply nth_In; unfold grid, pixel in *; lia).
    apply HR in Hin. apply andb_prop in Hin. destruct Hin as [Hin _].
    now apply Nat.eqb_eq in Hin. }
  set (m := map (map (fun p : pixel => (nth 3 p 0 =? 0)%Z)) (pixels roi_img)).
  assert (Hcell : cell m y x = true).
  { unfold cell, m.
    rewrite (get_map_map _ _ _ _ _ _ (zero_pixel (mode roi_img)) false)
      by (unfold grid, pixel in *; lia).
    now apply Z.eqb_eq. }
  destruct (true_cells_are_covered m y x Hcell)
    as (out & x0 & y0 & x1 & y1 & Hout & Hin & Hbx & Hby).
  exists out, x0, y0, x1, y1.
  split; [| auto].
  unfold Snip.load_roi. rewrite Hopen. unfold Snip.full_alpha. rewrite Hmode.
  cbn [bind]. exact (f_equal Snip.lift Hout).
Qed.

Lemma load_roi_covers_transparent_witness :
  exists regions x0 y0 x1 y1,
    Snip.load_roi Inputs.disk_open (Snip.RoiFile "mask.png") = Snip.Return regions
    /\ In [x0; y0; x1; y1] regions
    /\ (x0 <= 0 <= x1)%Z /\ (y0 <= 1 <= y1)%Z.
Proof.
  apply (load_roi_covers_transparent Inputs.disk_open "mask.png"
           Examples.rgba_2x2 0 1 [0; 0; 255; 0]%Z); reflexivity.
Defined.

Section SnipFacts.

Variable image_open : string -> Snip.io Image.
Variable makedirs : string -> Snip.io unit.
Variable image_save : string -> string -> Image -> Snip.io unit.
Variable stem : string -> string.

Lemma snip_regions_log (args : Snip.Args) (f : string) (img : Image)
      (regions : list rect) (ri : nat) (log : Snip.saved) :
  (forall k r, nth_error regions k = Some r ->
     exists o, crop img r (Snip.crop args) (Snip.tolerance args) = Ok o
               /\ image_save (Snip.outputdir args)
                    (Snip.outfile (stem f) (ri + k) (Snip.format args)) o
                  = Snip.Return tt) ->
  exists new,
    Snip.snip_regions image_save stem args f img regions ri log
    = (log ++ new, Snip.Return tt)
    /\ List.length new = List.length regions
    /\ forall k r, nth_error regions k = Some r ->
         exists o, crop img r (Snip.crop args) (Snip.tolerance args) = Ok o
                   /\ nth_error new k
                      = Some (Snip.outfile (stem f) (ri + k) (Snip.format args), o).
Proof.
  revert ri log; induction regions as [| r rest IH]; intros ri log Hok.
  - exists []. rewrite List.app_nil_r. split; [reflexivity |].
    split; [reflexivity |]. intros [| k] r H; discriminate H.
  - destruct (Hok 0 r eq_refl) as (o & Ho & Hs). rewrite Nat.add_0_r in Hs.
    destruct (IH (S ri)
                 (log ++ [(Snip.outfile (stem f) ri (Snip.format args), o)]))
      as (new & Hnew & Hlen & Hnth).
    { intros k r' Hr'. destruct (Hok (S k) r' Hr') as (o' & Ho' & Hs').
      exists o'. split; [exact Ho' |]. now rewrite Nat.add_succ_comm. }
    exists ((Snip.outfile (stem f) ri (Snip.format args), o) :: new).
    cbn [Snip.snip_regions]. rewrite Ho, Hs, Hnew, <- List.app_assoc.
    split; [reflexivity |]. split; [simpl; now rewrite Hlen |].
    intros [| k] r' H.
    + inversion H; subst. exists o. rewrite Nat.add_0_r.
      split; [exact Ho | reflexivity].
    + destruct (Hnth k r' H) as (o' & Ho' & Hk). exists o'.
      split; [exact Ho' |]. simpl. now rewrite <- Nat.add_succ_comm.
Qed.

(** X25: when the regions load, the output directory can be made and every
    open, crop and save goes through, [snip] saves one file per image and
    region, image by image and region by region: the [k]-th region (from 0)
    of the [j]-th file is the save number [j * regions + k], under the name
    [stem-(k+1).format], and nothing else is saved. *)
Theorem snip_saves_every_region (args : Snip.Args) (regions : list rect) :
  Snip.load_roi image_open (Snip.roi args) = Snip.Return regions ->
  makedirs (Snip.outputdir args) = Snip.Return tt ->
  (forall f, In f (Snip.files args) ->
     exists img, image_open f = Snip.Return img
       /\ forall k r, nth_error regions k = Some r ->
            exists o, crop img r (Snip.crop args) (Snip.tolerance args) = Ok o
              /\ image_save (Snip.outputdir args)
                   (Snip.outfile (stem f) k (Snip.format args)) o
                 = Snip.Return tt) ->
  exists log,
    Snip.snip image_open makedirs image_save stem args = (log, Snip.Return tt)
    /\ List.length log = List.length (Snip.files args) * List.length regions
    /\ forall j k f r,
         nth_error (Snip.files args) j = Some f -> nth_error regions k = Some r ->
         exists img o,
           image_open f = Snip.Return img
           /\ crop img r (Snip.crop args) (Snip.tolerance args) = Ok o
           /\ nth_error log (j * List.length regions + k)
              = Some (Snip.outfile (stem f) k (Snip.format args), o).
Proof.
  intros Hroi Hdir Hok. unfold Snip.snip. rewrite Hroi, Hdir.
  assert (G : forall fs log0,
    (forall f, In f fs ->
       exists img, image_open f = Snip.Return img
         /\ forall k r, nth_error regions k = Some r ->
              exists o, crop img r (Snip.crop args) (Snip.tolerance args) = Ok o
                /\ image_save (Snip.outputdir args)
                     (Snip.outfile (stem f) k (Snip.format args)) o
                   = Snip.Return tt) ->
    exists new,
      Snip.snip_files image_open image_save stem args regions fs log0
      = (log0 ++ new, Snip.Return tt)
      /\ List.length new = List.length fs * List.length regions
      /\ forall j k f r,
           nth_error fs j = Some f -> nth_error regions k = Some r ->
           exists img o,
             image_open f = Snip.Return img
             /\ crop img r (Snip.crop args) (Snip.tolerance args) = Ok o
             /\ nth_error new (j * List.length regions + k)
                = Some (Snip.outfile (stem f) k (Snip.format args), o)).
  { induction fs as [| f0 fs IH]; intros log0 Hfs.
    - exists []. rewrite List.app_nil_r. split; [reflexivity |].
      split; [reflexivity |]. intros [| j] k f r H; discriminate H.
    - destruct (Hfs f0 (or_introl eq_refl)) as (img & Hopen & Hreg).
      destruct (snip_regions_log args f0 img regions 0 log0 Hreg)
        as (new1 & H1 & L1 & N1).
      destruct (IH (log0 ++ new1)) as (new2 & H2 & L2 & N2).
      { intros f Hf. apply Hfs. now right. }
      exists (new1 ++ new2). cbn [Snip.snip_files].
      rewrite Hopen, H1, H2, List.app_assoc.
      split; [reflexivity |]. split; [rewrite List.length_app; simpl; lia |].
      intros [| j] k f r Hj Hk.
      + inversion Hj; subst. destruct (N1 k r Hk) as (o & Ho & Hn).
        exists img, o. split; [exact Hopen |]. split; [exact Ho |]. simpl.
        rewrite nth_error_app1; [exact Hn |].
        rewrite L1. apply nth_error_Some. congruence.
      + destruct (N2 j k f r Hj Hk) as (img' & o & Hop & Ho & Hn).
        exists img', o. split; [exact Hop |]. split; [exact Ho |].
        rewrite nth_error_app2 by (rewrite L1; simpl; lia).
        rewrite L1.
        replace (S j * List.length regions + k - List.length regions)
          with (j * List.length regions + k) by (simpl; lia).
        exact Hn. }
  destruct (G (Snip.files args) [] Hok) as (new & Hnew & Hlen & Hnth).
  exists new. simpl in Hnew. auto.
Qed.

End SnipFacts.

Lemma snip_saves_every_region_witness :
  exists log,
    Snip.snip Inputs.disk_open Inputs.disk_makedirs Inputs.disk_save
              Inputs.disk_stem Inputs.snip_args
    = (log, Snip.Return tt)
    /\ List.length log = 2
    /\ exists o, nth_error log 1 = Some ("scan-2.png"%string, o).
Proof.
  destruct (snip_saves_every_region Inputs.disk_open Inputs.disk_makedirs
              Inputs.disk_save Inputs.disk_stem Inputs.snip_args
              [[0; 0; 3; 3]; [1; 1; 2; 2]]%Z)
    as (log & Hlog & Hlen & Hnth).
  - reflexivity.
  - reflexivity.
  - intros f [<- | []]. exists Inputs.framed_3x3. split; [reflexivity |].
    intros k r H.
    destruct k as [| [| k]]; [| | destruct k; discriminate H];
      injection H as <-; eexists; split; reflexivity.
  - exists log. split; [exact Hlog |]. split; [exact Hlen |].
    destruct (Hnth 0 1 "scan.png"%string [1; 1; 2; 2]%Z eq_refl eq_refl)
      as (img & o & _ & _ & Ho).
    exists o. exact Ho.
Defined.

Lemma append_cancel_l (s a b : string) :
  (s ++ a = s ++ b)%string -> a = b.
Proof.
  induction s as [| ch s IH]; simpl; intros H; [exact H |].
  injection H as H. exact (IH H).
Qed.

Lemma length_append (a b : string) :
  String.length (a ++ b) = String.length a + String.length b.
Proof. induction a as [| ch a IH]; simpl; [reflexivity | now rewrite IH]. Qed.

Lemma append_cancel_r (s a b : string) :
  (a ++ s = b ++ s)%string -> a = b.
Proof.
  intros H.
  assert (L : String.length a = String.length b).
  { apply (f_equal String.length) in H. rewrite !length_append in H. lia. }
  revert b H L; induction a as [| ch a IH]; intros [| ch' b] H L;
    try discriminate L; [reflexivity |].
  simpl in H. injection H as -> H. f_equal. apply IH; [exact H |].
  simpl in L. lia.
Qed.

Lemma to_uint_nonnil (n : nat) : Nat.to_uint n <> Decimal.Nil.
Proof.
  rewrite <- (DecimalNat.Unsigned.of_to n) at 1.
  rewrite DecimalNat.Unsigned.to_of. apply DecimalFacts.unorm_nonnil.
Qed.

(** X26: within one image the output names of different regions differ, so no
    region overwrites another. *)
Theorem outfile_distinct (stem : string) (format : string) (k k' : nat) :
  k <> k' -> Snip.outfile stem k format <> Snip.outfile stem k' format.
Proof.
  unfold Snip.outfile. intros Hk H. apply Hk.
  apply append_cancel_l in H. apply (append_cancel_l "-") in H.
  apply append_cancel_r in H.
  assert (E : Some (Nat.to_uint (k + 1)) = Some (Nat.to_uint (k' + 1))).
  { rewrite <- (DecimalString.NilZero.usu _ (to_uint_nonnil (k + 1))),
            <- (DecimalString.NilZero.usu _ (to_uint_nonnil (k' + 1))).
    now rewrite H. }
  injection E as E. apply DecimalNat.Unsigned.to_uint_inj in E. lia.
Qed.

Lemma outfile_distinct_witness :
  Snip.outfile "scan" 8 "png" <> Snip.outfile "scan" 9 "png".
Proof. apply (outfile_distinct "scan" "png" 8 9). discriminate. Defined.
